(** * Liquid Glass: the numeric engine of [liquid-glass.umd.js]

    A shallow embedding of the surface profiles, the 1D refraction solver,
    the displacement and specular rasterizers, the [Spring] class and the
    animation loop of the UMD build, followed by the properties that the
    specification states about them.

    Conventions of the embedding.
    - A JavaScript number is a real number: arithmetic is exact, and [NaN]
      and the infinities are not represented (the one place where the
      source relies on [-Infinity], [Math.max] of no arguments, has its own
      type [ExtR]).  Where a quotient of the source has a divisor that can
      be 0, the embedding says what the source does then: the solver has
      no table in the model ([OutOfModel]), and the rasterizer's depth
      ratio follows the infinities and [NaN] through the clamp and the
      table lookup.  Tests against 0 are decided on the exact value; the
      one input for which that value is 0 only because rounding errors are
      absent, a refractive index of 1, is outside the model as well.
    - Pixel counts and loop counters are natural numbers, injected into the
      reals with [INR] where the source mixes them with other numbers.
    - A [Uint8ClampedArray] is a [list Z] of bytes; a store converts its
      value with [ToUint8Clamp] and is ignored when the index is not an
      integer inside the array.
    - An exception is a [Throw] result; the mutations made before it stay. *)

From Stdlib Require Import Reals Lra Lia ZArith List String Bool.
From stdpp Require Import base list.

Open Scope R_scope.

(** ** The [Math] functions the source uses *)

Definition Math_min (a b : R) : R := Rmin a b.
Definition Math_max (a b : R) : R := Rmax a b.
Definition Math_abs (a : R) : R := Rabs a.
Definition Math_sqrt (a : R) : R := sqrt a.
Definition Math_floor (a : R) : Z := Zfloor a.
Definition Math_cos (a : R) : R := cos a.
Definition Math_sin (a : R) : R := sin a.
Definition Math_PI : R := PI.

(** [Math.pow(b, n)] for the literal natural exponents 2, 3, 4 and 5. *)
Definition Math_powi (b : R) (n : nat) : R := b ^ n.

(** [Math.pow(b, e)] for a real exponent: 1 at exponent 0, [b^e] for a
    positive base, 0 for base 0 and a positive exponent.  The remaining
    cases ([Infinity], [NaN]) have no real value; they return 0 here. *)
Definition Math_pow (b e : R) : R :=
  if Req_dec_T e 0 then 1
  else if Rlt_dec 0 b then Rpower b e
  else 0.

(** Comparisons as booleans. *)
Definition ltb (a b : R) : bool := if Rlt_dec a b then true else false.
Definition leb (a b : R) : bool := if Rle_dec a b then true else false.
Definition gtb (a b : R) : bool := ltb b a.
Definition geb (a b : R) : bool := leb b a.

(** [a || d] on numbers: [d] replaces a falsy [a], and 0 is the only falsy
    real. *)
Definition or_default (a d : R) : R := if Req_dec_T a 0 then d else a.

(** The result of [Math.max.apply(null, l)]: [-Infinity] for no argument. *)
Inductive ExtR : Type :=
| NegInfinity
| Finite (r : R).

Definition ext_max (acc : ExtR) (x : R) : ExtR :=
  match acc with
  | NegInfinity => Finite x
  | Finite a => Finite (Math_max a x)
  end.

Definition Math_max_apply (l : list R) : ExtR := fold_left ext_max l NegInfinity.

(** [m || d]: [-Infinity] is truthy. *)
Definition ext_or_default (m : ExtR) (d : R) : ExtR :=
  match m with
  | NegInfinity => NegInfinity
  | Finite r => Finite (or_default r d)
  end.

(** ** Results of fallible code *)

Inductive exn : Type :=
| TypeError
| IndexSizeError.

(** [OutOfModel]: the source goes on with a value that is not a real number
    (a string, hence [NaN]). *)
Inductive result (A : Type) : Type :=
| Ok (a : A)
| Throw (e : exn)
| OutOfModel.

Arguments Ok {A} a.
Arguments Throw {A} e.
Arguments OutOfModel {A}.

Definition bind {A B : Type} (r : result A) (k : A -> result B) : result B :=
  match r with
  | Ok a => k a
  | Throw e => Throw e
  | OutOfModel => OutOfModel
  end.

Notation "'let!' x ':=' r 'in' k" := (bind r (fun x => k))
  (at level 10, x name, r at level 100, k at level 200).

(** ** Surface equations *)

Module SurfaceEquations.

Definition convex_circle (x : R) : R :=
  Math_sqrt (1 - Math_powi (1 - x) 2).

Definition convex_squircle (x : R) : R :=
  Math_pow (1 - Math_powi (1 - x) 4) (1 / 4).

Definition concave (x : R) : R :=
  1 - Math_sqrt (1 - Math_powi x 2).

(** The three locals of [lip]. *)
Definition lip_convex (x : R) : R :=
  Math_pow (1 - Math_powi (1 - Math_min (x * 2) 1) 4) (1 / 4).

Definition lip_concave (x : R) : R :=
  1 - Math_sqrt (1 - Math_powi (1 - x) 2) + 0.1.

Definition lip_smootherstep (x : R) : R :=
  6 * Math_powi x 5 - 15 * Math_powi x 4 + 10 * Math_powi x 3.

Definition lip (x : R) : R :=
  let convex := lip_convex x in
  let concave := lip_concave x in
  let smootherstep := lip_smootherstep x in
  convex * (1 - smootherstep) + concave * smootherstep.

End SurfaceEquations.

(** What [SurfaceEquations[key]] evaluates to.  [SurfaceEquations] is an
    object literal, so a key that is not one of its four own properties is
    looked up on [Object.prototype]. *)
Inductive JsValue : Type :=
| JsUndefined
| JsFunction (f : R -> R)
| JsObjectPrototype (member : string).

Definition Object_prototype_keys : list string :=
  [ "constructor"; "hasOwnProperty"; "isPrototypeOf"; "propertyIsEnumerable";
    "toLocaleString"; "toString"; "valueOf"; "__proto__";
    "__defineGetter__"; "__defineSetter__"; "__lookupGetter__";
    "__lookupSetter__" ]%string.

Definition SurfaceEquations_get (key : string) : JsValue :=
  if String.eqb key "convex_circle" then JsFunction SurfaceEquations.convex_circle
  else if String.eqb key "convex_squircle" then JsFunction SurfaceEquations.convex_squircle
  else if String.eqb key "concave" then JsFunction SurfaceEquations.concave
  else if String.eqb key "lip" then JsFunction SurfaceEquations.lip
  else if existsb (String.eqb key) Object_prototype_keys then JsObjectPrototype key
  else JsUndefined.

(** [surfaceFn(x)] in strict code, so with [this] undefined.  Calling
    [undefined], or the object that [__proto__] yields, is a [TypeError].
    [Object(x)] wraps [x] and counts as [x] in arithmetic; [isPrototypeOf]
    answers [false], which counts as 0; [toString] answers a string; the
    other members convert [this] to an object first and throw. *)
Definition call (surfaceFn : JsValue) (x : R) : result R :=
  match surfaceFn with
  | JsUndefined => Throw TypeError
  | JsFunction f => Ok (f x)
  | JsObjectPrototype member =>
      if String.eqb member "constructor" then Ok x
      else if String.eqb member "isPrototypeOf" then Ok 0
      else if String.eqb member "toString" then OutOfModel
      else Throw TypeError
  end.

(** ** The 1D refraction solver *)

Definition refract (eta : R) (normalX normalY : R) : option (R * R) :=
  let dot := normalY in
  let k := 1 - eta * eta * (1 - dot * dot) in
  if ltb k 0 then None
  else
    let kSqrt := Math_sqrt k in
    Some (- (eta * dot + kSqrt) * normalX,
          eta - (eta * dot + kSqrt) * normalY).

(** The local [dx] of the loop body. *)
Definition finite_difference_step (x : R) : R :=
  if ltb x 1 then 0.0001 else -0.0001.

(** The body of the [for] loop at index [i]: the value it pushes.  A
    quotient by a [refracted[1]] of 0 is an infinity or [NaN]: the entry
    is outside the model. *)
Definition sample (glassThickness bezelWidth : R) (surfaceFn : JsValue)
    (eta : R) (samples : nat) (i : nat) : result R :=
  let x := INR i / INR samples in
  let! y := call surfaceFn x in
  let dx := finite_difference_step x in
  let! y2 := call surfaceFn (Math_max 0 (Math_min 1 (x + dx))) in
  let derivative := (y2 - y) / dx in
  let magnitude := Math_sqrt (derivative * derivative + 1) in
  let normal := (- derivative / magnitude, -1 / magnitude) in
  match refract eta (fst normal) (snd normal) with
  | None => Ok 0
  | Some refracted =>
      let remainingHeightOnBezel := y * bezelWidth in
      let remainingHeight := remainingHeightOnBezel + glassThickness in
      if Req_dec_T (snd refracted) 0 then OutOfModel
      else Ok (fst refracted * (remainingHeight / snd refracted))
  end.

(** [for (i ...) result.push(body i)], stopping at the first exception. *)
Fixpoint push_each (body : nat -> result R) (indices : list nat)
    (acc : list R) : result (list R) :=
  match indices with
  | [] => Ok acc
  | i :: rest => let! v := body i in push_each body rest (acc ++ [v])
  end.

(** [samples = samples || 128]: an omitted count and a count of 0 are both
    replaced by 128. *)
Definition samples_or_default (samples : option nat) : nat :=
  match samples with
  | Some (S n) => S n
  | Some O | None => 128
  end.

(** The solver.  Two refractive indices have no table in the model.  For
    0, [eta] is [Infinity].  For 1, [eta * dot + kSqrt] is 0 in the reals,
    so every entry would be an exact 0, while doubles leave a residue of
    rounding in the entries, and [_updateFilter] goes on differently for a
    table of zeros.  A call of [surfaceFn] that throws does so before [eta]
    is used, whatever the index. *)
Definition _calculateDisplacementMap1D (glassThickness bezelWidth : R)
    (surfaceFn : JsValue) (refractiveIndex : R) (samples : option nat)
    : result (list R) :=
  let samples := samples_or_default samples in
  let eta := 1 / refractiveIndex in
  let result :=
    push_each (sample glassThickness bezelWidth surfaceFn eta samples)
      (seq 0 samples) [] in
  match result with
  | Ok _ =>
      if Req_dec_T refractiveIndex 0 then OutOfModel
      else if Req_dec_T refractiveIndex 1 then OutOfModel
      else result
  | _ => result
  end.

(** The build that [README.md] carries differs from the UMD build in the
    first line of the solver: [samples = 128] is a default parameter there,
    which replaces an omitted count only. *)
Module ESModule.

Definition _calculateDisplacementMap1D (glassThickness bezelWidth : R)
    (surfaceFn : JsValue) (refractiveIndex : R) (samples : option nat)
    : result (list R) :=
  let samples := match samples with Some n => n | None => 128%nat end in
  let eta := 1 / refractiveIndex in
  let result :=
    push_each (sample glassThickness bezelWidth surfaceFn eta samples)
      (seq 0 samples) [] in
  match result with
  | Ok _ =>
      if Req_dec_T refractiveIndex 0 then OutOfModel
      else if Req_dec_T refractiveIndex 1 then OutOfModel
      else result
  | _ => result
  end.

End ESModule.

(** ** Springs *)

Module Spring.

Record t : Type := mk {
  value : R;
  target : R;
  velocity : R;
  stiffness : R;
  damping : R
}.

(** [new Spring(value, stiffness, damping)]: an omitted or zero
    stiffness or damping is replaced ([stiffness || 300]). *)
Definition new (value : R) (stiffness damping : option R) : t :=
  {| value := value;
     target := value;
     velocity := 0;
     stiffness := match stiffness with Some k => or_default k 300 | None => 300 end;
     damping := match damping with Some c => or_default c 20 | None => 20 end |}.

Definition setTarget (s : t) (target : R) : t :=
  {| value := value s; target := target; velocity := velocity s;
     stiffness := stiffness s; damping := damping s |}.

(** The spring after [update(dt)]; the call returns its [value]. *)
Definition update (s : t) (dt : R) : t :=
  let force := (target s - value s) * stiffness s in
  let dampingForce := velocity s * damping s in
  let velocity' := velocity s + (force - dampingForce) * dt in
  let value' := value s + velocity' * dt in
  {| value := value'; target := target s; velocity := velocity';
     stiffness := stiffness s; damping := damping s |}.

Definition isSettled (s : t) : bool :=
  ltb (Math_abs (target s - value s)) 0.001
  && ltb (Math_abs (velocity s)) 0.001.

End Spring.

(** ** Image buffers *)

(** The conversion a [Uint8ClampedArray] applies to a stored number: clamp
    to [0, 255], round to the nearest integer, ties to even. *)
Definition ToUint8Clamp (v : R) : Z :=
  if leb v 0 then 0%Z
  else if leb 255 v then 255%Z
  else
    let f := Math_floor v in
    if ltb (IZR f + 0.5) v then (f + 1)%Z
    else if ltb v (IZR f + 0.5) then f
    else if Z.even f then f else (f + 1)%Z.

(** The element a numeric key designates, if it is a non-negative
    integer. *)
Definition array_index (idx : R) : option nat :=
  let z := Math_floor idx in
  if Req_dec_T (IZR z) idx
  then if (0 <=? z)%Z then Some (Z.to_nat z) else None
  else None.

(** [data[idx] = v]: nothing happens for a key that is not an index of the
    array. *)
Definition array_set (data : list Z) (idx : R) (v : R) : list Z :=
  match array_index idx with
  | Some n => <[n := ToUint8Clamp v]> data
  | None => data
  end.

Module ImageData.

Record t : Type := mk {
  width : nat;
  height : nat;
  data : list Z
}.

(** [new ImageData(sw, sh)]: transparent black, and an [IndexSizeError]
    when a side is zero. *)
Definition new (sw sh : nat) : result t :=
  if (sw =? 0)%nat || (sh =? 0)%nat then Throw IndexSizeError
  else Ok {| width := sw; height := sh; data := replicate (4 * sw * sh) 0%Z |}.

Definition with_data (img : t) (d : list Z) : t :=
  {| width := width img; height := height img; data := d |}.

(** The four channels of the pixel in column [x] and row [y]. *)
Definition pixel (img : t) (x y : nat) : list (option Z) :=
  let i := (4 * (y * width img + x))%nat in
  [data img !! i; data img !! (i + 1)%nat; data img !! (i + 2)%nat;
   data img !! (i + 3)%nat].

End ImageData.

(** ** The displacement rasterizer *)

(** [for (i = 0; i < data.length; i += 4)]: the neutral value in every
    pixel. *)
Definition fill_neutral (data : list Z) : list Z :=
  fold_left
    (fun data n =>
       let i := INR (4 * n) in
       let data := array_set data i 128 in
       let data := array_set data (i + 1) 128 in
       let data := array_set data (i + 2) 0 in
       array_set data (i + 3) 255)
    (seq 0 (Nat.div (length data + 3) 4)) data.

Definition ext_gtb (m : ExtR) (b : R) : bool :=
  match m with
  | NegInfinity => false
  | Finite r => gtb r b
  end.

(** [v / m]; a quotient by [-Infinity] is a zero. *)
Definition ext_div (v : R) (m : ExtR) : R :=
  match m with
  | NegInfinity => 0
  | Finite r => v / r
  end.

(** The ring test both rasterizers apply to a pixel of the object: its
    corner-local offset [(x, y)] and whether the squared distance lies
    between [inner] and [(radius + 1)^2]. *)
Definition corner_local (objectWidth objectHeight : nat) (radius : R)
    (x1 y1 : nat) : R * R :=
  let widthBetweenRadiuses := INR objectWidth - radius * 2 in
  let heightBetweenRadiuses := INR objectHeight - radius * 2 in
  let isOnLeftSide := ltb (INR x1) radius in
  let isOnRightSide := geb (INR x1) (INR objectWidth - radius) in
  let isOnTopSide := ltb (INR y1) radius in
  let isOnBottomSide := geb (INR y1) (INR objectHeight - radius) in
  let x := if isOnLeftSide then INR x1 - radius
           else if isOnRightSide then INR x1 - radius - widthBetweenRadiuses
           else 0 in
  let y := if isOnTopSide then INR y1 - radius
           else if isOnBottomSide then INR y1 - radius - heightBetweenRadiuses
           else 0 in
  (x, y).

Definition in_ring (radius inner : R) (xy : R * R) : bool :=
  let radiusPlusOneSquared := (radius + 1) * (radius + 1) in
  let distanceToCenterSquared := fst xy * fst xy + snd xy * snd xy in
  leb distanceToCenterSquared radiusPlusOneSquared
  && geb distanceToCenterSquared inner.

(** The anti-aliasing opacity of a pixel of the ring. *)
Definition edge_opacity (radius distanceToCenterSquared : R) : R :=
  let radiusSquared := radius * radius in
  let radiusPlusOneSquared := (radius + 1) * (radius + 1) in
  if ltb distanceToCenterSquared radiusSquared then 1
  else 1 - (Math_sqrt distanceToCenterSquared - Math_sqrt radiusSquared)
           / (Math_sqrt radiusPlusOneSquared - Math_sqrt radiusSquared).

(** [precomputedMap[Math.max(0, Math.min(bezelIndex, length - 1))] || 0]
    for the [bezelIndex] of a depth ratio [bezelRatio]. *)
Definition table_entry (precomputedMap : list R) (bezelRatio : R) : R :=
  let bezelIndex := Math_floor (bezelRatio * INR (length precomputedMap)) in
  match precomputedMap
        !! Z.to_nat (Z.max 0 (Z.min bezelIndex (Z.of_nat (length precomputedMap) - 1))) with
  | Some d => or_default d 0
  | None => 0
  end.

(** The local [distance] of the loop body.  With a [bezelWidth] of 0 the
    quotient [distanceFromSide / bezelWidth] is [Infinity], [-Infinity] or
    [NaN]: the clamp turns the infinities into the ratios 1 and 0, and
    [NaN] goes through the clamp and [Math.floor] to a key that is no
    index of the table, where [undefined || 0] is 0. *)
Definition bezel_distance (radius bezelWidth : R) (precomputedMap : list R)
    (distanceFromCenter : R) : R :=
  let distanceFromSide := radius - distanceFromCenter in
  if Req_dec_T bezelWidth 0 then
    if ltb 0 distanceFromSide then table_entry precomputedMap 1
    else if ltb distanceFromSide 0 then table_entry precomputedMap 0
    else 0
  else
    let bezelRatio := Math_max 0 (Math_min 1 (distanceFromSide / bezelWidth)) in
    table_entry precomputedMap bezelRatio.

(** The two numbers a pixel of the bezel stores in its red and green
    channels. *)
Definition displacement_values (radius bezelWidth : R) (maximumDisplacement : ExtR)
    (precomputedMap : list R) (xy : R * R) : R * R :=
  let '(x, y) := xy in
  let distanceToCenterSquared := x * x + y * y in
  let opacity := edge_opacity radius distanceToCenterSquared in
  let distanceFromCenter := Math_sqrt distanceToCenterSquared in
  let cos := if gtb distanceFromCenter 0 then x / distanceFromCenter else 0 in
  let sin := if gtb distanceFromCenter 0 then y / distanceFromCenter else 0 in
  let distance := bezel_distance radius bezelWidth precomputedMap distanceFromCenter in
  let dX := if ext_gtb maximumDisplacement 0
            then ext_div (- cos * distance) maximumDisplacement else 0 in
  let dY := if ext_gtb maximumDisplacement 0
            then ext_div (- sin * distance) maximumDisplacement else 0 in
  (Math_max 0 (Math_min 255 (128 + dX * 127 * opacity)),
   Math_max 0 (Math_min 255 (128 + dY * 127 * opacity))).

(** The body of the two nested loops at [(x1, y1)]. *)
Definition displacement_pixel (canvasWidth canvasHeight objectWidth objectHeight : nat)
    (radius bezelWidth : R) (maximumDisplacement : ExtR)
    (precomputedMap : list R) (data : list Z) (y1 x1 : nat) : list Z :=
  let radiusMinusBezelSquared :=
    Math_max 0 ((radius - bezelWidth) * (radius - bezelWidth)) in
  let objectX := (INR canvasWidth - INR objectWidth) / 2 in
  let objectY := (INR canvasHeight - INR objectHeight) / 2 in
  let idx := ((objectY + INR y1) * INR canvasWidth + objectX + INR x1) * 4 in
  let xy := corner_local objectWidth objectHeight radius x1 y1 in
  let isInBezel := in_ring radius radiusMinusBezelSquared xy in
  if isInBezel then
    let '(red, green) :=
      displacement_values radius bezelWidth maximumDisplacement precomputedMap xy in
    let data := array_set data idx red in
    let data := array_set data (idx + 1) green in
    let data := array_set data (idx + 2) 0 in
    array_set data (idx + 3) 255
  else data.

(** [for (y1 ...) for (x1 ...) body], rows outermost. *)
Definition for_pixels (objectWidth objectHeight : nat)
    (body : list Z -> nat -> nat -> list Z) (data : list Z) : list Z :=
  fold_left
    (fun data y1 => fold_left (fun data x1 => body data y1 x1) (seq 0 objectWidth) data)
    (seq 0 objectHeight) data.

Definition _calculateDisplacementMap2D (canvasWidth canvasHeight objectWidth objectHeight : nat)
    (radius bezelWidth : R) (maximumDisplacement : ExtR)
    (precomputedMap : list R) : result ImageData.t :=
  let! imageData := ImageData.new canvasWidth canvasHeight in
  let data := fill_neutral (ImageData.data imageData) in
  let data :=
    for_pixels objectWidth objectHeight
      (displacement_pixel canvasWidth canvasHeight objectWidth objectHeight
         radius bezelWidth maximumDisplacement precomputedMap)
      data in
  Ok (ImageData.with_data imageData data).

(** ** The specular rasterizer *)

(** The two values a pixel of the specular band stores: [color] in the
    three colour channels and [finalOpacity] in the alpha channel. *)
Definition specular_values (radius : R) (specularVector : R * R) (xy : R * R) : R * R :=
  let specularThickness := 1.5 in
  let '(x, y) := xy in
  let distanceToCenterSquared := x * x + y * y in
  let distanceFromCenter := Math_sqrt distanceToCenterSquared in
  let distanceFromSide := radius - distanceFromCenter in
  let opacity := edge_opacity radius distanceToCenterSquared in
  let cos := if gtb distanceFromCenter 0 then x / distanceFromCenter else 0 in
  let sin := if gtb distanceFromCenter 0 then - y / distanceFromCenter else 0 in
  let dotProduct := Math_abs (cos * fst specularVector + sin * snd specularVector) in
  let edgeRatio := Math_max 0 (Math_min 1 (distanceFromSide / specularThickness)) in
  let sharpFalloff := Math_sqrt (1 - (1 - edgeRatio) * (1 - edgeRatio)) in
  let coefficient := dotProduct * sharpFalloff in
  let color := Math_min 255 (255 * coefficient) in
  let finalOpacity := Math_min 255 (color * coefficient * opacity) in
  (color, finalOpacity).

Definition specular_pixel (objectWidth objectHeight : nat) (radius : R)
    (specularVector : R * R) (data : list Z) (y1 x1 : nat) : list Z :=
  let specularThickness := 1.5 in
  let radiusMinusSpecularSquared :=
    Math_max 0 ((radius - specularThickness) * (radius - specularThickness)) in
  let idx := (INR y1 * INR objectWidth + INR x1) * 4 in
  let xy := corner_local objectWidth objectHeight radius x1 y1 in
  let isNearEdge := in_ring radius radiusMinusSpecularSquared xy in
  if isNearEdge then
    let '(color, finalOpacity) := specular_values radius specularVector xy in
    let data := array_set data idx color in
    let data := array_set data (idx + 1) color in
    let data := array_set data (idx + 2) color in
    array_set data (idx + 3) finalOpacity
  else data.

Definition _calculateSpecularHighlight (objectWidth objectHeight : nat)
    (radius bezelWidth : R) (specularAngle : option R) : result ImageData.t :=
  let specularAngle :=
    match specularAngle with
    | Some a => or_default a (Math_PI / 3)
    | None => Math_PI / 3
    end in
  let! imageData := ImageData.new objectWidth objectHeight in
  let specularVector := (Math_cos specularAngle, Math_sin specularAngle) in
  let data :=
    for_pixels objectWidth objectHeight
      (specular_pixel objectWidth objectHeight radius specularVector)
      (ImageData.data imageData) in
  Ok (ImageData.with_data imageData data).

(** ** The [LiquidGlass] instance *)

(** The options the engine reads. *)
Record Options : Type := mkOptions {
  surfaceType : string;
  bezelWidth : R;
  glassThickness : R;
  refractiveIndex : R;
  refractionScale : R;
  specularOpacity : R;
  blur : R;
  springAnimation : bool
}.

(** The argument of [setOptions]: the keys it carries. *)
Record NewOptions : Type := mkNewOptions {
  new_surfaceType : option string;
  new_bezelWidth : option R;
  new_glassThickness : option R;
  new_refractiveIndex : option R;
  new_refractionScale : option R;
  new_specularOpacity : option R;
  new_blur : option R;
  new_springAnimation : option bool
}.

(** [for (var key in newOptions) this.options[key] = newOptions[key]]. *)
Definition assign_options (o : Options) (n : NewOptions) : Options :=
  {| surfaceType := default (surfaceType o) (new_surfaceType n);
     bezelWidth := default (bezelWidth o) (new_bezelWidth n);
     glassThickness := default (glassThickness o) (new_glassThickness n);
     refractiveIndex := default (refractiveIndex o) (new_refractiveIndex n);
     refractionScale := default (refractionScale o) (new_refractionScale n);
     specularOpacity := default (specularOpacity o) (new_specularOpacity n);
     blur := default (blur o) (new_blur n);
     springAnimation := default (springAnimation o) (new_springAnimation n) |}.

(** [this.dimensions]; [borderRadius] comes out of [parseInt]. *)
Record Dimensions : Type := mkDimensions {
  width : nat;
  height : nat;
  borderRadius : Z
}.

Record State : Type := mkState {
  isDragging : bool;
  velocityX : R;
  velocityY : R;
  lastX : R;
  lastY : R;
  lastTime : R;
  maximumDisplacement : ExtR
}.

(** The keys of [this.springs], in the order the constructor adds them. *)
Inductive SpringKey : Type :=
| scale | scaleX | scaleY | shadowOffsetX | shadowOffsetY | shadowBlur
| shadowAlpha | refractionBoost.

Definition spring_keys : list SpringKey :=
  [scale; scaleX; scaleY; shadowOffsetX; shadowOffsetY; shadowBlur;
   shadowAlpha; refractionBoost].

Definition SpringKey_eqb (a b : SpringKey) : bool :=
  match a, b with
  | scale, scale | scaleX, scaleX | scaleY, scaleY
  | shadowOffsetX, shadowOffsetX | shadowOffsetY, shadowOffsetY
  | shadowBlur, shadowBlur | shadowAlpha, shadowAlpha
  | refractionBoost, refractionBoost => true
  | _, _ => false
  end.

Definition Springs : Type := SpringKey -> Spring.t.

(** [springs[key].setTarget(target)]. *)
Definition setTarget (springs : Springs) (key : SpringKey) (target : R) : Springs :=
  fun k => if SpringKey_eqb key k then Spring.setTarget (springs k) target
           else springs k.

(** The eight [update(dt)] calls of a tick. *)
Definition update_all (springs : Springs) (dt : R) : Springs :=
  fun k => Spring.update (springs k) dt.

(** The springs the constructor builds from [springConfig]. *)
Definition initial_springs (stiffness damping : R) : Springs :=
  fun k =>
    match k with
    | scale => Spring.new 0.85 (Some stiffness) (Some damping)
    | scaleX => Spring.new 1 (Some stiffness) (Some (damping + 5))
    | scaleY => Spring.new 1 (Some stiffness) (Some (damping + 5))
    | shadowOffsetX => Spring.new 0 (Some stiffness) (Some (damping + 5))
    | shadowOffsetY => Spring.new 4 (Some stiffness) (Some (damping + 5))
    | shadowBlur => Spring.new 12 (Some stiffness) (Some (damping + 5))
    | shadowAlpha => Spring.new 0.15 (Some (stiffness - 100)) (Some damping)
    | refractionBoost => Spring.new 0.8 (Some (stiffness - 100)) (Some (damping - 7))
    end.

Record LiquidGlass : Type := mkLiquidGlass {
  options : Options;
  dimensions : Dimensions;
  state : State;
  springs : Springs;
  animationFrameId : option positive
}.

Definition with_options (this : LiquidGlass) (o : Options) : LiquidGlass :=
  mkLiquidGlass o (dimensions this) (state this) (springs this) (animationFrameId this).

Definition with_state (this : LiquidGlass) (s : State) : LiquidGlass :=
  mkLiquidGlass (options this) (dimensions this) s (springs this) (animationFrameId this).

Definition with_springs (this : LiquidGlass) (sp : Springs) : LiquidGlass :=
  mkLiquidGlass (options this) (dimensions this) (state this) sp (animationFrameId this).

Definition with_animationFrameId (this : LiquidGlass) (id : option positive) : LiquidGlass :=
  mkLiquidGlass (options this) (dimensions this) (state this) (springs this) id.

Definition with_maximumDisplacement (s : State) (m : ExtR) : State :=
  mkState (isDragging s) (velocityX s) (velocityY s) (lastX s) (lastY s) (lastTime s) m.

Definition with_velocity (s : State) (vx vy : R) : State :=
  mkState (isDragging s) vx vy (lastX s) (lastY s) (lastTime s) (maximumDisplacement s).

(** What a method does to the world outside the instance, in order: the
    calls into the solver and the rasterizers, and the attributes written
    to the filter.  The call of the 2D rasterizer is recorded with the
    [maximumDisplacement] it is handed; a scale is kept as its two
    factors. *)
Inductive effect : Type :=
| CallDisplacementMap1D
| CallDisplacementMap2D (maximumDisplacement : ExtR)
| CallSpecularHighlight
| SetImages (displacement specular : ImageData.t)
| SetScale (maximumDisplacement : ExtR) (factor : R)
| SetSpecularSlope (slope : R)
| SetBlur (stdDeviation : R).

(** How a method ends: the instance as it leaves it, what it did, and
    whether it returned or threw. *)
Record outcome : Type := mkOutcome {
  final : LiquidGlass;
  effects : list effect;
  completion : result unit
}.

(** The three methods of [this] that [_updateFilter] calls: the record a
    call leaves in the log, made of the arguments the call receives, and
    what the call returns. *)
Definition this_calculateDisplacementMap1D (glassThickness bezelWidth : R)
    (surfaceFn : JsValue) (refractiveIndex : R) (samples : option nat)
    : list effect * result (list R) :=
  ([CallDisplacementMap1D],
   _calculateDisplacementMap1D glassThickness bezelWidth surfaceFn
     refractiveIndex samples).

Definition this_calculateDisplacementMap2D
    (canvasWidth canvasHeight objectWidth objectHeight : nat)
    (radius bezelWidth : R) (maximumDisplacement : ExtR)
    (precomputedMap : list R) : list effect * result ImageData.t :=
  ([CallDisplacementMap2D maximumDisplacement],
   _calculateDisplacementMap2D canvasWidth canvasHeight objectWidth
     objectHeight radius bezelWidth maximumDisplacement precomputedMap).

Definition this_calculateSpecularHighlight (objectWidth objectHeight : nat)
    (radius bezelWidth : R) (specularAngle : option R)
    : list effect * result ImageData.t :=
  ([CallSpecularHighlight],
   _calculateSpecularHighlight objectWidth objectHeight radius bezelWidth
     specularAngle).

Definition _updateFilter (this : LiquidGlass) (updateScale : bool) : outcome :=
  let dimensions := dimensions this in
  let surfaceFn := SurfaceEquations_get (surfaceType (options this)) in
  let (called, precomputed) :=
    this_calculateDisplacementMap1D (glassThickness (options this))
      (bezelWidth (options this)) surfaceFn
      (refractiveIndex (options this)) None in
  match precomputed with
  | Throw e => mkOutcome this called (Throw e)
  | OutOfModel => mkOutcome this called OutOfModel
  | Ok precomputed =>
      let this :=
        with_state this
          (with_maximumDisplacement (state this)
             (Math_max_apply (map Math_abs precomputed))) in
      let (called2D, displacementData) :=
        this_calculateDisplacementMap2D (width dimensions) (height dimensions)
          (width dimensions) (height dimensions)
          (IZR (borderRadius dimensions)) (bezelWidth (options this))
          (ext_or_default (maximumDisplacement (state this)) 1)
          precomputed in
      let called := called ++ called2D in
      match displacementData with
      | Throw e => mkOutcome this called (Throw e)
      | OutOfModel => mkOutcome this called OutOfModel
      | Ok displacementData =>
          let (calledSpecular, specularData) :=
            this_calculateSpecularHighlight (width dimensions) (height dimensions)
              (IZR (borderRadius dimensions)) (bezelWidth (options this))
              None in
          let called := called ++ calledSpecular in
          match specularData with
          | Throw e => mkOutcome this called (Throw e)
          | OutOfModel => mkOutcome this called OutOfModel
          | Ok specularData =>
              mkOutcome this
                (called
                 ++ [SetImages displacementData specularData]
                 ++ (if updateScale
                     then [SetScale (maximumDisplacement (state this))
                             (refractionScale (options this))]
                     else [])
                 ++ [SetSpecularSlope (specularOpacity (options this));
                     SetBlur (blur (options this))])
                (Ok tt)
          end
      end
  end.

Definition setOptions (this : LiquidGlass) (newOptions : NewOptions) : outcome :=
  let this := with_options this (assign_options (options this) newOptions) in
  _updateFilter this true.

(** ** Dragging and the animation loop *)

(** A handle of [requestAnimationFrame] is a non-zero integer the browser
    picks; the methods that may request a frame take it as [frame]. *)
Definition _startAnimationLoop (frame : positive) (this : LiquidGlass) : LiquidGlass :=
  match animationFrameId this with
  | None => if springAnimation (options this)
            then with_animationFrameId this (Some frame) else this
  | Some _ => this
  end.

(** [now] is the value of [performance.now()]. *)
Definition _startDrag (frame : positive) (now clientX clientY : R)
    (this : LiquidGlass) : LiquidGlass :=
  let s := mkState true 0 0 clientX clientY now (maximumDisplacement (state this)) in
  _startAnimationLoop frame (with_state this s).

(** What [getBoundingClientRect()] returns for the parent element. *)
Record DOMRect : Type := mkDOMRect {
  rect_left : R;
  rect_top : R;
  rect_width : R;
  rect_height : R
}.

(** [parentRect] is the rectangle of [this.element.parentElement], [None]
    for an element without a parent, for which [_drag] returns at once.
    The position [_drag] gives the element is left out. *)
Definition _drag (parentRect : option DOMRect) (now clientX clientY : R)
    (this : LiquidGlass) : LiquidGlass :=
  match parentRect with
  | None => this
  | Some _ =>
      let s := state this in
      let dt := Math_max 1 (now - lastTime s) / 1000 in
      with_state this
        (mkState (isDragging s) ((clientX - lastX s) / dt) ((clientY - lastY s) / dt)
           clientX clientY now (maximumDisplacement s))
  end.

Definition _endDrag (frame : positive) (this : LiquidGlass) : LiquidGlass :=
  let s := state this in
  if negb (isDragging s) then this
  else
    let s := mkState false (velocityX s) (velocityY s) (lastX s) (lastY s)
               (lastTime s) (maximumDisplacement s) in
    _startAnimationLoop frame (with_state this s).

(** The targets a tick gives the eight springs. *)
Definition set_targets (s : State) (springs : Springs) : Springs :=
  let springs :=
    if isDragging s then
      let springs := setTarget springs scale 1.0 in
      let springs := setTarget springs shadowOffsetX 4 in
      let springs := setTarget springs shadowOffsetY 16 in
      let springs := setTarget springs shadowBlur 24 in
      let springs := setTarget springs shadowAlpha 0.22 in
      setTarget springs refractionBoost 1.0
    else
      let springs := setTarget springs scale 0.85 in
      let springs := setTarget springs shadowOffsetX 0 in
      let springs := setTarget springs shadowOffsetY 4 in
      let springs := setTarget springs shadowBlur 12 in
      let springs := setTarget springs shadowAlpha 0.15 in
      setTarget springs refractionBoost 0.8 in
  let velocityMagnitude :=
    Math_sqrt (velocityX s * velocityX s + velocityY s * velocityY s) in
  let squishAmount := Math_min 0.15 (velocityMagnitude / 3000) in
  if gtb velocityMagnitude 50 then
    let vxNorm := velocityX s / velocityMagnitude in
    let vyNorm := velocityY s / velocityMagnitude in
    let springs :=
      setTarget springs scaleX
        (1 + squishAmount * Math_abs vxNorm - squishAmount * 0.5 * Math_abs vyNorm) in
    setTarget springs scaleY
      (1 + squishAmount * Math_abs vyNorm - squishAmount * 0.5 * Math_abs vxNorm)
  else
    let springs := setTarget springs scaleX 1 in
    setTarget springs scaleY 1.

(** The styles and the filter scale a tick writes. *)
Record Rendered : Type := mkRendered {
  transform : R * R;
  boxShadow : R * R * R * R;
  displacementScale : ExtR * R
}.

(** [for (var key in this.springs) if (!isSettled) { allSettled = false;
    break }]. *)
Definition springs_settled (springs : Springs) : bool :=
  forallb (fun key => Spring.isSettled (springs key)) spring_keys.

(** One call of [_animationLoop]; [frame] is the handle of the frame it
    requests when it goes on. *)
Definition _animationLoop (frame : positive) (this : LiquidGlass)
    : LiquidGlass * Rendered :=
  let dt := Math_min 0.032 (1 / 60) in
  let springs := set_targets (state this) (springs this) in
  let springs := update_all springs dt in
  let rendered :=
    {| transform :=
         (Spring.value (springs scale) * Spring.value (springs scaleX),
          Spring.value (springs scale) * Spring.value (springs scaleY));
       boxShadow :=
         (Spring.value (springs shadowOffsetX), Spring.value (springs shadowOffsetY),
          Spring.value (springs shadowBlur), Spring.value (springs shadowAlpha));
       displacementScale :=
         (maximumDisplacement (state this),
          refractionScale (options this) * Spring.value (springs refractionBoost)) |} in
  let s := state this in
  let s := if negb (isDragging s)
           then with_velocity s (velocityX s * 0.95) (velocityY s * 0.95)
           else s in
  let allSettled := springs_settled springs in
  let allSettled :=
    allSettled && ltb (Math_abs (velocityX s)) 1 && ltb (Math_abs (velocityY s)) 1 in
  let this := with_springs (with_state this s) springs in
  (with_animationFrameId this (if negb allSettled then Some frame else None),
   rendered).

(** The frames the browser runs: it calls [_animationLoop] for as long as
    the previous call requested a frame. *)
Fixpoint run (frames : list positive) (this : LiquidGlass) : LiquidGlass :=
  match frames with
  | [] => this
  | frame :: frames =>
      match animationFrameId this with
      | None => this
      | Some _ => run frames (fst (_animationLoop frame this))
      end
  end.

(** ** The specification's formulas

    Written from the words of the specification, to be compared with the
    code above. *)

(** The refraction discriminant [k = 1 - eta^2 (1 - dot^2)]. *)
Definition discriminant (eta dot : R) : R := 1 - eta ^ 2 * (1 - dot ^ 2).

(** The one-sided finite difference of step [1e-4] at [x]. *)
Definition tangent_slope (profile : R -> R) (x : R) : R :=
  let h := finite_difference_step x in
  (profile (Math_max 0 (Math_min 1 (x + h))) - profile x) / h.

(** The inward unit normal of a surface of slope [d]. *)
Definition inward_normal (d : R) : R * R :=
  (- d / sqrt (d ^ 2 + 1), - 1 / sqrt (d ^ 2 + 1)).

(** The refracted direction for a normal [n] and ratio [eta]. *)
Definition refracted_direction (eta : R) (n : R * R) : R * R :=
  let c := eta * snd n + sqrt (discriminant eta (snd n)) in
  (- c * fst n, eta - c * snd n).

(** The table entry of sample [i] out of [N]. *)
Definition refraction_entry (profile : R -> R) (refractiveIndex bezelWidth glassThickness : R)
    (N i : nat) : R :=
  let eta := 1 / refractiveIndex in
  let x := INR i / INR N in
  let y := profile x in
  let n := inward_normal (tangent_slope profile x) in
  if Rlt_dec (discriminant eta (snd n)) 0 then 0
  else
    let r := refracted_direction eta n in
    fst r * (y * bezelWidth + glassThickness) / snd r.

(** The mode table. *)
Definition mode_target (dragging : bool) (key : SpringKey) : option R :=
  match key with
  | scale => Some (if dragging then 1.0 else 0.85)
  | shadowOffsetX => Some (if dragging then 4 else 0)
  | shadowOffsetY => Some (if dragging then 16 else 4)
  | shadowBlur => Some (if dragging then 24 else 12)
  | shadowAlpha => Some (if dragging then 0.22 else 0.15)
  | refractionBoost => Some (if dragging then 1.0 else 0.8)
  | scaleX | scaleY => None
  end.

(** The squish rule: the target of [scaleX] for a velocity [(vx, vy)];
    that of [scaleY] is [squish_target vy vx]. *)
Definition squish_target (vx vy : R) : R :=
  let velocityMagnitude := sqrt (vx * vx + vy * vy) in
  let squish := Rmin 0.15 (velocityMagnitude / 3000) in
  if Rlt_dec 50 velocityMagnitude
  then 1 + squish * Rabs (vx / velocityMagnitude)
         - 0.5 * squish * Rabs (vy / velocityMagnitude)
  else 1.

(** The condition under which the loop stops. *)
Definition at_rest (this : LiquidGlass) : Prop :=
  (forall key, Spring.isSettled (springs this key) = true)
  /\ Rabs (velocityX (state this)) < 1
  /\ Rabs (velocityY (state this)) < 1.

(** ** Vocabulary for the rasterizers *)

(** The neutral pixel of a displacement map. *)
Definition neutral : list (option Z) :=
  [Some 128%Z; Some 128%Z; Some 0%Z; Some 255%Z].

(** The pixels [(y1, x1)] of the object in the order the loops visit
    them. *)
Definition pixels (objectWidth objectHeight : nat) : list (nat * nat) :=
  flat_map (fun y1 => map (fun x1 => (y1, x1)) (seq 0 objectWidth))
    (seq 0 objectHeight).

(** Four consecutive bytes stored from index [base] on. *)
Definition store4 (data : list Z) (base : nat) (v : Z * Z * Z * Z) : list Z :=
  let '(a, b, c, e) := v in
  <[(base + 3)%nat := e]>
    (<[(base + 2)%nat := c]> (<[(base + 1)%nat := b]> (<[base := a]> data))).

(** A loop body that stores the bytes [val a] in pixel [pos a], or nothing. *)
Definition stamp {A : Type} (pos : A -> nat) (val : A -> option (Z * Z * Z * Z))
    (data : list Z) (a : A) : list Z :=
  match val a with
  | Some v => store4 data (4 * pos a) v
  | None => data
  end.

(** The object centred in the canvas: the canvas pixels it covers. *)
Definition in_object_region (canvasWidth canvasHeight objectWidth objectHeight : nat)
    (cx cy : nat) : Prop :=
  let objectX := (INR canvasWidth - INR objectWidth) / 2 in
  let objectY := (INR canvasHeight - INR objectHeight) / 2 in
  objectX <= INR cx < objectX + INR objectWidth
  /\ objectY <= INR cy < objectY + INR objectHeight.

(** The corner geometry.  The centres of the four rounded corners, the
    corner references, lie [radius] inside the object along both axes. *)
Definition corner_centres (objectWidth objectHeight : nat) (radius : R)
    : list (R * R) :=
  [(radius, radius); (INR objectWidth - radius, radius);
   (radius, INR objectHeight - radius);
   (INR objectWidth - radius, INR objectHeight - radius)].

(** Along one axis of the object: the coordinate of the corner centres that
    a pixel coordinate [p] lies beyond, on the near or on the far side, and
    [None] for a coordinate between the centres. *)
Definition centre_beyond (size : nat) (radius : R) (p : nat) : option R :=
  if Rlt_dec (INR p) radius then Some radius
  else if Rle_dec (INR size - radius) (INR p) then Some (INR size - radius)
  else None.

(** A pixel near a rounded corner is beyond the centres along both axes; a
    pixel of a flat edge band along one axis only. *)
Definition near_corner (objectWidth objectHeight : nat) (radius : R)
    (x1 y1 : nat) : Prop :=
  centre_beyond objectWidth radius x1 <> None
  /\ centre_beyond objectHeight radius y1 <> None.

Definition on_flat_edge (objectWidth objectHeight : nat) (radius : R)
    (x1 y1 : nat) : Prop :=
  (centre_beyond objectWidth radius x1 = None
   /\ centre_beyond objectHeight radius y1 <> None)
  \/ (centre_beyond objectWidth radius x1 <> None
      /\ centre_beyond objectHeight radius y1 = None).

(** The corner-local offset: along each axis the offset from the corner
    centre the pixel is beyond, and 0 between the centres, so that a pixel
    near a corner gets its offset from that corner's centre and a pixel of
    a flat edge a zero offset along the edge. *)
Definition axis_offset (size : nat) (radius : R) (p : nat) : R :=
  match centre_beyond size radius p with
  | Some c => INR p - c
  | None => 0
  end.

Definition folded_offset (objectWidth objectHeight : nat) (radius : R)
    (x1 y1 : nat) : R * R :=
  (axis_offset objectWidth radius x1, axis_offset objectHeight radius y1).

(** The outward radial unit vector at corner-local offset [(x, y)]. *)
Definition radial_direction (x y : R) : R * R :=
  let distanceFromCenter := sqrt (x * x + y * y) in
  if Rlt_dec 0 distanceFromCenter
  then (x / distanceFromCenter, y / distanceFromCenter)
  else (0, 0).

(** The specular formulas of the specification for a pixel at corner-local
    offset [(x, y)], with the vertical axis pointing up: [sin] is the
    opposite of [y / distance]. *)
Definition outward_direction (x y : R) : R * R :=
  let distanceFromCenter := sqrt (x * x + y * y) in
  if Rlt_dec 0 distanceFromCenter
  then (x / distanceFromCenter, - y / distanceFromCenter)
  else (0, 0).

Definition clamp (v lo hi : R) : R := Rmax lo (Rmin hi v).

(** A displacement along one axis: the looked-up [distance] projected on
    the [component] of the radial direction, inwards, normalized by the
    [divisor], and encoded around 128. *)
Definition encoded_displacement (component distance divisor opacity : R) : R :=
  clamp (128 + - component * distance / divisor * 127 * opacity) 0 255.

Definition anti_alias_opacity (radius x y : R) : R :=
  if Rlt_dec (x * x + y * y) (radius * radius) then 1
  else 1 - (sqrt (x * x + y * y) - sqrt (radius * radius))
           / (sqrt ((radius + 1) * (radius + 1)) - sqrt (radius * radius)).

Definition specular_coefficient (radius : R) (light : R * R) (x y : R) : R :=
  let '(cos, sin) := outward_direction x y in
  let dotProduct := Rabs (cos * fst light + sin * snd light) in
  let edgeRatio := clamp ((radius - sqrt (x * x + y * y)) / 1.5) 0 1 in
  let sharpFalloff := sqrt (1 - (1 - edgeRatio) ^ 2) in
  dotProduct * sharpFalloff.

Definition specular_brightness (radius : R) (light : R * R) (x y : R) : R :=
  Rmin 255 (255 * specular_coefficient radius light x y).

Definition specular_alpha (radius : R) (light : R * R) (x y : R) : R :=
  Rmin 255 (specular_brightness radius light x y
            * specular_coefficient radius light x y
            * anti_alias_opacity radius x y).

(** The light direction the rasterizer uses for an angle argument. *)
Definition light_vector (specularAngle : option R) : R * R :=
  let angle := match specularAngle with
               | Some a => if Req_dec_T a 0 then PI / 3 else a
               | None => PI / 3
               end in
  (cos angle, sin angle).

(** The squared corner-local distance is within the specular band. *)
Definition in_specular_band (radius x y : R) : Prop :=
  Rmax 0 ((radius - 1.5) * (radius - 1.5)) <= x * x + y * y
  <= (radius + 1) * (radius + 1).

(** The squared corner-local distance is within the bezel ring. *)
Definition in_bezel_ring (radius bezelWidth x y : R) : Prop :=
  Rmax 0 ((radius - bezelWidth) * (radius - bezelWidth)) <= x * x + y * y
  <= (radius + 1) * (radius + 1).

(** The bytes the specular loop body stores for the pixel [(y1, x1)], if it
    stores any. *)
Definition specular_bytes (objectWidth objectHeight : nat) (radius : R)
    (specularVector : R * R) (p : nat * nat) : option (Z * Z * Z * Z) :=
  let xy := corner_local objectWidth objectHeight radius (snd p) (fst p) in
  if in_ring radius (Math_max 0 ((radius - 1.5) * (radius - 1.5))) xy then
    let '(color, finalOpacity) := specular_values radius specularVector xy in
    Some (ToUint8Clamp color, ToUint8Clamp color, ToUint8Clamp color,
          ToUint8Clamp finalOpacity)
  else None.

(** The bytes the displacement loop body stores for the pixel [(y1, x1)],
    if it stores any. *)
Definition displacement_bytes (objectWidth objectHeight : nat)
    (radius bezelWidth : R) (maximumDisplacement : ExtR)
    (precomputedMap : list R) (p : nat * nat) : option (Z * Z * Z * Z) :=
  let xy := corner_local objectWidth objectHeight radius (snd p) (fst p) in
  if in_ring radius (Math_max 0 ((radius - bezelWidth) * (radius - bezelWidth))) xy
  then
    let '(red, green) :=
      displacement_values radius bezelWidth maximumDisplacement precomputedMap xy in
    Some (ToUint8Clamp red, ToUint8Clamp green, 0%Z, 255%Z)
  else None.

(** The four names of the profiles. *)
Definition recognized_surfaceTypes : list string :=
  ["convex_circle"; "convex_squircle"; "concave"; "lip"]%string.

(** An option set is turned down before any rasterization when applying
    it throws without having called the solver or a rasterizer. *)
Definition rejected_before_rasterization (out : outcome) : Prop :=
  (exists e, completion out = Throw e)
  /\ ~ In CallDisplacementMap1D (effects out)
  /\ (forall d, ~ In (CallDisplacementMap2D d) (effects out))
  /\ ~ In CallSpecularHighlight (effects out).

(** The ticks of the loop, whether or not a frame was requested. *)
Definition ticks (frames : list positive) (this : LiquidGlass) : LiquidGlass :=
  fold_left (fun this frame => fst (_animationLoop frame this)) frames this.

(** ** Instances used as examples *)

Definition defaultOptions : Options :=
  {| surfaceType := "convex_squircle";
     bezelWidth := 30;
     glassThickness := 150;
     refractiveIndex := 1.5;
     refractionScale := 1.5;
     specularOpacity := 1;
     blur := 0.5;
     springAnimation := true |}.

(** The instance the constructor builds for default options, before
    [_init]. *)
Definition constructed (d : Dimensions) : LiquidGlass :=
  {| options := defaultOptions;
     dimensions := d;
     state := mkState false 0 0 0 0 0 (Finite 0);
     springs := initial_springs 400 25;
     animationFrameId := None |}.

Definition only_surfaceType (name : string) : NewOptions :=
  mkNewOptions (Some name) None None None None None None None.

(** An instance whose glass has no bezel and no thickness. *)
Definition sheet (d : Dimensions) : LiquidGlass :=
  with_options (constructed d)
    (assign_options defaultOptions
       (mkNewOptions None (Some 0) (Some 0) None None None None None)).

(** ** Vocabulary for the further properties *)

(** [n] calls of [update(dt)] on a spring whose target is left alone. *)
Definition updates (dt : R) (n : nat) (s : Spring.t) : Spring.t :=
  Nat.iter n (fun s => Spring.update s dt) s.

(** The energy of a spring for steps of [dt]: a quadratic form in its
    distance to the target and its velocity. *)
Definition spring_energy (dt : R) (s : Spring.t) : R :=
  let e := Spring.target s - Spring.value s in
  let v := Spring.velocity s in
  Spring.stiffness s * e ^ 2
  + (Spring.stiffness s * dt - Spring.damping s) * e * v
  + (1 - Spring.damping s * dt) * v ^ 2.

(** The parameters for which a spring oscillates while it comes to rest
    when stepped by [dt]. *)
Definition underdamped (dt : R) (s : Spring.t) : Prop :=
  0 < Spring.stiffness s
  /\ 0 < Spring.damping s * dt < 1
  /\ (Spring.stiffness s * dt - Spring.damping s) ^ 2
     < 4 * Spring.stiffness s * (1 - Spring.damping s * dt).

(** The pointer has been released and its residual speed is at most 50:
    from then on the squish rule asks for no deformation. *)
Definition coasting (s : State) : Prop :=
  isDragging s = false /\ velocityX s ^ 2 + velocityY s ^ 2 <= 2500.

(** The targets of the eight springs while coasting. *)
Definition idle_target (key : SpringKey) : R :=
  match mode_target false key with
  | Some target => target
  | None => 1
  end.

(** The parent of the examples: 800 by 600 at the origin. *)
Definition viewport : DOMRect := mkDOMRect 0 0 800 600.

(** The gesture of the end-to-end scenario: the pointer goes down at the
    origin at time 0, is 100 px further right 200 ms later, and goes up. *)
Definition flicked (this : LiquidGlass) : LiquidGlass :=
  _endDrag 3 (_drag (Some viewport) 200 100 0 (_startDrag 1 0 0 0 this)).

(** The same gesture without the release: the pointer stays down where
    its last move left it. *)
Definition held (this : LiquidGlass) : LiquidGlass :=
  _drag (Some viewport) 200 100 0 (_startDrag 1 0 0 0 this).

(** A pixel of a fresh [ImageData]: transparent black. *)
Definition transparent : list (option Z) :=
  [Some 0%Z; Some 0%Z; Some 0%Z; Some 0%Z].

(** ** Comparisons *)

Lemma ltb_lt (a b : R) : ltb a b = true <-> a < b.
Proof. unfold ltb. destruct (Rlt_dec a b); split; intros; auto; discriminate. Qed.

Lemma ltb_ge (a b : R) : ltb a b = false <-> b <= a.
Proof.
  unfold ltb. destruct (Rlt_dec a b); split; intros; auto; try discriminate; lra.
Qed.

Lemma leb_le (a b : R) : leb a b = true <-> a <= b.
Proof. unfold leb. destruct (Rle_dec a b); split; intros; auto; discriminate. Qed.

Lemma leb_gt (a b : R) : leb a b = false <-> b < a.
Proof.
  unfold leb. destruct (Rle_dec a b); split; intros; auto; try discriminate; lra.
Qed.

Lemma gtb_lt (a b : R) : gtb a b = true <-> b < a.
Proof. apply ltb_lt. Qed.

Lemma geb_le (a b : R) : geb a b = true <-> b <= a.
Proof. apply leb_le. Qed.

Lemma or_default_nonzero (a d : R) : d <> 0 -> or_default a d <> 0.
Proof. intros Hd. unfold or_default. destruct (Req_dec_T a 0); auto. Qed.

(** ** Surface profiles *)

Lemma Math_pow_0_quarter : Math_pow 0 (1 / 4) = 0.
Proof.
  unfold Math_pow.
  destruct (Req_dec_T (1 / 4) 0); [lra|].
  destruct (Rlt_dec 0 0); [lra|reflexivity].
Qed.

Lemma Math_pow_1_quarter : Math_pow 1 (1 / 4) = 1.
Proof.
  unfold Math_pow.
  destruct (Req_dec_T (1 / 4) 0); [lra|].
  destruct (Rlt_dec 0 1); [|lra].
  unfold Rpower. rewrite ln_1, Rmult_0_r. apply exp_0.
Qed.

Lemma lip_at_0 : SurfaceEquations.lip 0 = 0.
Proof.
  unfold SurfaceEquations.lip, SurfaceEquations.lip_convex,
    SurfaceEquations.lip_concave, SurfaceEquations.lip_smootherstep,
    Math_powi, Math_min.
  rewrite Rmin_left by lra.
  replace (1 - (1 - 0 * 2) ^ 4) with 0 by lra.
  rewrite Math_pow_0_quarter. lra.
Qed.

Lemma lip_at_1 : SurfaceEquations.lip 1 = 0.1.
Proof.
  unfold SurfaceEquations.lip, SurfaceEquations.lip_convex,
    SurfaceEquations.lip_concave, SurfaceEquations.lip_smootherstep,
    Math_powi, Math_min, Math_sqrt.
  rewrite Rmin_right by lra.
  replace (1 - (1 - 1) ^ 4) with 1 by lra.
  replace (1 - (1 - 1) ^ 2) with 1 by lra.
  rewrite Math_pow_1_quarter, sqrt_1. lra.
Qed.

Lemma concave_at_0 : SurfaceEquations.concave 0 = 0.
Proof.
  unfold SurfaceEquations.concave, Math_powi, Math_sqrt.
  replace (1 - 0 ^ 2) with 1 by lra. rewrite sqrt_1. lra.
Qed.

Lemma convex_squircle_at_0 : SurfaceEquations.convex_squircle 0 = 0.
Proof.
  unfold SurfaceEquations.convex_squircle, Math_powi.
  replace (1 - (1 - 0) ^ 4) with 0 by lra. apply Math_pow_0_quarter.
Qed.

Lemma convex_squircle_at_1 : SurfaceEquations.convex_squircle 1 = 1.
Proof.
  unfold SurfaceEquations.convex_squircle, Math_powi.
  replace (1 - (1 - 1) ^ 4) with 1 by lra. apply Math_pow_1_quarter.
Qed.

(** C2, as stated, fails at [x = 1]: there [lip] is [0.1], the value of its
    own concave term, while [convex_squircle] is 1. *)
Lemma lip_1_is_not_convex_squircle_1 :
  ~ (SurfaceEquations.lip 0 = SurfaceEquations.concave 0
     /\ SurfaceEquations.lip 1 = SurfaceEquations.convex_squircle 1).
Proof.
  intros [_ H]. rewrite lip_at_1, convex_squircle_at_1 in H. lra.
Qed.

(** C2, amended: the smootherstep weight is 0 at [x = 0] and 1 at [x = 1],
    so [lip] starts on its convex term and ends on its concave term:
    [lip 0 = 0], which is the value at 0 of both [concave] and
    [convex_squircle], and [lip 1 = 0.1], which is [concave 0 + 0.1] and
    not [convex_squircle 1 = 1]. *)
Theorem lip_endpoints :
  SurfaceEquations.lip_smootherstep 0 = 0
  /\ SurfaceEquations.lip_smootherstep 1 = 1
  /\ SurfaceEquations.lip 0 = SurfaceEquations.lip_convex 0
  /\ SurfaceEquations.lip 1 = SurfaceEquations.lip_concave 1
  /\ SurfaceEquations.lip 0 = SurfaceEquations.concave 0
  /\ SurfaceEquations.lip 0 = SurfaceEquations.convex_squircle 0
  /\ SurfaceEquations.lip 1 = SurfaceEquations.concave 0 + 0.1
  /\ SurfaceEquations.convex_squircle 1 = 1.
Proof.
  assert (S0 : SurfaceEquations.lip_smootherstep 0 = 0)
    by (unfold SurfaceEquations.lip_smootherstep, Math_powi; lra).
  assert (S1 : SurfaceEquations.lip_smootherstep 1 = 1)
    by (unfold SurfaceEquations.lip_smootherstep, Math_powi; lra).
  repeat split; auto.
  - unfold SurfaceEquations.lip. rewrite S0. lra.
  - unfold SurfaceEquations.lip. rewrite S1. lra.
  - rewrite lip_at_0, concave_at_0. reflexivity.
  - rewrite lip_at_0, convex_squircle_at_0. reflexivity.
  - rewrite lip_at_1, concave_at_0. lra.
  - apply convex_squircle_at_1.
Qed.

(** ** The refraction table *)

Lemma push_each_total (body : nat -> result R) (g : nat -> R)
    (indices : list nat) (acc : list R) :
  (forall i, In i indices -> body i = Ok (g i)) ->
  push_each body indices acc = Ok (acc ++ map g indices).
Proof.
  revert acc. induction indices as [|i rest IH]; intros acc Hbody; simpl.
  - now rewrite app_nil_r.
  - rewrite (Hbody i) by now left. simpl.
    rewrite IH by (intros j Hj; apply Hbody; now right).
    now rewrite <- app_assoc.
Qed.

Lemma discriminant_code (eta dot : R) :
  1 - eta * eta * (1 - dot * dot) = discriminant eta dot.
Proof. unfold discriminant. ring. Qed.

Lemma inward_normal_unit (d : R) :
  let nx := fst (inward_normal d) in
  let ny := snd (inward_normal d) in
  nx * nx + ny * ny = 1
  /\ -1 <= ny < 0
  /\ nx = d * ny.
Proof.
  cbv zeta. unfold inward_normal. cbn [fst snd].
  assert (P : 0 < d ^ 2 + 1) by nra.
  assert (M : sqrt (d ^ 2 + 1) * sqrt (d ^ 2 + 1) = d ^ 2 + 1)
    by (apply sqrt_sqrt; lra).
  assert (M1 : 1 <= sqrt (d ^ 2 + 1)).
  { rewrite <- sqrt_1 at 1. apply sqrt_le_1_alt. nra. }
  set (m := sqrt (d ^ 2 + 1)) in *.
  assert (I : / m * m = 1) by (apply Rinv_l; lra).
  assert (I0 : 0 < / m <= 1).
  { split; [apply Rinv_0_lt_compat; lra|].
    rewrite <- Rinv_1. apply Rinv_le_contravar; lra. }
  unfold Rdiv. repeat split.
  - transitivity ((d ^ 2 + 1) * (/ m * / m)); [ring|].
    rewrite <- M. transitivity ((/ m * m) * (/ m * m)); [ring|].
    rewrite I. ring.
  - lra.
  - lra.
  - ring.
Qed.

Lemma refracted_vertical_positive (eta d : R) :
  0 < eta ->
  0 <= discriminant eta (snd (inward_normal d)) ->
  0 < snd (refracted_direction eta (inward_normal d)).
Proof.
  intros Heta K.
  destruct (inward_normal_unit d) as (_ & [Hny1 Hny0] & _).
  unfold refracted_direction. cbv zeta. cbn [snd].
  set (ny := snd (inward_normal d)) in *.
  pose proof (sqrt_pos (discriminant eta ny)) as S0.
  pose proof (sqrt_sqrt _ K) as SS.
  set (s := sqrt (discriminant eta ny)) in *.
  unfold discriminant in SS.
  assert (U : 0 <= 1 - ny * ny) by nra.
  assert (A : 0 <= eta * (1 - ny * ny)) by (apply Rmult_le_pos; lra).
  replace (eta - (eta * ny + s) * ny) with (eta * (1 - ny * ny) + s * - ny) by ring.
  destruct (Rle_lt_or_eq_dec 0 s S0) as [Hs|Hs].
  - assert (B : 0 < s * - ny) by (apply Rmult_lt_0_compat; lra). lra.
  - rewrite <- Hs in *.
    assert (U' : 0 < 1 - ny * ny) by nra.
    assert (A' : 0 < eta * (1 - ny * ny)) by (apply Rmult_lt_0_compat; lra).
    lra.
Qed.

Lemma sample_function (glassThickness bezelWidth refractiveIndex : R)
    (f : R -> R) (N i : nat) :
  0 < refractiveIndex ->
  sample glassThickness bezelWidth (JsFunction f) (1 / refractiveIndex) N i
  = Ok (refraction_entry f refractiveIndex bezelWidth glassThickness N i).
Proof.
  intros Hn.
  assert (Heta : 0 < 1 / refractiveIndex).
  { unfold Rdiv. rewrite Rmult_1_l. now apply Rinv_0_lt_compat. }
  unfold sample, refraction_entry, refract, call, bind.
  cbv zeta. cbn [fst snd].
  fold (tangent_slope f (INR i / INR N)).
  set (d := tangent_slope f (INR i / INR N)).
  pose proof (refracted_vertical_positive (1 / refractiveIndex) d Heta) as Hry.
  unfold Math_sqrt, inward_normal, refracted_direction in *. cbn [fst snd] in *.
  replace (d * d + 1) with (d ^ 2 + 1) by ring.
  rewrite discriminant_code.
  unfold ltb.
  destruct (Rlt_dec (discriminant (1 / refractiveIndex) (- 1 / sqrt (d ^ 2 + 1))) 0).
  - reflexivity.
  - cbn [fst snd].
    destruct (Req_dec_T _ 0) as [E|_]; [rewrite E in Hry; lra|].
    f_equal. unfold Rdiv. ring.
Qed.

Lemma calculateDisplacementMap1D_function (glassThickness bezelWidth refractiveIndex : R)
    (f : R -> R) (samples : option nat) :
  0 < refractiveIndex -> refractiveIndex <> 1 ->
  _calculateDisplacementMap1D glassThickness bezelWidth (JsFunction f)
    refractiveIndex samples
  = Ok (map (refraction_entry f refractiveIndex bezelWidth glassThickness
               (samples_or_default samples))
          (seq 0 (samples_or_default samples))).
Proof.
  intros Hn H1. unfold _calculateDisplacementMap1D. cbv zeta.
  rewrite (push_each_total _
             (refraction_entry f refractiveIndex bezelWidth glassThickness
                (samples_or_default samples)))
    by (intros i _; now apply sample_function).
  destruct (Req_dec_T refractiveIndex 0); [lra|].
  destruct (Req_dec_T refractiveIndex 1); [contradiction|reflexivity].
Qed.

Lemma refraction_entry_ext (f f' : R -> R) (n b g : R) (N i : nat) :
  (forall x, f x = f' x) ->
  refraction_entry f n b g N i = refraction_entry f' n b g N i.
Proof.
  intros E. unfold refraction_entry, tangent_slope. now rewrite !E.
Qed.

(** C3: the claim fails on the UMD build at a sample count of 0, by the
    slip [samples = samples || 128]: the count 0 is taken for an omitted
    one and the table has 128 entries, not 0.  The ES-module build, whose
    [samples = 128] is a default parameter, returns the empty table the
    claim asks for. *)
Theorem zero_samples_give_128_entries :
  (exists table,
     _calculateDisplacementMap1D 150 30
       (JsFunction SurfaceEquations.convex_squircle) 1.5 (Some 0%nat) = Ok table
     /\ length table = 128%nat
     /\ length table <> 0%nat)
  /\ ESModule._calculateDisplacementMap1D 150 30
       (JsFunction SurfaceEquations.convex_squircle) 1.5 (Some 0%nat) = Ok [].
Proof.
  split.
  - eexists. split; [apply calculateDisplacementMap1D_function; lra|].
    rewrite length_map, length_seq. simpl. split; [reflexivity|discriminate].
  - unfold ESModule._calculateDisplacementMap1D. cbn [seq push_each].
    destruct (Req_dec_T 1.5 0); [lra|].
    destruct (Req_dec_T 1.5 1); [lra|reflexivity].
Qed.

(** For a sample count of at least 1 the UMD build does what C3 says: for
    every profile function, positive refractive index other than 1, bezel
    width, glass thickness and sample count [N >= 1], the solver returns a
    table of exactly [N] entries; entry [i], with [x = i/N] and [y =
    profile x], is 0 when the discriminant [k = 1 - eta^2 (1 - dot^2)],
    [eta = 1 / refractiveIndex], is negative, and [refractedX * (y *
    bezelWidth + glassThickness) / refractedY] otherwise, where
    [refractedY] is positive; and the table depends on the profile only
    through its values. *)
Theorem refraction_table_entries (profile : R -> R)
    (refractiveIndex bezelWidth glassThickness : R) (N : nat) :
  (1 <= N)%nat -> 0 < refractiveIndex -> refractiveIndex <> 1 ->
  exists table,
    _calculateDisplacementMap1D glassThickness bezelWidth (JsFunction profile)
      refractiveIndex (Some N) = Ok table
    /\ length table = N
    /\ (forall i, (i < N)%nat ->
          let eta := 1 / refractiveIndex in
          let x := INR i / INR N in
          let y := profile x in
          let n := inward_normal (tangent_slope profile x) in
          nth i table 0
          = (if Rlt_dec (discriminant eta (snd n)) 0 then 0
             else fst (refracted_direction eta n)
                  * (y * bezelWidth + glassThickness)
                  / snd (refracted_direction eta n))
          /\ (0 <= discriminant eta (snd n) ->
                0 < snd (refracted_direction eta n)))
    /\ (forall profile', (forall x, profile' x = profile x) ->
          _calculateDisplacementMap1D glassThickness bezelWidth
            (JsFunction profile') refractiveIndex (Some N) = Ok table).
Proof.
  intros HN Hn H1.
  assert (E : samples_or_default (Some N) = N) by (destruct N; [lia|reflexivity]).
  eexists. split; [now apply calculateDisplacementMap1D_function|]. rewrite E.
  split; [|split].
  - now rewrite length_map, length_seq.
  - intros i Hi. cbv zeta. split.
    + rewrite (nth_indep _ 0
                 (refraction_entry profile refractiveIndex bezelWidth glassThickness N 0))
        by now rewrite length_map, length_seq.
      rewrite (map_nth (refraction_entry profile refractiveIndex bezelWidth glassThickness N)).
      rewrite seq_nth by assumption. reflexivity.
    + apply refracted_vertical_positive.
      unfold Rdiv. rewrite Rmult_1_l. now apply Rinv_0_lt_compat.
  - intros profile' Hext.
    rewrite calculateDisplacementMap1D_function, E by assumption.
    f_equal. apply map_ext. intros i. now apply refraction_entry_ext.
Qed.

Lemma refraction_table_entries_witness :
  exists table,
    _calculateDisplacementMap1D 150 30 (JsFunction SurfaceEquations.convex_squircle)
      1.5 (Some 128%nat) = Ok table
    /\ length table = 128%nat.
Proof.
  destruct (refraction_table_entries SurfaceEquations.convex_squircle 1.5 30 150 128)
    as (table & H1 & H2 & _); [lia|lra|lra|].
  exists table. split; assumption.
Defined.

(** C10: in the solver, for [N >= 1] and [i < N], the coordinate [x = i/N]
    is below 1, so the finite-difference step is [+1e-4], never the
    negative step of the branch [x >= 1], and the perturbed coordinate
    [clamp (x + 1e-4) 0 1] stays in [0, 1]. *)
Theorem sample_coordinate_below_one (N i : nat) :
  (1 <= N)%nat -> (i < N)%nat ->
  let x := INR i / INR N in
  0 <= x < 1
  /\ finite_difference_step x = 0.0001
  /\ finite_difference_step x <> -0.0001
  /\ Math_max 0 (Math_min 1 (x + finite_difference_step x))
     = Math_max 0 (Math_min 1 (x + 0.0001))
  /\ 0 <= Math_max 0 (Math_min 1 (x + finite_difference_step x)) <= 1.
Proof.
  intros HN Hi x.
  assert (HNpos : 0 < INR N) by (apply lt_0_INR; lia).
  assert (Hi0 : 0 <= INR i) by apply pos_INR.
  assert (HiN : INR i < INR N) by now apply lt_INR.
  assert (Hx : 0 <= x < 1).
  { unfold x. split.
    - apply Rmult_le_pos; [assumption|]. left. now apply Rinv_0_lt_compat.
    - apply (Rmult_lt_reg_r (INR N)); [assumption|].
      unfold Rdiv. rewrite Rmult_assoc, Rinv_l by lra. lra. }
  assert (Hstep : finite_difference_step x = 0.0001).
  { unfold finite_difference_step. now rewrite (proj2 (ltb_lt x 1)) by apply Hx. }
  rewrite Hstep. repeat split; try lra.
  - unfold Math_max. apply Rmax_l.
  - unfold Math_max, Math_min. apply Rmax_lub; [lra|apply Rmin_l].
Qed.

Lemma sample_coordinate_below_one_witness :
  finite_difference_step (INR 127 / INR 128) = 0.0001.
Proof.
  apply (sample_coordinate_below_one 128 127); lia.
Defined.

(** ** Springs *)

(** C7: one [update(dt)] computes [force = stiffness * (target - value) -
    damping * velocity], then [velocity' = velocity + force * dt], then
    [value' = value + velocity' * dt], and leaves target, stiffness and
    damping alone; [isSettled] holds exactly when [|target - value| < 1e-3]
    and [|velocity| < 1e-3]; an update with [dt = 0] changes neither value
    nor velocity. *)
Theorem spring_update_semi_implicit_euler (s : Spring.t) (dt : R) :
  let force :=
    Spring.stiffness s * (Spring.target s - Spring.value s)
    - Spring.damping s * Spring.velocity s in
  Spring.velocity (Spring.update s dt) = Spring.velocity s + force * dt
  /\ Spring.value (Spring.update s dt)
     = Spring.value s + Spring.velocity (Spring.update s dt) * dt
  /\ Spring.target (Spring.update s dt) = Spring.target s
  /\ Spring.stiffness (Spring.update s dt) = Spring.stiffness s
  /\ Spring.damping (Spring.update s dt) = Spring.damping s
  /\ (Spring.isSettled s = true
      <-> Rabs (Spring.target s - Spring.value s) < 1e-3
          /\ Rabs (Spring.velocity s) < 1e-3)
  /\ Spring.update s 0 = s.
Proof.
  cbv zeta. repeat split; try reflexivity.
  - unfold Spring.update. cbn [Spring.velocity]. ring.
  - unfold Spring.isSettled in H. apply andb_prop in H. now apply ltb_lt.
  - unfold Spring.isSettled in H. apply andb_prop in H. now apply ltb_lt.
  - intros [H1 H2]. unfold Spring.isSettled.
    apply andb_true_intro. split; now apply ltb_lt.
  - destruct s as [v t w k c]. unfold Spring.update. cbn.
    f_equal; ring.
Qed.

(** ** The animation loop *)

Lemma setTarget_same (sp : Springs) (key : SpringKey) (v : R) :
  Spring.target (setTarget sp key v key) = v.
Proof. unfold setTarget. destruct key; reflexivity. Qed.

Lemma setTarget_other (sp : Springs) (key key' : SpringKey) (v : R) :
  SpringKey_eqb key key' = false -> setTarget sp key v key' = sp key'.
Proof. unfold setTarget. now intros ->. Qed.

Lemma update_all_target (sp : Springs) (dt : R) (key : SpringKey) :
  Spring.target (update_all sp dt key) = Spring.target (sp key).
Proof. reflexivity. Qed.

Lemma set_targets_mode (s : State) (sp : Springs) (key : SpringKey) (v : R) :
  mode_target (isDragging s) key = Some v ->
  Spring.target (set_targets s sp key) = v.
Proof.
  intros H. unfold set_targets.
  destruct (gtb _ 50);
    (rewrite !setTarget_other with (key := scaleY) by (destruct key; try reflexivity; discriminate);
     rewrite !setTarget_other with (key := scaleX) by (destruct key; try reflexivity; discriminate);
     destruct (isDragging s), key; cbn in H; try discriminate;
     injection H as <-;
     repeat first [ apply setTarget_same
                  | rewrite setTarget_other by reflexivity ]).
Qed.

Lemma set_targets_scaleX (s : State) (sp : Springs) :
  Spring.target (set_targets s sp scaleX)
  = squish_target (velocityX s) (velocityY s).
Proof.
  unfold set_targets, squish_target, gtb, ltb, Math_sqrt, Math_min, Math_abs.
  destruct (Rlt_dec 50 _).
  - rewrite setTarget_other by reflexivity. rewrite setTarget_same. ring.
  - rewrite setTarget_other by reflexivity. now rewrite setTarget_same.
Qed.

Lemma set_targets_scaleY (s : State) (sp : Springs) :
  Spring.target (set_targets s sp scaleY)
  = squish_target (velocityY s) (velocityX s).
Proof.
  unfold set_targets, squish_target, gtb, ltb, Math_sqrt, Math_min, Math_abs.
  replace (velocityY s * velocityY s + velocityX s * velocityX s)
    with (velocityX s * velocityX s + velocityY s * velocityY s) by ring.
  destruct (Rlt_dec 50 _).
  - rewrite setTarget_same. ring.
  - now rewrite setTarget_same.
Qed.

(** C8: every tick sets the six mode-driven targets to the entries of the
    mode table for the current mode (dragging: 1.0, 4, 16, 24, 0.22, 1.0;
    idle: 0.85, 0, 4, 12, 0.15, 0.8) and the targets of [scaleX] and
    [scaleY] by the squish rule: with [squish = min 0.15 (|v| / 3000)], the
    target of [scaleX] is [1 + squish * |vx/|v|| - 0.5 * squish * |vy/|v||]
    when [|v| > 50], symmetrically for [scaleY], and 1 otherwise. *)
Theorem tick_sets_targets (frame : positive) (this : LiquidGlass) :
  let next := fst (_animationLoop frame this) in
  let dragging := isDragging (state this) in
  let vx := velocityX (state this) in
  let vy := velocityY (state this) in
  Spring.target (springs next scale) = (if dragging then 1.0 else 0.85)
  /\ Spring.target (springs next shadowOffsetX) = (if dragging then 4 else 0)
  /\ Spring.target (springs next shadowOffsetY) = (if dragging then 16 else 4)
  /\ Spring.target (springs next shadowBlur) = (if dragging then 24 else 12)
  /\ Spring.target (springs next shadowAlpha) = (if dragging then 0.22 else 0.15)
  /\ Spring.target (springs next refractionBoost) = (if dragging then 1.0 else 0.8)
  /\ Spring.target (springs next scaleX) = squish_target vx vy
  /\ Spring.target (springs next scaleY) = squish_target vy vx.
Proof.
  cbv zeta. unfold _animationLoop. cbn [fst springs with_animationFrameId with_springs].
  rewrite !update_all_target.
  repeat split;
    first [ now apply set_targets_mode
          | apply set_targets_scaleX
          | apply set_targets_scaleY ].
Qed.

Lemma springs_settled_all (sp : Springs) :
  springs_settled sp = true <-> forall key, Spring.isSettled (sp key) = true.
Proof.
  unfold springs_settled. rewrite forallb_forall. split.
  - intros H key. apply H. destruct key; cbn; tauto.
  - intros H key _. apply H.
Qed.

Lemma tick_velocity (frame : positive) (this : LiquidGlass) :
  let next := fst (_animationLoop frame this) in
  velocityX (state next)
  = (if isDragging (state this) then velocityX (state this)
     else velocityX (state this) * 0.95)
  /\ velocityY (state next)
     = (if isDragging (state this) then velocityY (state this)
        else velocityY (state this) * 0.95)
  /\ isDragging (state next) = isDragging (state this).
Proof.
  cbv zeta. unfold _animationLoop. cbn [fst state with_animationFrameId with_springs with_state].
  destruct (isDragging (state this)) eqn:D; cbn; rewrite ?D; auto.
Qed.

Lemma at_rest_bool (sp : Springs) (s : State) :
  springs_settled sp && ltb (Math_abs (velocityX s)) 1
    && ltb (Math_abs (velocityY s)) 1 = true
  <-> (forall key, Spring.isSettled (sp key) = true)
      /\ Rabs (velocityX s) < 1 /\ Rabs (velocityY s) < 1.
Proof.
  rewrite !andb_true_iff, springs_settled_all, !ltb_lt. unfold Math_abs. tauto.
Qed.

Lemma tick_stops_iff (frame : positive) (this : LiquidGlass) :
  let next := fst (_animationLoop frame this) in
  (animationFrameId next = None <-> at_rest next)
  /\ (animationFrameId next = Some frame <-> ~ at_rest next).
Proof.
  cbv zeta. unfold _animationLoop, at_rest.
  cbn [fst state springs animationFrameId with_animationFrameId with_springs with_state].
  set (sp := update_all _ _).
  set (s := if negb (isDragging (state this)) then _ else _).
  pose proof (at_rest_bool sp s) as B.
  destruct (springs_settled sp && ltb (Math_abs (velocityX s)) 1
            && ltb (Math_abs (velocityY s)) 1); cbn [negb].
  - assert (A := proj1 B eq_refl). split; split; intros; try tauto; discriminate.
  - assert (A : ~ ((forall key, Spring.isSettled (sp key) = true)
                   /\ Rabs (velocityX s) < 1 /\ Rabs (velocityY s) < 1)).
    { intros H. apply B in H. discriminate. }
    split; split; intros; try tauto; try discriminate.
Qed.

Lemma run_idle (frames : list positive) (this : LiquidGlass) :
  animationFrameId this = None -> run frames this = this.
Proof. intros H. destruct frames; cbn; [reflexivity|now rewrite H]. Qed.

Lemma run_step (frame : positive) (frames : list positive) (this : LiquidGlass) :
  animationFrameId this <> None ->
  run (frame :: frames) this = run frames (fst (_animationLoop frame this)).
Proof. intros H. cbn. destruct (animationFrameId this); congruence. Qed.

Lemma ticks_snoc (frames : list positive) (frame : positive) (this : LiquidGlass) :
  ticks (frames ++ [frame]) this = fst (_animationLoop frame (ticks frames this)).
Proof. unfold ticks. now rewrite fold_left_app. Qed.

Lemma run_while_not_at_rest (frames : list positive) (this : LiquidGlass) :
  animationFrameId this <> None ->
  (forall k, (1 <= k <= length frames)%nat -> ~ at_rest (ticks (take k frames) this)) ->
  run frames this = ticks frames this
  /\ animationFrameId (run frames this) <> None.
Proof.
  revert this. induction frames as [|frame frames IH]; intros this Hrun Hnot.
  - cbn. auto.
  - rewrite run_step by assumption.
    assert (H1 : ~ at_rest (fst (_animationLoop frame this))).
    { apply (Hnot 1%nat). cbn. lia. }
    destruct (IH (fst (_animationLoop frame this))) as [E N].
    + apply (tick_stops_iff frame this) in H1. congruence.
    + intros k Hk. apply (Hnot (S k)). cbn. lia.
    + split; [exact E|exact N].
Qed.

(** C9: a tick that runs while the user is not dragging multiplies both
    residual velocity components by 0.95 (and leaves them alone during a
    drag); at its end the loop requests no further frame exactly when all
    eight springs are settled and [|velocityX| < 1] and [|velocityY| < 1],
    and requests one otherwise; so a running loop goes on for as long as
    no tick ends at rest, and stops at the first tick that does. *)
Theorem loop_runs_until_at_rest (frame : positive) (frames : list positive)
    (this : LiquidGlass) :
  let next := fst (_animationLoop frame this) in
  (velocityX (state next)
   = if isDragging (state this) then velocityX (state this)
     else velocityX (state this) * 0.95)
  /\ (velocityY (state next)
      = if isDragging (state this) then velocityY (state this)
        else velocityY (state this) * 0.95)
  /\ (animationFrameId next = None <-> at_rest next)
  /\ (animationFrameId next = Some frame <-> ~ at_rest next)
  /\ (animationFrameId this <> None -> at_rest next ->
        run (frame :: frames) this = next
        /\ animationFrameId (run (frame :: frames) this) = None)
  /\ (animationFrameId this <> None ->
        (forall k, (1 <= k <= length (frame :: frames))%nat ->
           ~ at_rest (ticks (take k (frame :: frames)) this)) ->
        run (frame :: frames) this = ticks (frame :: frames) this
        /\ animationFrameId (run (frame :: frames) this) <> None).
Proof.
  cbv zeta.
  destruct (tick_velocity frame this) as (VX & VY & _).
  destruct (tick_stops_iff frame this) as (S1 & S2).
  split; [exact VX|]. split; [exact VY|].
  split; [exact S1|]. split; [exact S2|]. split.
  - intros Hrun Hrest. rewrite run_step by assumption.
    apply S1 in Hrest. rewrite run_idle by assumption. auto.
  - intros Hrun Hnot. now apply run_while_not_at_rest.
Qed.

(** ** The largest displacement and the divisor *)

Lemma fold_ext_max_finite (l : list R) (a : R) :
  fold_left ext_max l (Finite a) = Finite (fold_left Rmax l a).
Proof. revert a. induction l as [|x l IH]; intros a; cbn; [reflexivity|apply IH]. Qed.

Lemma fold_Rmax_ge (l : list R) (a : R) :
  a <= fold_left Rmax l a /\ Forall (fun v => v <= fold_left Rmax l a) l.
Proof.
  revert a. induction l as [|x l IH]; intros a; cbn.
  - split; [lra|constructor].
  - destruct (IH (Rmax a x)) as [H1 H2].
    pose proof (Rmax_l a x). pose proof (Rmax_r a x).
    split; [lra|]. constructor; [lra|assumption].
Qed.

Lemma fold_Rmax_attained (l : list R) (a : R) :
  fold_left Rmax l a = a \/ In (fold_left Rmax l a) l.
Proof.
  revert a. induction l as [|x l IH]; intros a; cbn; [now left|].
  destruct (IH (Rmax a x)) as [E|E]; [|now right; right].
  rewrite E. unfold Rmax. destruct (Rle_dec a x); [right; now left|now left].
Qed.

Lemma Math_max_apply_abs (e : R) (es : list R) :
  exists m,
    Math_max_apply (map Math_abs (e :: es)) = Finite m
    /\ 0 <= m
    /\ Forall (fun v => Rabs v <= m) (e :: es)
    /\ Exists (fun v => Rabs v = m) (e :: es).
Proof.
  exists (fold_left Rmax (map Rabs es) (Rabs e)).
  destruct (fold_Rmax_ge (map Rabs es) (Rabs e)) as [G1 G2].
  split; [|split; [|split]].
  - unfold Math_max_apply. cbn. apply fold_ext_max_finite.
  - pose proof (Rabs_pos e). lra.
  - constructor; [exact G1|].
    rewrite List.Forall_forall in G2. rewrite List.Forall_forall. intros v Hv.
    apply G2. now apply in_map.
  - destruct (fold_Rmax_attained (map Rabs es) (Rabs e)) as [E|E].
    + apply Exists_cons_hd. now rewrite E.
    + apply Exists_cons_tl. apply in_map_iff in E. destruct E as (v & E & Hv).
      apply List.Exists_exists. exists v. split; assumption.
Qed.

Lemma samples_or_default_succ (samples : option nat) :
  exists k, samples_or_default samples = S k.
Proof. destruct samples as [[|k]|]; cbn; eauto. Qed.

Lemma Math_max_apply_zeros (e : R) (es : list R) :
  Forall (fun v => v = 0) (e :: es) ->
  Math_max_apply (map Math_abs (e :: es)) = Finite 0.
Proof.
  intros F. destruct (Math_max_apply_abs e es) as (m & Hm & _ & _ & Hex).
  rewrite Hm. f_equal.
  apply List.Exists_exists in Hex. destruct Hex as (v & Hv & <-).
  rewrite List.Forall_forall in F. rewrite (F v Hv). apply Rabs_R0.
Qed.

Lemma push_each_length (body : nat -> result R) (indices : list nat)
    (acc table : list R) :
  push_each body indices acc = Ok table ->
  length table = (length acc + length indices)%nat.
Proof.
  revert acc. induction indices as [|i rest IH]; intros acc H; cbn in H.
  - injection H as <-. cbn. lia.
  - destruct (body i); cbn in H; try discriminate.
    apply IH in H. rewrite length_app in H. cbn in *. lia.
Qed.

Lemma push_each_ext (body body' : nat -> result R) (indices : list nat)
    (acc : list R) :
  (forall i, body i = body' i) ->
  push_each body indices acc = push_each body' indices acc.
Proof.
  intros E. revert acc. induction indices as [|i rest IH]; intros acc; cbn;
    [reflexivity|].
  rewrite E. destruct (body' i); cbn; [apply IH|reflexivity|reflexivity].
Qed.

Lemma calculateDisplacementMap1D_Ok (g b : R) (surfaceFn : JsValue) (n : R)
    (samples : option nat) (table : list R) :
  _calculateDisplacementMap1D g b surfaceFn n samples = Ok table ->
  push_each (sample g b surfaceFn (1 / n) (samples_or_default samples))
    (seq 0 (samples_or_default samples)) [] = Ok table
  /\ n <> 0 /\ n <> 1.
Proof.
  unfold _calculateDisplacementMap1D. cbv zeta.
  destruct (push_each _ _ _) as [t| |]; try discriminate.
  destruct (Req_dec_T n 0); [discriminate|].
  destruct (Req_dec_T n 1); [discriminate|].
  intros E. injection E as ->. auto.
Qed.

Lemma default_table_nonempty (g b : R) (surfaceFn : JsValue) (n : R) (table : list R) :
  _calculateDisplacementMap1D g b surfaceFn n None = Ok table ->
  length table = 128%nat.
Proof.
  intros H. apply calculateDisplacementMap1D_Ok in H. destruct H as [H _].
  apply push_each_length in H. now rewrite length_seq in H.
Qed.

Lemma ImageData_new_ok (sw sh : nat) :
  (0 < sw)%nat -> (0 < sh)%nat ->
  ImageData.new sw sh = Ok (ImageData.mk sw sh (replicate (4 * sw * sh) 0%Z)).
Proof.
  intros Hw Hh. unfold ImageData.new.
  destruct sw; [lia|]. destruct sh; [lia|]. reflexivity.
Qed.

Lemma calculateDisplacementMap2D_ok (cw ch ow oh : nat) (radius b : R)
    (m : ExtR) (table : list R) :
  (0 < cw)%nat -> (0 < ch)%nat ->
  exists img, _calculateDisplacementMap2D cw ch ow oh radius b m table = Ok img
              /\ ImageData.width img = cw /\ ImageData.height img = ch.
Proof.
  intros Hw Hh. unfold _calculateDisplacementMap2D.
  rewrite ImageData_new_ok by assumption. cbn [bind]. eexists. repeat split.
Qed.

Lemma calculateSpecularHighlight_ok (ow oh : nat) (radius b : R) (angle : option R) :
  (0 < ow)%nat -> (0 < oh)%nat ->
  exists img, _calculateSpecularHighlight ow oh radius b angle = Ok img
              /\ ImageData.width img = ow /\ ImageData.height img = oh.
Proof.
  intros Hw Hh. unfold _calculateSpecularHighlight.
  rewrite ImageData_new_ok by assumption. cbn [bind]. eexists. repeat split.
Qed.

Lemma rasterizers_reject_empty_image (w h : nat) :
  w = 0%nat \/ h = 0%nat -> ImageData.new w h = Throw IndexSizeError.
Proof.
  intros [-> | ->]; unfold ImageData.new; [reflexivity|].
  destruct w; reflexivity.
Qed.

(** [_updateFilter] on an element with positive sides, once the solver has
    returned its table: what it stores, calls and writes. *)
Lemma updateFilter_run (this : LiquidGlass) (updateScale : bool)
    (table : list R) :
  _calculateDisplacementMap1D (glassThickness (options this))
    (bezelWidth (options this))
    (SurfaceEquations_get (surfaceType (options this)))
    (refractiveIndex (options this)) None = Ok table ->
  (0 < width (dimensions this))%nat -> (0 < height (dimensions this))%nat ->
  let d := dimensions this in
  let m := Math_max_apply (map Math_abs table) in
  exists displacement specular,
    _calculateDisplacementMap2D (width d) (height d) (width d) (height d)
      (IZR (borderRadius d)) (bezelWidth (options this)) (ext_or_default m 1)
      table = Ok displacement
    /\ _calculateSpecularHighlight (width d) (height d) (IZR (borderRadius d))
         (bezelWidth (options this)) None = Ok specular
    /\ _updateFilter this updateScale
       = mkOutcome
           (with_state this (with_maximumDisplacement (state this) m))
           ([CallDisplacementMap1D; CallDisplacementMap2D (ext_or_default m 1);
             CallSpecularHighlight; SetImages displacement specular]
            ++ (if updateScale
                then [SetScale m (refractionScale (options this))] else [])
            ++ [SetSpecularSlope (specularOpacity (options this));
                SetBlur (blur (options this))])
           (Ok tt).
Proof.
  intros Htable Hw Hh. cbv zeta.
  destruct (calculateDisplacementMap2D_ok
              (width (dimensions this)) (height (dimensions this))
              (width (dimensions this)) (height (dimensions this))
              (IZR (borderRadius (dimensions this))) (bezelWidth (options this))
              (ext_or_default (Math_max_apply (map Math_abs table)) 1) table Hw Hh)
    as (img & E2 & _).
  destruct (calculateSpecularHighlight_ok
              (width (dimensions this)) (height (dimensions this))
              (IZR (borderRadius (dimensions this))) (bezelWidth (options this))
              None Hw Hh) as (spec & E3 & _).
  exists img, spec. split; [exact E2|]. split; [exact E3|].
  unfold _updateFilter, this_calculateDisplacementMap1D,
    this_calculateDisplacementMap2D, this_calculateSpecularHighlight.
  rewrite Htable. cbv zeta.
  cbn [state with_state maximumDisplacement with_maximumDisplacement options
       dimensions].
  rewrite E2, E3. reflexivity.
Qed.

(** The same on an element with an empty side. *)
Lemma updateFilter_empty (this : LiquidGlass) (updateScale : bool)
    (table : list R) :
  _calculateDisplacementMap1D (glassThickness (options this))
    (bezelWidth (options this))
    (SurfaceEquations_get (surfaceType (options this)))
    (refractiveIndex (options this)) None = Ok table ->
  width (dimensions this) = 0%nat \/ height (dimensions this) = 0%nat ->
  let m := Math_max_apply (map Math_abs table) in
  _updateFilter this updateScale
  = mkOutcome
      (with_state this (with_maximumDisplacement (state this) m))
      [CallDisplacementMap1D; CallDisplacementMap2D (ext_or_default m 1)]
      (Throw IndexSizeError).
Proof.
  intros Htable Hempty. cbv zeta.
  unfold _updateFilter, this_calculateDisplacementMap1D,
    this_calculateDisplacementMap2D, _calculateDisplacementMap2D.
  rewrite Htable. cbv zeta.
  cbn [state with_state maximumDisplacement with_maximumDisplacement options
       dimensions].
  rewrite rasterizers_reject_empty_image by exact Hempty. reflexivity.
Qed.

Lemma table_entry_cases (table : list R) (bezelRatio : R) :
  table_entry table bezelRatio = 0 \/ In (table_entry table bezelRatio) table.
Proof.
  unfold table_entry. cbv zeta.
  destruct (table !! _) as [v|] eqn:L; [|now left].
  unfold or_default. destruct (Req_dec_T v 0); [now left|right].
  apply list_elem_of_In. eapply list_elem_of_lookup_2. exact L.
Qed.

Lemma bezel_distance_cases (radius b : R) (table : list R) (d : R) :
  bezel_distance radius b table d = 0
  \/ In (bezel_distance radius b table d) table.
Proof.
  unfold bezel_distance. cbv zeta.
  destruct (Req_dec_T b 0); [destruct (ltb 0 _); [|destruct (ltb _ 0)]|];
    first [apply table_entry_cases | now left].
Qed.

Lemma displacement_values_spec (radius b d : R) (table : list R) (x y : R) :
  0 < d ->
  let distance := bezel_distance radius b table (sqrt (x * x + y * y)) in
  let opacity := anti_alias_opacity radius x y in
  displacement_values radius b (Finite d) table (x, y)
  = (encoded_displacement (fst (radial_direction x y)) distance d opacity,
     encoded_displacement (snd (radial_direction x y)) distance d opacity).
Proof.
  intros Hd. cbv zeta.
  unfold displacement_values, encoded_displacement, radial_direction,
    anti_alias_opacity, edge_opacity, clamp, ext_gtb, ext_div, gtb, ltb,
    Math_sqrt, Math_max, Math_min.
  cbv zeta.
  destruct (Rlt_dec 0 d); [|contradiction].
  destruct (Rlt_dec 0 (sqrt (x * x + y * y)));
    destruct (Rlt_dec (x * x + y * y) (radius * radius)); reflexivity.
Qed.

Lemma displacement_values_undivided (radius b : R) (m : ExtR) (table : list R)
    (x y : R) :
  ext_gtb m 0 = false ->
  displacement_values radius b m table (x, y) = (128, 128).
Proof.
  intros Hm. unfold displacement_values. cbv zeta. rewrite Hm.
  replace (128 + 0 * 127 * _) with 128 by ring.
  unfold Math_max, Math_min. rewrite Rmin_right by lra.
  now rewrite Rmax_right by lra.
Qed.

(** C4: for the table the solver returns (128 entries), the
    [maximumDisplacement] that [_updateFilter] derives and stores is the
    largest [|entry|]: it bounds every entry and one entry attains it.
    The number [_updateFilter] passes to the 2D rasterizer, in its one
    call of it, is that maximum with 1 in its place when it is 0, so it is
    positive; on an element with positive sides the displacement image
    written to the filter is the rasterizer's result for exactly that
    divisor; and in the rasterizer the displacement of a pixel along each
    axis is the looked-up distance, projected on the radial direction,
    divided by that positive divisor.  (Handed a number that is not
    positive, the rasterizer does not divide at all.) *)
Theorem maximumDisplacement_divisor (table : list R) (this : LiquidGlass)
    (updateScale : bool) :
  _calculateDisplacementMap1D (glassThickness (options this))
    (bezelWidth (options this))
    (SurfaceEquations_get (surfaceType (options this)))
    (refractiveIndex (options this)) None = Ok table ->
  let out := _updateFilter this updateScale in
  let d := dimensions this in
  let radius := IZR (borderRadius d) in
  let b := bezelWidth (options this) in
  exists m divisor,
    length table = 128%nat
    /\ Math_max_apply (map Math_abs table) = Finite m
    /\ Forall (fun v => Rabs v <= m) table
    /\ Exists (fun v => Rabs v = m) table
    /\ maximumDisplacement (state (final out)) = Finite m
    /\ divisor = (if Req_dec_T m 0 then 1 else m)
    /\ 0 < divisor
    /\ In (CallDisplacementMap2D (Finite divisor)) (effects out)
    /\ (forall passed,
          In (CallDisplacementMap2D passed) (effects out) ->
          passed = Finite divisor)
    /\ ((0 < width d)%nat -> (0 < height d)%nat ->
          exists displacement specular,
            In (SetImages displacement specular) (effects out)
            /\ _calculateDisplacementMap2D (width d) (height d) (width d)
                 (height d) radius b (Finite divisor) table = Ok displacement)
    /\ (forall x y,
          let distance := bezel_distance radius b table (sqrt (x * x + y * y)) in
          let opacity := anti_alias_opacity radius x y in
          displacement_values radius b (Finite divisor) table (x, y)
          = (encoded_displacement (fst (radial_direction x y)) distance
               divisor opacity,
             encoded_displacement (snd (radial_direction x y)) distance
               divisor opacity))
    /\ (forall (passed : ExtR) x y,
          ext_gtb passed 0 = false ->
          displacement_values radius b passed table (x, y) = (128, 128)).
Proof.
  intros Htable. cbv zeta.
  pose proof (default_table_nonempty _ _ _ _ _ Htable) as Hlen.
  pose proof (updateFilter_run this updateScale table Htable) as Hrun.
  pose proof (updateFilter_empty this updateScale table Htable) as Hempty.
  cbv zeta in Hrun, Hempty.
  destruct table as [|e es]; [discriminate Hlen|].
  destruct (Math_max_apply_abs e es) as (m & Hm & Hpos & Hall & Hex).
  rewrite Hm in Hrun, Hempty. cbn [ext_or_default] in Hrun, Hempty.
  unfold or_default in Hrun, Hempty.
  exists m, (if Req_dec_T m 0 then 1 else m).
  assert (Hdiv : 0 < (if Req_dec_T m 0 then 1 else m))
    by (destruct (Req_dec_T m 0); lra).
  set (divisor := if Req_dec_T m 0 then 1 else m) in *.
  split; [exact Hlen|]. split; [exact Hm|]. split; [exact Hall|].
  split; [exact Hex|].
  assert (Hcalls :
            maximumDisplacement (state (final (_updateFilter this updateScale)))
            = Finite m
            /\ In (CallDisplacementMap2D (Finite divisor))
                 (effects (_updateFilter this updateScale))
            /\ (forall passed,
                  In (CallDisplacementMap2D passed)
                    (effects (_updateFilter this updateScale)) ->
                  passed = Finite divisor)
            /\ ((0 < width (dimensions this))%nat ->
                (0 < height (dimensions this))%nat ->
                exists displacement specular,
                  In (SetImages displacement specular)
                    (effects (_updateFilter this updateScale))
                  /\ _calculateDisplacementMap2D (width (dimensions this))
                       (height (dimensions this)) (width (dimensions this))
                       (height (dimensions this))
                       (IZR (borderRadius (dimensions this)))
                       (bezelWidth (options this)) (Finite divisor) (e :: es)
                     = Ok displacement)).
  { destruct (Nat.eq_dec (width (dimensions this)) 0%nat) as [W0|W0];
      [|destruct (Nat.eq_dec (height (dimensions this)) 0%nat) as [H0|H0]].
    - rewrite Hempty by now left. cbn. split; [reflexivity|].
      split; [tauto|]. split; [|lia].
      intros passed [H|[H|[]]]; [discriminate|now injection H].
    - rewrite Hempty by now right. cbn. split; [reflexivity|].
      split; [tauto|]. split; [|lia].
      intros passed [H|[H|[]]]; [discriminate|now injection H].
    - destruct Hrun as (img & spec & E2 & _ & ->); [lia|lia|].
      cbn [final effects state with_state maximumDisplacement
           with_maximumDisplacement].
      split; [reflexivity|]. split; [cbn; tauto|]. split.
      + intros passed Hin. destruct updateScale; cbn in Hin;
          repeat (destruct Hin as [Hin|Hin]; try discriminate);
          first [now injection Hin | contradiction].
      + intros _ _. exists img, spec. split; [cbn; tauto|exact E2]. }
  destruct Hcalls as (K1 & K2 & K3 & K4).
  split; [exact K1|]. split; [reflexivity|]. split; [exact Hdiv|].
  split; [exact K2|]. split; [exact K3|]. split; [exact K4|].
  split.
  - intros x y. now apply displacement_values_spec.
  - intros passed x y. apply displacement_values_undivided.
Qed.

Lemma refraction_entry_no_height (profile : R -> R) (n : R) (N i : nat) :
  refraction_entry profile n 0 0 N i = 0.
Proof.
  unfold refraction_entry. cbv zeta.
  destruct (Rlt_dec _ 0); [reflexivity|]. unfold Rdiv. ring.
Qed.

Lemma refraction_entry_flat (profile : R -> R) (n b g : R) (N i : nat) :
  (forall x y, profile x = profile y) ->
  refraction_entry profile n b g N i = 0.
Proof.
  intros Hflat. unfold refraction_entry. cbv zeta.
  assert (D : tangent_slope profile (INR i / INR N) = 0).
  { unfold tangent_slope. cbv zeta.
    rewrite (Hflat _ (INR i / INR N)). unfold Rdiv. ring. }
  rewrite D. destruct (Rlt_dec _ 0); [reflexivity|].
  unfold refracted_direction, inward_normal. cbn [fst snd]. unfold Rdiv. ring.
Qed.

(** The inputs for which every entry is 0 in doubles as in the reals: a
    profile of constant height, whose slope is an exact 0, and a glass
    without bezel width and thickness, whose remaining height is. *)
Lemma zero_table (profile : R -> R)
    (refractiveIndex bezelWidth glassThickness : R) (samples : option nat) :
  0 < refractiveIndex -> refractiveIndex <> 1 ->
  (forall x y, profile x = profile y)
  \/ (bezelWidth = 0 /\ glassThickness = 0) ->
  exists table,
    _calculateDisplacementMap1D glassThickness bezelWidth (JsFunction profile)
      refractiveIndex samples = Ok table
    /\ length table = samples_or_default samples
    /\ Forall (fun v => v = 0) table
    /\ Math_max_apply (map Math_abs table) = Finite 0
    /\ ext_or_default (Math_max_apply (map Math_abs table)) 1 = Finite 1.
Proof.
  intros Hn H1 Hcase.
  eexists. split; [now apply calculateDisplacementMap1D_function|].
  set (N := samples_or_default samples).
  assert (Z : forall i, refraction_entry profile refractiveIndex bezelWidth
                          glassThickness N i = 0).
  { intros i. destruct Hcase as [Hflat|[-> ->]];
      [now apply refraction_entry_flat|apply refraction_entry_no_height]. }
  assert (E : map (refraction_entry profile refractiveIndex bezelWidth
                     glassThickness N) (seq 0 N)
              = map (fun _ => 0) (seq 0 N)).
  { apply map_ext. exact Z. }
  rewrite E.
  assert (F : Forall (fun v => v = 0) (map (fun _ : nat => 0) (seq 0 N))).
  { apply List.Forall_forall. intros v Hv. apply in_map_iff in Hv.
    destruct Hv as (j & <- & _). reflexivity. }
  assert (M : Math_max_apply (map Math_abs (map (fun _ : nat => 0) (seq 0 N)))
              = Finite 0).
  { destruct (samples_or_default_succ samples) as [k Hk]. fold N in Hk.
    rewrite Hk in F |- *. apply (Math_max_apply_zeros _ _ F). }
  split; [now rewrite length_map, length_seq|]. split; [exact F|].
  split; [exact M|]. rewrite M. cbn. unfold or_default.
  destruct (Req_dec_T 0 0); [reflexivity|congruence].
Qed.

Lemma maximumDisplacement_divisor_witness :
  maximumDisplacement
    (state (final (_updateFilter (sheet (mkDimensions 4 4 1)) true)))
  = Finite 0
  /\ In (CallDisplacementMap2D (Finite 1))
       (effects (_updateFilter (sheet (mkDimensions 4 4 1)) true)).
Proof.
  destruct (zero_table SurfaceEquations.convex_squircle 1.5 0 0 None)
    as (table & Htable & _ & _ & Hmax & _); [lra|lra|now right|].
  destruct (maximumDisplacement_divisor table (sheet (mkDimensions 4 4 1)) true)
    as (m & divisor & _ & Hm & _ & _ & Hstored & Hdiv & _ & Hcall & _).
  - exact Htable.
  - rewrite Hmax in Hm. injection Hm as <-.
    split; [exact Hstored|].
    rewrite Hdiv in Hcall. destruct (Req_dec_T 0 0); [exact Hcall|congruence].
Defined.

(** ** Unknown surface types *)

Lemma calculateDisplacementMap1D_undefined (g b n : R) (samples : option nat) :
  _calculateDisplacementMap1D g b JsUndefined n samples = Throw TypeError.
Proof.
  unfold _calculateDisplacementMap1D.
  destruct (samples_or_default_succ samples) as [k ->]. reflexivity.
Qed.

Lemma sample_call_ext (g b eta : R) (v : JsValue) (f : R -> R) (N i : nat) :
  (forall x, call v x = Ok (f x)) ->
  sample g b v eta N i = sample g b (JsFunction f) eta N i.
Proof. intros E. unfold sample. now rewrite !E. Qed.

Lemma calculateDisplacementMap1D_constructor (g b n : R) (samples : option nat) :
  _calculateDisplacementMap1D g b (JsObjectPrototype "constructor") n samples
  = _calculateDisplacementMap1D g b (JsFunction (fun x => x)) n samples.
Proof.
  unfold _calculateDisplacementMap1D. cbv zeta.
  rewrite (push_each_ext _
             (sample g b (JsFunction (fun x => x)) (1 / n)
                (samples_or_default samples)));
    [reflexivity|].
  intros i. now apply sample_call_ext.
Qed.

Lemma updateFilter_completes (this : LiquidGlass) (updateScale : bool)
    (table : list R) :
  _calculateDisplacementMap1D (glassThickness (options this))
    (bezelWidth (options this))
    (SurfaceEquations_get (surfaceType (options this)))
    (refractiveIndex (options this)) None = Ok table ->
  (0 < width (dimensions this))%nat -> (0 < height (dimensions this))%nat ->
  completion (_updateFilter this updateScale) = Ok tt
  /\ In CallDisplacementMap1D (effects (_updateFilter this updateScale)).
Proof.
  intros Htable Hw Hh.
  destruct (updateFilter_run this updateScale table Htable Hw Hh)
    as (img & spec & _ & _ & ->).
  cbn [completion effects]. split; [reflexivity|now left].
Qed.

(** C1, as stated, fails: ["constructor"] is none of the four profiles, yet
    [SurfaceEquations["constructor"]] is the inherited function [Object],
    the solver and both rasterizers run, and [setOptions] returns without
    any error. *)
Lemma inherited_surfaceType_is_accepted :
  let out := setOptions (constructed (mkDimensions 4 4 1))
               (only_surfaceType "constructor") in
  ~ In "constructor"%string recognized_surfaceTypes
  /\ completion out = Ok tt
  /\ In CallDisplacementMap1D (effects out)
  /\ ~ rejected_before_rasterization out.
Proof.
  cbv zeta.
  destruct (updateFilter_completes
              (with_options (constructed (mkDimensions 4 4 1))
                 (assign_options (options (constructed (mkDimensions 4 4 1)))
                    (only_surfaceType "constructor")))
              true
              (map (refraction_entry (fun x => x) 1.5 30 150 128) (seq 0 128)))
    as [Hdone Hcall].
  - change (SurfaceEquations_get _) with (JsObjectPrototype "constructor").
    rewrite calculateDisplacementMap1D_constructor.
    apply calculateDisplacementMap1D_function; cbn; lra.
  - cbn. lia.
  - cbn. lia.
  - fold (setOptions (constructed (mkDimensions 4 4 1))
            (only_surfaceType "constructor")) in Hdone, Hcall.
    split; [|split; [exact Hdone|split; [exact Hcall|]]].
    + cbn. intros [H|[H|[H|[H|[]]]]]; discriminate.
    + intros [[e He] _]. rewrite Hdone in He. discriminate.
Qed.

(** A name that is no property at all makes the solver throw, after it has
    been entered. *)
Lemma unknown_surfaceType_throws_in_the_solver :
  let out := setOptions (constructed (mkDimensions 4 4 1))
               (only_surfaceType "flat") in
  completion out = Throw TypeError
  /\ effects out = [CallDisplacementMap1D]
  /\ ~ rejected_before_rasterization out.
Proof.
  cbv zeta. unfold setOptions, _updateFilter, this_calculateDisplacementMap1D.
  cbn [options with_options assign_options only_surfaceType new_surfaceType
       surfaceType default from_option].
  change (SurfaceEquations_get "flat") with JsUndefined.
  rewrite calculateDisplacementMap1D_undefined.
  split; [reflexivity|split; [reflexivity|]].
  intros (_ & H & _). apply H. now left.
Qed.

(** C1, amended: for every option set whose surface type is no property of
    [SurfaceEquations] at all (none of the four profiles and no name
    inherited from [Object.prototype]), applying it fails with a
    [TypeError]; the error is not raised when the options are stored but by
    the 1D solver, which is entered and throws at its first sample, before
    any table exists and before the 2D and the specular rasterizer are
    called; the new options stay stored. *)
Theorem unknown_surfaceType_fails_in_solver (this : LiquidGlass)
    (newOptions : NewOptions) :
  SurfaceEquations_get (surfaceType (assign_options (options this) newOptions))
  = JsUndefined ->
  let out := setOptions this newOptions in
  completion out = Throw TypeError
  /\ effects out = [CallDisplacementMap1D]
  /\ options (final out) = assign_options (options this) newOptions
  /\ state (final out) = state this
  /\ ~ In (surfaceType (options (final out))) recognized_surfaceTypes.
Proof.
  intros H. cbv zeta. unfold setOptions, _updateFilter, this_calculateDisplacementMap1D.
  cbn [options with_options]. rewrite H, calculateDisplacementMap1D_undefined.
  cbn [completion effects final options state with_options].
  repeat split.
  revert H. generalize (surfaceType (assign_options (options this) newOptions)).
  intros name H Hin.
  destruct Hin as [E|[E|[E|[E|[]]]]]; rewrite <- E in H; discriminate.
Qed.

Lemma unknown_surfaceType_fails_in_solver_witness :
  completion (setOptions (constructed (mkDimensions 4 4 1))
                (only_surfaceType "flat")) = Throw TypeError.
Proof.
  apply (unknown_surfaceType_fails_in_solver (constructed (mkDimensions 4 4 1))
           (only_surfaceType "flat")).
  reflexivity.
Defined.

(** ** Stores into a buffer *)

Lemma array_index_INR (n : nat) : array_index (INR n) = Some n.
Proof.
  unfold array_index, Math_floor. rewrite INR_IZR_INZ, ZfloorZ.
  destruct (Req_dec_T (IZR (Z.of_nat n)) (IZR (Z.of_nat n))); [|congruence].
  destruct (Z.leb_spec 0 (Z.of_nat n)); [|lia].
  now rewrite Nat2Z.id.
Qed.

Lemma array_set_at (data : list Z) (idx : R) (n : nat) (v : R) :
  idx = INR n -> array_set data idx v = <[n := ToUint8Clamp v]> data.
Proof. intros ->. unfold array_set. now rewrite array_index_INR. Qed.

Lemma array_set_length (data : list Z) (idx v : R) :
  length (array_set data idx v) = length data.
Proof.
  unfold array_set. destruct (array_index idx); [apply length_insert|reflexivity].
Qed.

Lemma array_set4_at (data : list Z) (idx : R) (n : nat) (a b c e : R) :
  idx = INR n ->
  array_set (array_set (array_set (array_set data idx a) (idx + 1) b) (idx + 2) c)
    (idx + 3) e
  = store4 data n (ToUint8Clamp a, ToUint8Clamp b, ToUint8Clamp c, ToUint8Clamp e).
Proof.
  intros ->. unfold store4.
  rewrite (array_set_at _ (INR n) n) by reflexivity.
  rewrite (array_set_at _ (INR n + 1) (n + 1)) by (rewrite plus_INR; simpl; lra).
  rewrite (array_set_at _ (INR n + 2) (n + 2)) by (rewrite plus_INR; simpl; lra).
  rewrite (array_set_at _ (INR n + 3) (n + 3)) by (rewrite plus_INR; simpl; lra).
  reflexivity.
Qed.

Lemma ToUint8Clamp_0 : ToUint8Clamp 0 = 0%Z.
Proof. unfold ToUint8Clamp. now rewrite (proj2 (leb_le 0 0)) by lra. Qed.

Lemma ToUint8Clamp_255 : ToUint8Clamp 255 = 255%Z.
Proof.
  unfold ToUint8Clamp. rewrite (proj2 (leb_gt 255 0)) by lra.
  now rewrite (proj2 (leb_le 255 255)) by lra.
Qed.

Lemma ToUint8Clamp_128 : ToUint8Clamp 128 = 128%Z.
Proof.
  unfold ToUint8Clamp, Math_floor. rewrite (proj2 (leb_gt 128 0)) by lra.
  rewrite (proj2 (leb_gt 255 128)) by lra.
  rewrite ZfloorZ.
  rewrite (proj2 (ltb_ge (128 + 0.5) 128)) by lra.
  now rewrite (proj2 (ltb_lt 128 (128 + 0.5))) by lra.
Qed.

Lemma ToUint8Clamp_nearest (z : Z) (v : R) :
  0 < v < 255 -> IZR z - 0.5 < v < IZR z + 0.5 -> ToUint8Clamp v = z.
Proof.
  intros Hv Hn. unfold ToUint8Clamp, Math_floor.
  rewrite (proj2 (leb_gt v 0)) by lra. rewrite (proj2 (leb_gt 255 v)) by lra.
  destruct (Rle_lt_dec (IZR z) v) as [G|L].
  - rewrite (Zfloor_eq z v) by lra.
    rewrite (proj2 (ltb_ge (IZR z + 0.5) v)) by lra.
    now rewrite (proj2 (ltb_lt v (IZR z + 0.5))) by lra.
  - rewrite (Zfloor_eq (z - 1) v) by (rewrite minus_IZR; lra).
    rewrite minus_IZR. rewrite (proj2 (ltb_lt (IZR z - 1 + 0.5) v)) by lra. lia.
Qed.

Lemma store4_length (data : list Z) (base : nat) (v : Z * Z * Z * Z) :
  length (store4 data base v) = length data.
Proof. destruct v as [[[a b] c] e]. unfold store4. now rewrite !length_insert. Qed.

Lemma store4_lookup_ne (data : list Z) (base : nat) (v : Z * Z * Z * Z) (k : nat) :
  (k < base \/ base + 4 <= k)%nat -> store4 data base v !! k = data !! k.
Proof.
  intros H. destruct v as [[[a b] c] e]. unfold store4.
  rewrite !list_lookup_insert_ne by lia. reflexivity.
Qed.

Lemma store4_lookup (data : list Z) (base : nat) (a b c e : Z) :
  (base + 3 < length data)%nat ->
  store4 data base (a, b, c, e) !! base = Some a
  /\ store4 data base (a, b, c, e) !! (base + 1)%nat = Some b
  /\ store4 data base (a, b, c, e) !! (base + 2)%nat = Some c
  /\ store4 data base (a, b, c, e) !! (base + 3)%nat = Some e.
Proof.
  intros H. unfold store4. repeat split.
  - rewrite !list_lookup_insert_ne by lia. apply list_lookup_insert_eq. lia.
  - rewrite !list_lookup_insert_ne by lia. apply list_lookup_insert_eq.
    rewrite length_insert. lia.
  - rewrite !list_lookup_insert_ne by lia. apply list_lookup_insert_eq.
    rewrite !length_insert. lia.
  - apply list_lookup_insert_eq. rewrite !length_insert. lia.
Qed.

Section Stamp.

Context {A : Type} (pos : A -> nat) (val : A -> option (Z * Z * Z * Z)).

Lemma stamp_length (data : list Z) (a : A) :
  length (stamp pos val data a) = length data.
Proof. unfold stamp. destruct (val a); [apply store4_length|reflexivity]. Qed.

Lemma fold_stamp_length (items : list A) (data : list Z) :
  length (fold_left (stamp pos val) items data) = length data.
Proof.
  revert data. induction items as [|a items IH]; intros data; cbn;
    [reflexivity|]. now rewrite IH, stamp_length.
Qed.

(** Bytes of a pixel that no storing item designates are left alone. *)
Lemma fold_stamp_untouched (items : list A) (data : list Z) (q c : nat) :
  (c < 4)%nat ->
  (forall a, In a items -> pos a = q -> val a = None) ->
  fold_left (stamp pos val) items data !! (4 * q + c)%nat
  = data !! (4 * q + c)%nat.
Proof.
  intros Hc. revert data.
  induction items as [|a items IH]; intros data Hnone; cbn; [reflexivity|].
  rewrite IH by (intros a' Ha'; apply Hnone; now right).
  unfold stamp. destruct (val a) as [v|] eqn:V; [|reflexivity].
  apply store4_lookup_ne.
  destruct (Nat.eq_dec (pos a) q) as [E|E].
  - rewrite (Hnone a) in V by (auto; now left). discriminate.
  - lia.
Qed.

(** The bytes an item stores stay when no other item designates its
    pixel. *)
Lemma fold_stamp_stored (items : list A) (data : list Z) (a : A)
    (v0 v1 v2 v3 : Z) :
  List.NoDup (map pos items) ->
  In a items ->
  val a = Some (v0, v1, v2, v3) ->
  (4 * pos a + 3 < length data)%nat ->
  let final := fold_left (stamp pos val) items data in
  [final !! (4 * pos a)%nat; final !! (4 * pos a + 1)%nat;
   final !! (4 * pos a + 2)%nat; final !! (4 * pos a + 3)%nat]
  = [Some v0; Some v1; Some v2; Some v3].
Proof.
  intros Hnd Hin Hval. cbv zeta. revert data.
  induction items as [|b items IH]; intros data Hlen; [destruct Hin|].
  cbn [map] in Hnd. apply List.NoDup_cons_iff in Hnd. destruct Hnd as [Hb Hnd].
  cbn [fold_left]. destruct Hin as [->|Hin].
  - assert (U : forall c, (c < 4)%nat ->
              fold_left (stamp pos val) items (stamp pos val data a)
                !! (4 * pos a + c)%nat
              = stamp pos val data a !! (4 * pos a + c)%nat).
    { intros c Hc. apply fold_stamp_untouched; [exact Hc|].
      intros a' Ha' E. exfalso. apply Hb. rewrite <- E. now apply in_map. }
    pose proof (U 0%nat ltac:(lia)) as U0. rewrite Nat.add_0_r in U0.
    rewrite U0, !U by lia.
    unfold stamp. rewrite Hval.
    destruct (store4_lookup data (4 * pos a) v0 v1 v2 v3 Hlen)
      as (-> & -> & -> & ->).
    reflexivity.
  - apply IH; [exact Hnd|exact Hin|]. now rewrite stamp_length.
Qed.

End Stamp.

Lemma fold_left_map_items {A B C : Type} (f : A -> C -> A) (g : B -> C)
    (l : list B) (d : A) :
  fold_left f (map g l) d = fold_left (fun d x => f d (g x)) l d.
Proof. revert d. induction l as [|x l IH]; intros d; cbn; [reflexivity|apply IH]. Qed.

Lemma for_pixels_fold (ow oh : nat) (body : list Z -> nat -> nat -> list Z)
    (data : list Z) :
  for_pixels ow oh body data
  = fold_left (fun d p => body d (fst p) (snd p)) (pixels ow oh) data.
Proof.
  unfold for_pixels, pixels. generalize (seq 0 oh) as rows. intros rows.
  revert data. induction rows as [|y1 rows IH]; intros data; cbn [fold_left flat_map];
    [reflexivity|].
  rewrite fold_left_app, IH. f_equal.
  now rewrite fold_left_map_items.
Qed.

Lemma fold_left_ext_in {A B : Type} (f g : A -> B -> A) (l : list B) (d : A) :
  (forall d b, In b l -> f d b = g d b) -> fold_left f l d = fold_left g l d.
Proof.
  revert d. induction l as [|b l IH]; intros d H; cbn; [reflexivity|].
  rewrite H by now left. apply IH. intros d' b' Hb'. apply H. now right.
Qed.

Lemma in_pixels (ow oh y1 x1 : nat) :
  In (y1, x1) (pixels ow oh) <-> (y1 < oh)%nat /\ (x1 < ow)%nat.
Proof.
  unfold pixels. rewrite in_flat_map. split.
  - intros (y & Hy & Hx). apply in_map_iff in Hx. destruct Hx as (x & E & Hx).
    injection E as <- <-. apply in_seq in Hy, Hx. lia.
  - intros [Hy Hx]. exists y1. split; [apply in_seq; lia|].
    apply in_map_iff. exists x1. split; [reflexivity|apply in_seq; lia].
Qed.

Lemma map_add_seq (base start n : nat) :
  map (fun x => (base + x)%nat) (seq start n) = seq (base + start) n.
Proof.
  revert start. induction n as [|n IH]; intros start; cbn; [reflexivity|].
  rewrite IH. now rewrite Nat.add_succ_r.
Qed.

Lemma pixels_row_major (ow oh : nat) :
  map (fun p => (fst p * ow + snd p)%nat) (pixels ow oh) = seq 0 (oh * ow).
Proof.
  unfold pixels. induction oh as [|oh IH]; [reflexivity|].
  rewrite seq_S, flat_map_app, map_app, IH. cbn [flat_map plus].
  rewrite app_nil_r, map_map. cbn [fst snd].
  replace (S oh * ow)%nat with (oh * ow + ow)%nat by lia.
  rewrite seq_app. f_equal. cbn [plus].
  rewrite map_add_seq. f_equal. lia.
Qed.

(** ** The corner-local offset *)

(** The offset the two rasterizers compute is the corner-local offset of
    the specification. *)
Lemma corner_local_folded (ow oh : nat) (radius : R) (x1 y1 : nat) :
  corner_local ow oh radius x1 y1 = folded_offset ow oh radius x1 y1.
Proof.
  unfold corner_local, folded_offset, axis_offset, centre_beyond, ltb, geb, leb.
  cbv zeta.
  destruct (Rlt_dec (INR x1) radius), (Rle_dec (INR ow - radius) (INR x1)),
    (Rlt_dec (INR y1) radius), (Rle_dec (INR oh - radius) (INR y1));
    f_equal; ring.
Qed.

Lemma near_corner_centre (ow oh : nat) (radius : R) (x1 y1 : nat) :
  near_corner ow oh radius x1 y1 ->
  exists c, In c (corner_centres ow oh radius)
            /\ fst (folded_offset ow oh radius x1 y1) = INR x1 - fst c
            /\ snd (folded_offset ow oh radius x1 y1) = INR y1 - snd c.
Proof.
  unfold near_corner, folded_offset, axis_offset, centre_beyond, corner_centres.
  intros [Hx Hy]. cbn [fst snd].
  destruct (Rlt_dec (INR x1) radius);
    [|destruct (Rle_dec (INR ow - radius) (INR x1)); [|congruence]];
    (destruct (Rlt_dec (INR y1) radius);
     [|destruct (Rle_dec (INR oh - radius) (INR y1)); [|congruence]]);
    eexists (_, _); cbn [fst snd In]; (split; [|split; reflexivity]); tauto.
Qed.

Lemma off_edge_offset (ow oh : nat) (radius : R) (x1 y1 : nat) :
  ~ on_flat_edge ow oh radius x1 y1 ->
  near_corner ow oh radius x1 y1 \/ folded_offset ow oh radius x1 y1 = (0, 0).
Proof.
  unfold on_flat_edge, near_corner, folded_offset, axis_offset.
  intros H.
  destruct (centre_beyond ow radius x1) as [cx|], (centre_beyond oh radius y1) as [cy|];
    first [ left; split; discriminate
          | right; reflexivity
          | exfalso; apply H; first [ left; split; [reflexivity|discriminate]
                                    | right; split; [discriminate|reflexivity] ] ].
Qed.

(** ** The specular highlight *)

Lemma in_ring_spec (radius inner x y : R) :
  in_ring radius inner (x, y) = true
  <-> inner <= x * x + y * y <= (radius + 1) * (radius + 1).
Proof.
  unfold in_ring. cbn [fst snd]. rewrite andb_true_iff, leb_le, geb_le. tauto.
Qed.

Lemma specular_pixel_stamp (ow oh : nat) (radius : R) (L : R * R)
    (data : list Z) (y1 x1 : nat) :
  specular_pixel ow oh radius L data y1 x1
  = stamp (fun p => (fst p * ow + snd p)%nat) (specular_bytes ow oh radius L)
      data (y1, x1).
Proof.
  unfold specular_pixel, stamp, specular_bytes. cbv zeta. cbn [fst snd].
  destruct (in_ring _ _ _); [|reflexivity].
  destruct (specular_values radius L (corner_local ow oh radius x1 y1))
    as [color finalOpacity].
  apply array_set4_at.
  rewrite !mult_INR, plus_INR, mult_INR. simpl INR. lra.
Qed.

Lemma calculateSpecularHighlight_fold (ow oh : nat) (radius b : R)
    (angle : option R) :
  (0 < ow)%nat -> (0 < oh)%nat ->
  _calculateSpecularHighlight ow oh radius b angle
  = Ok (ImageData.mk ow oh
          (fold_left
             (stamp (fun p => (fst p * ow + snd p)%nat)
                (specular_bytes ow oh radius (light_vector angle)))
             (pixels ow oh) (replicate (4 * ow * oh) 0%Z))).
Proof.
  intros Hw Hh. unfold _calculateSpecularHighlight.
  rewrite ImageData_new_ok by assumption. cbn [bind]. cbv zeta.
  unfold ImageData.with_data. cbn [ImageData.width ImageData.height ImageData.data].
  rewrite for_pixels_fold. do 2 f_equal.
  apply fold_left_ext_in. intros d [y1 x1] _. cbn [fst snd].
  rewrite specular_pixel_stamp. f_equal.
Qed.

Lemma specular_values_spec (radius : R) (L : R * R) (x y : R) :
  specular_values radius L (x, y)
  = (specular_brightness radius L x y, specular_alpha radius L x y).
Proof.
  unfold specular_values, specular_alpha, specular_brightness,
    specular_coefficient, outward_direction, anti_alias_opacity, edge_opacity,
    clamp, gtb, ltb, Math_sqrt, Math_abs, Math_max, Math_min.
  cbv zeta.
  replace ((1 - Rmax 0 (Rmin 1 ((radius - sqrt (x * x + y * y)) / 1.5))) ^ 2)
    with ((1 - Rmax 0 (Rmin 1 ((radius - sqrt (x * x + y * y)) / 1.5)))
          * (1 - Rmax 0 (Rmin 1 ((radius - sqrt (x * x + y * y)) / 1.5))))
    by ring.
  destruct (Rlt_dec 0 (sqrt (x * x + y * y)));
    destruct (Rlt_dec (x * x + y * y) (radius * radius)); reflexivity.
Qed.

Lemma outward_direction_unit (x y : R) :
  0 < sqrt (x * x + y * y) ->
  fst (outward_direction x y) ^ 2 + snd (outward_direction x y) ^ 2 = 1.
Proof.
  intros Hd. unfold outward_direction.
  destruct (Rlt_dec 0 (sqrt (x * x + y * y))); [|contradiction].
  cbn [fst snd].
  assert (Hsq : sqrt (x * x + y * y) * sqrt (x * x + y * y) = x * x + y * y)
    by (apply sqrt_sqrt; nra).
  set (d := sqrt (x * x + y * y)) in *.
  field_simplify_eq; [|lra]. nra.
Qed.

(** C6: a pixel of the object whose squared corner-local distance lies in
    the specular band holds, in its three colour channels, [min 255 (255 *
    coefficient)] and, in its alpha channel, [min 255 (brightness *
    coefficient * opacity)], each converted to a byte by the array, where
    [coefficient = dotProduct * sharpFalloff], [sharpFalloff = sqrt (1 - (1
    - edgeRatio)^2)], [edgeRatio = clamp ((radius - distanceFromCenter) /
    1.5) 0 1] and [dotProduct = |cos * lightX + sin * lightY|] for the
    outward direction [(cos, sin)] of the pixel.  The offset these are
    taken at is the corner-local offset of the specification: for a pixel
    near a corner it is the offset from the centre of one of the four
    corners; the direction is taken with the vertical axis pointing up and
    is a unit vector when the distance is positive.  The image depends on
    the object size, the radius and the light angle only: the rasterizer
    takes no refraction table and ignores the bezel width. *)
Theorem specular_pixel_formula (ow oh : nat) (radius bezelWidth : R)
    (specularAngle : option R) (x1 y1 : nat) :
  (x1 < ow)%nat -> (y1 < oh)%nat ->
  let x := fst (folded_offset ow oh radius x1 y1) in
  let y := snd (folded_offset ow oh radius x1 y1) in
  let light := light_vector specularAngle in
  in_specular_band radius x y ->
  exists img,
    _calculateSpecularHighlight ow oh radius bezelWidth specularAngle = Ok img
    /\ ImageData.width img = ow /\ ImageData.height img = oh
    /\ ImageData.pixel img x1 y1
       = [Some (ToUint8Clamp (specular_brightness radius light x y));
          Some (ToUint8Clamp (specular_brightness radius light x y));
          Some (ToUint8Clamp (specular_brightness radius light x y));
          Some (ToUint8Clamp (specular_alpha radius light x y))]
    /\ (near_corner ow oh radius x1 y1 ->
          exists c, In c (corner_centres ow oh radius)
                    /\ x = INR x1 - fst c /\ y = INR y1 - snd c)
    /\ (0 < sqrt (x * x + y * y) ->
          fst (outward_direction x y) ^ 2 + snd (outward_direction x y) ^ 2 = 1)
    /\ (forall bezelWidth',
          _calculateSpecularHighlight ow oh radius bezelWidth' specularAngle
          = Ok img).
Proof.
  intros Hx Hy x y light Hband.
  assert (Hw : (0 < ow)%nat) by lia. assert (Hh : (0 < oh)%nat) by lia.
  eexists. split; [now apply calculateSpecularHighlight_fold|].
  split; [reflexivity|]. split; [reflexivity|].
  split; [|split; [apply near_corner_centre|split; [apply outward_direction_unit|]]].
  - unfold ImageData.pixel. cbn [ImageData.width ImageData.data].
    set (pos := fun p : nat * nat => (fst p * ow + snd p)%nat).
    change (y1 * ow + x1)%nat with (pos (y1, x1)).
    apply (fold_stamp_stored pos).
    + unfold pos. rewrite pixels_row_major. apply seq_NoDup.
    + apply in_pixels. lia.
    + unfold specular_bytes. cbn [fst snd]. rewrite corner_local_folded.
      destruct (folded_offset ow oh radius x1 y1) as [cx cy] eqn:E.
      subst x y. cbn [fst snd] in *.
      rewrite (proj2 (in_ring_spec radius _ cx cy)) by exact Hband.
      now rewrite specular_values_spec.
    + rewrite length_replicate. unfold pos. cbn [fst snd]. nia.
  - intros b'. now apply calculateSpecularHighlight_fold.
Qed.

(** The pixel in column 1 of row 4 of an 8 by 8 object of radius 3, lit
    from 45 degrees: it lies on the left edge, 2 from the line of the
    corner centres. *)
Lemma folded_offset_8_3 : folded_offset 8 8 3 1 4 = (-2, 0).
Proof.
  unfold folded_offset, axis_offset, centre_beyond. simpl INR.
  destruct (Rlt_dec 1 3); [|lra].
  destruct (Rlt_dec (1 + 1 + 1 + 1) 3); [lra|].
  destruct (Rle_dec (1 + 1 + 1 + 1 + 1 + 1 + 1 + 1 - 3) (1 + 1 + 1 + 1)); [lra|].
  f_equal; lra.
Qed.

Lemma specular_coefficient_8_3 :
  specular_coefficient 3 (light_vector (Some (PI / 4))) (-2) 0 = 2 / 3.
Proof.
  assert (D : sqrt (-2 * -2 + 0 * 0) = 2).
  { replace (-2 * -2 + 0 * 0) with (2 * 2) by ring. apply sqrt_square. lra. }
  assert (S2 : 0 < sqrt 2) by (apply sqrt_lt_R0; lra).
  assert (S89 : sqrt (1 - (1 - 2 / 3) ^ 2) = 2 / 3 * sqrt 2).
  { replace (1 - (1 - 2 / 3) ^ 2) with ((2 / 3) * (2 / 3) * 2) by field.
    rewrite sqrt_mult by lra. now rewrite sqrt_square by lra. }
  unfold specular_coefficient, light_vector, outward_direction, clamp.
  destruct (Req_dec_T (PI / 4) 0) as [E|_];
    [pose proof PI_RGT_0; lra|].
  rewrite D. destruct (Rlt_dec 0 2); [|lra]. cbn [fst snd].
  rewrite cos_PI4.
  replace (-2 / 2 * (1 / sqrt 2) + - 0 / 2 * sin (PI / 4)) with (- (1 / sqrt 2))
    by (field; lra).
  rewrite Rabs_Ropp, Rabs_right
    by (apply Rle_ge; unfold Rdiv; rewrite Rmult_1_l; left;
        now apply Rinv_0_lt_compat).
  replace ((3 - 2) / 1.5) with (2 / 3) by lra.
  rewrite (Rmin_right 1 (2 / 3)) by lra. rewrite (Rmax_right 0 (2 / 3)) by lra.
  rewrite S89. field. lra.
Qed.

Lemma specular_pixel_formula_witness :
  exists img,
    _calculateSpecularHighlight 8 8 3 30 (Some (PI / 4)) = Ok img
    /\ ImageData.pixel img 1 4
       = [Some 170%Z; Some 170%Z; Some 170%Z; Some 113%Z].
Proof.
  destruct (specular_pixel_formula 8 8 3 30 (Some (PI / 4)) 1 4)
    as (img & E & _ & _ & P & _).
  - lia.
  - lia.
  - rewrite folded_offset_8_3. cbn [fst snd]. unfold in_specular_band.
    split; [apply Rmax_lub; lra|lra].
  - exists img. split; [exact E|].
    rewrite P, folded_offset_8_3. cbn [fst snd].
    unfold specular_alpha, specular_brightness.
    rewrite specular_coefficient_8_3.
    assert (O : anti_alias_opacity 3 (-2) 0 = 1).
    { unfold anti_alias_opacity. destruct (Rlt_dec _ _); [reflexivity|lra]. }
    rewrite O.
    replace (Rmin 255 (255 * (2 / 3))) with 170
      by (rewrite Rmin_right; lra).
    replace (Rmin 255 (170 * (2 / 3) * 1)) with (340 / 3)
      by (rewrite Rmin_right; lra).
    rewrite (ToUint8Clamp_nearest 170 170) by (simpl; lra).
    now rewrite (ToUint8Clamp_nearest 113 (340 / 3)) by (simpl; lra).
Defined.

(** ** The displacement map *)

Lemma fill_neutral_stamp (data : list Z) :
  fill_neutral data
  = fold_left (stamp (fun n : nat => n) (fun _ => Some (128, 128, 0, 255)%Z))
      (seq 0 (Nat.div (length data + 3) 4)) data.
Proof.
  unfold fill_neutral. apply fold_left_ext_in. intros d n _. cbv zeta.
  unfold stamp.
  rewrite (array_set4_at d (INR (4 * n)) (4 * n)) by reflexivity.
  now rewrite ToUint8Clamp_0, ToUint8Clamp_128, ToUint8Clamp_255.
Qed.

Lemma fill_neutral_length (data : list Z) :
  length (fill_neutral data) = length data.
Proof. rewrite fill_neutral_stamp. apply fold_stamp_length. Qed.

Lemma fill_neutral_pixel (data : list Z) (q : nat) :
  (4 * q + 3 < length data)%nat ->
  [fill_neutral data !! (4 * q)%nat; fill_neutral data !! (4 * q + 1)%nat;
   fill_neutral data !! (4 * q + 2)%nat; fill_neutral data !! (4 * q + 3)%nat]
  = neutral.
Proof.
  intros Hq. rewrite fill_neutral_stamp.
  apply (fold_stamp_stored (fun n : nat => n) (fun _ => Some (128, 128, 0, 255)%Z)
           _ data q).
  - rewrite map_id. apply seq_NoDup.
  - apply in_seq. split; [lia|]. cbn [plus].
    apply (Nat.div_le_lower_bound (length data + 3) 4 (S q)); lia.
  - reflexivity.
  - exact Hq.
Qed.

Lemma row_column_unique (cw a r a' r' : nat) :
  (r < cw)%nat -> (r' < cw)%nat -> (a * cw + r = a' * cw + r')%nat ->
  a = a' /\ r = r'.
Proof.
  intros Hr Hr' E.
  destruct (lt_eq_lt_dec a a') as [[L | E'] | L].
  - assert ((a + 1) * cw <= a' * cw)%nat by (apply Nat.mul_le_mono_r; lia). lia.
  - subst a'. lia.
  - assert ((a' + 1) * cw <= a * cw)%nat by (apply Nat.mul_le_mono_r; lia). lia.
Qed.

Lemma displacement_pixel_stamp (ow oh ox oy : nat) (radius b : R) (m : ExtR)
    (table : list R) (data : list Z) (y1 x1 : nat) :
  displacement_pixel (ow + 2 * ox) (oh + 2 * oy) ow oh radius b m table data y1 x1
  = stamp (fun p => ((oy + fst p) * (ow + 2 * ox) + ox + snd p)%nat)
      (displacement_bytes ow oh radius b m table) data (y1, x1).
Proof.
  unfold displacement_pixel, stamp, displacement_bytes. cbv zeta. cbn [fst snd].
  destruct (in_ring _ _ _); [|reflexivity].
  destruct (displacement_values radius b m table (corner_local ow oh radius x1 y1))
    as [red green].
  rewrite (array_set4_at data _ (4 * ((oy + y1) * (ow + 2 * ox) + ox + x1))).
  - now rewrite ToUint8Clamp_0, ToUint8Clamp_255.
  - rewrite !mult_INR, !plus_INR, !mult_INR, !plus_INR, !mult_INR. simpl INR. lra.
Qed.

Lemma calculateDisplacementMap2D_fold (ow oh ox oy : nat) (radius b : R)
    (m : ExtR) (table : list R) :
  (0 < ow + 2 * ox)%nat -> (0 < oh + 2 * oy)%nat ->
  _calculateDisplacementMap2D (ow + 2 * ox) (oh + 2 * oy) ow oh radius b m table
  = Ok (ImageData.mk (ow + 2 * ox) (oh + 2 * oy)
          (fold_left
             (stamp (fun p => ((oy + fst p) * (ow + 2 * ox) + ox + snd p)%nat)
                (displacement_bytes ow oh radius b m table))
             (pixels ow oh)
             (fill_neutral (replicate (4 * (ow + 2 * ox) * (oh + 2 * oy)) 0%Z)))).
Proof.
  intros Hw Hh. unfold _calculateDisplacementMap2D.
  rewrite ImageData_new_ok by assumption. cbn [bind]. cbv zeta.
  unfold ImageData.with_data. cbn [ImageData.width ImageData.height ImageData.data].
  rewrite for_pixels_fold. do 2 f_equal.
  apply fold_left_ext_in. intros d [y1 x1] _. cbn [fst snd].
  apply displacement_pixel_stamp.
Qed.

Lemma in_object_region_centred (ow oh ox oy cx cy : nat) :
  in_object_region (ow + 2 * ox) (oh + 2 * oy) ow oh cx cy
  <-> (ox <= cx < ox + ow)%nat /\ (oy <= cy < oy + oh)%nat.
Proof.
  unfold in_object_region. cbv zeta.
  rewrite !plus_INR, !mult_INR. simpl (INR 2).
  replace ((INR ow + (1 + 1) * INR ox - INR ow) / 2) with (INR ox) by lra.
  replace ((INR oh + (1 + 1) * INR oy - INR oh) / 2) with (INR oy) by lra.
  rewrite <- !plus_INR. split.
  - intros [[H1 H2] [H3 H4]].
    apply INR_le in H1, H3. apply INR_lt in H2, H4. lia.
  - intros [[H1 H2] [H3 H4]]. repeat split;
      first [apply le_INR; lia | apply lt_INR; lia].
Qed.

Lemma displacement_map_centred (ow oh ox oy : nat) (radius b : R) (m : ExtR)
    (table : list R) :
  (0 < ow + 2 * ox)%nat -> (0 < oh + 2 * oy)%nat ->
  exists img,
    _calculateDisplacementMap2D (ow + 2 * ox) (oh + 2 * oy) ow oh radius b m table
    = Ok img
    /\ ImageData.width img = (ow + 2 * ox)%nat
    /\ ImageData.height img = (oh + 2 * oy)%nat
    /\ length (ImageData.data img) = (4 * (ow + 2 * ox) * (oh + 2 * oy))%nat
    /\ (forall cx cy, (cx < ow + 2 * ox)%nat -> (cy < oh + 2 * oy)%nat ->
          ~ in_object_region (ow + 2 * ox) (oh + 2 * oy) ow oh cx cy
          \/ ~ in_bezel_ring radius b
                 (fst (corner_local ow oh radius (cx - ox) (cy - oy)))
                 (snd (corner_local ow oh radius (cx - ox) (cy - oy))) ->
          ImageData.pixel img cx cy = neutral).
Proof.
  intros Hw Hh. eexists. split; [now apply calculateDisplacementMap2D_fold|].
  split; [reflexivity|]. split; [reflexivity|]. split.
  - cbn [ImageData.data]. rewrite fold_stamp_length, fill_neutral_length.
    apply length_replicate.
  - intros cx cy Hcx Hcy Hout.
    unfold ImageData.pixel. cbn [ImageData.width ImageData.data].
    set (cw := (ow + 2 * ox)%nat) in *. set (ch := (oh + 2 * oy)%nat) in *.
    set (q := (cy * cw + cx)%nat).
    set (pos := fun p : nat * nat => ((oy + fst p) * cw + ox + snd p)%nat).
    set (val := displacement_bytes ow oh radius b m table).
    set (init := fill_neutral (replicate (4 * cw * ch) 0%Z)).
    assert (U : forall c, (c < 4)%nat ->
              fold_left (stamp pos val) (pixels ow oh) init !! (4 * q + c)%nat
              = init !! (4 * q + c)%nat).
    { intros c Hc. apply fold_stamp_untouched; [exact Hc|].
      intros [y1 x1] Hin Hpos. apply in_pixels in Hin. destruct Hin as [Hy1 Hx1].
      unfold pos, q in Hpos. cbn [fst snd] in Hpos.
      assert (Hrow : (oy + y1 = cy)%nat /\ (ox + x1 = cx)%nat).
      { assert (ox + x1 < cw)%nat by (unfold cw; lia).
        apply (row_column_unique cw); [assumption|assumption|lia]. }
      destruct Hrow as [<- <-].
      unfold val, displacement_bytes. cbn [fst snd].
      destruct (in_ring radius _ (corner_local ow oh radius x1 y1)) eqn:Ring;
        [|reflexivity].
      exfalso. destruct Hout as [Hout|Hout].
      - apply Hout. apply in_object_region_centred. lia.
      - apply Hout.
        replace (ox + x1 - ox)%nat with x1 by lia.
        replace (oy + y1 - oy)%nat with y1 by lia.
        destruct (corner_local ow oh radius x1 y1) as [x y]. cbn [fst snd].
        apply in_ring_spec in Ring. exact Ring. }
    pose proof (U 0%nat ltac:(lia)) as U0. rewrite Nat.add_0_r in U0.
    rewrite U0, !U by lia.
    apply fill_neutral_pixel. rewrite length_replicate. unfold q. nia.
Qed.

Lemma pixels_NoDup (ow oh : nat) : List.NoDup (pixels ow oh).
Proof.
  apply (List.NoDup_map_inv (fun p => (fst p * ow + snd p)%nat)).
  rewrite pixels_row_major. apply seq_NoDup.
Qed.

Lemma centred_positions_NoDup (ow oh ox oy : nat) :
  List.NoDup
    (map (fun p => ((oy + fst p) * (ow + 2 * ox) + ox + snd p)%nat) (pixels ow oh)).
Proof.
  apply List.NoDup_map_NoDup_ForallPairs; [|apply pixels_NoDup].
  intros [y1 x1] [y2 x2] H1 H2 E. cbn [fst snd] in E.
  apply in_pixels in H1, H2.
  destruct (row_column_unique (ow + 2 * ox) (oy + y1) (ox + x1) (oy + y2) (ox + x2))
    as [Ey Ex]; [lia|lia|lia|].
  f_equal; lia.
Qed.

Lemma displacement_map_stored (ow oh ox oy : nat) (radius b : R) (m : ExtR)
    (table : list R) :
  (0 < ow + 2 * ox)%nat -> (0 < oh + 2 * oy)%nat ->
  exists img,
    _calculateDisplacementMap2D (ow + 2 * ox) (oh + 2 * oy) ow oh radius b m table
    = Ok img
    /\ forall x1 y1 v0 v1 v2 v3, (x1 < ow)%nat -> (y1 < oh)%nat ->
         displacement_bytes ow oh radius b m table (y1, x1) = Some (v0, v1, v2, v3) ->
         ImageData.pixel img (ox + x1) (oy + y1)
         = [Some v0; Some v1; Some v2; Some v3].
Proof.
  intros Hw Hh. eexists. split; [now apply calculateDisplacementMap2D_fold|].
  intros x1 y1 v0 v1 v2 v3 Hx Hy Hval.
  unfold ImageData.pixel. cbn [ImageData.width ImageData.data].
  set (pos := fun p : nat * nat => ((oy + fst p) * (ow + 2 * ox) + ox + snd p)%nat).
  replace ((oy + y1) * (ow + 2 * ox) + (ox + x1))%nat with (pos (y1, x1))
    by (unfold pos; cbn [fst snd]; lia).
  apply (fold_stamp_stored pos).
  - apply centred_positions_NoDup.
  - apply in_pixels. lia.
  - exact Hval.
  - rewrite fill_neutral_length, length_replicate. unfold pos. cbn [fst snd]. nia.
Qed.

Lemma displacement_values_centre (radius b : R) (m : ExtR) (table : list R) :
  displacement_values radius b m table (0, 0) = (128, 128).
Proof.
  unfold displacement_values. cbv zeta.
  replace (0 * 0 + 0 * 0) with 0 by ring. unfold Math_sqrt, gtb. rewrite sqrt_0.
  rewrite (proj2 (ltb_ge 0 0)) by lra.
  set (dist := bezel_distance _ _ _ _). set (op := edge_opacity _ _).
  assert (Z : (if ext_gtb m 0 then ext_div (- 0 * dist) m else 0) = 0).
  { destruct (ext_gtb m 0); [|reflexivity].
    destruct m; cbn [ext_div]; [reflexivity|unfold Rdiv; ring]. }
  rewrite Z. replace (128 + 0 * 127 * op) with 128 by ring.
  unfold Math_max, Math_min. rewrite Rmin_right by lra.
  now rewrite Rmax_right by lra.
Qed.

Lemma displacement_map_pixels (ow oh ox oy : nat) (radius b : R) (m : ExtR)
    (table : list R) :
  (0 < ow + 2 * ox)%nat -> (0 < oh + 2 * oy)%nat ->
  exists img,
    _calculateDisplacementMap2D (ow + 2 * ox) (oh + 2 * oy) ow oh radius b m table
    = Ok img
    /\ ImageData.width img = (ow + 2 * ox)%nat
    /\ ImageData.height img = (oh + 2 * oy)%nat
    /\ length (ImageData.data img) = (4 * (ow + 2 * ox) * (oh + 2 * oy))%nat
    /\ (forall cx cy, (cx < ow + 2 * ox)%nat -> (cy < oh + 2 * oy)%nat ->
          ~ in_object_region (ow + 2 * ox) (oh + 2 * oy) ow oh cx cy
          \/ displacement_bytes ow oh radius b m table ((cy - oy)%nat, (cx - ox)%nat)
             = None
          \/ displacement_bytes ow oh radius b m table ((cy - oy)%nat, (cx - ox)%nat)
             = Some (128, 128, 0, 255)%Z ->
          ImageData.pixel img cx cy = neutral).
Proof.
  intros Hw Hh.
  destruct (displacement_map_centred ow oh ox oy radius b m table Hw Hh)
    as (img & E & W & H & L & Pout).
  destruct (displacement_map_stored ow oh ox oy radius b m table Hw Hh)
    as (img' & E' & Pin).
  rewrite E in E'. injection E' as <-.
  exists img. repeat (split; [assumption|]).
  intros cx cy Hcx Hcy [Hout|[N|S]].
  - apply Pout; try assumption. now left.
  - apply Pout; try assumption. right. intros Hring.
    unfold displacement_bytes in N. cbn [fst snd] in N.
    destruct (corner_local ow oh radius (cx - ox) (cy - oy)) as [x y].
    cbn [fst snd] in Hring.
    rewrite (proj2 (in_ring_spec radius _ x y)) in N by exact Hring.
    destruct (displacement_values _ _ _ _ _). discriminate.
  - destruct (le_lt_dec ox cx) as [X1|X1];
      [destruct (le_lt_dec (ox + ow) cx) as [X2|X2]|];
      try (apply Pout; try assumption; left; rewrite in_object_region_centred; lia).
    destruct (le_lt_dec oy cy) as [Y1|Y1];
      [destruct (le_lt_dec (oy + oh) cy) as [Y2|Y2]|];
      try (apply Pout; try assumption; left; rewrite in_object_region_centred; lia).
    replace cx with (ox + (cx - ox))%nat at 1 by lia.
    replace cy with (oy + (cy - oy))%nat at 1 by lia.
    apply Pin; [lia|lia|exact S].
Qed.

(** Where the object is centred on whole pixels the rasterizer does what C5
    says: when both canvas sides are positive, the object fits in the
    canvas and the two margins are even (as when canvas and object have
    the same size, the only way [_updateFilter] calls it), it returns a
    buffer of exactly the canvas dimensions in which the neutral value
    [(128, 128, 0, 255)] is held by every pixel outside the centred
    object, by every pixel of the object whose squared corner-local
    distance is outside the bezel ring, and in particular by every pixel
    that is not on a flat edge band and is farther than [radius + 1] from
    every corner centre. *)
Theorem displacement_map_neutral (cw ch ow oh : nat) (radius bezelWidth : R)
    (maximumDisplacement : ExtR) (precomputedMap : list R) :
  (0 < cw)%nat -> (0 < ch)%nat -> (ow <= cw)%nat -> (oh <= ch)%nat ->
  Nat.Even (cw - ow) -> Nat.Even (ch - oh) ->
  exists img,
    _calculateDisplacementMap2D cw ch ow oh radius bezelWidth
      maximumDisplacement precomputedMap = Ok img
    /\ ImageData.width img = cw
    /\ ImageData.height img = ch
    /\ length (ImageData.data img) = (4 * cw * ch)%nat
    /\ (forall cx cy, (cx < cw)%nat -> (cy < ch)%nat ->
          let x1 := (cx - (cw - ow) / 2)%nat in
          let y1 := (cy - (ch - oh) / 2)%nat in
          let x := fst (folded_offset ow oh radius x1 y1) in
          let y := snd (folded_offset ow oh radius x1 y1) in
          ~ in_object_region cw ch ow oh cx cy
          \/ ~ in_bezel_ring radius bezelWidth x y
          \/ (~ on_flat_edge ow oh radius x1 y1
              /\ forall c, In c (corner_centres ow oh radius) ->
                   (radius + 1) * (radius + 1)
                   < (INR x1 - fst c) * (INR x1 - fst c)
                     + (INR y1 - snd c) * (INR y1 - snd c)) ->
          ImageData.pixel img cx cy = neutral).
Proof.
  intros Hw Hh Hfw Hfh [ox Hox] [oy Hoy].
  assert (Ew : cw = (ow + 2 * ox)%nat) by lia.
  assert (Eh : ch = (oh + 2 * oy)%nat) by lia.
  subst cw ch.
  destruct (displacement_map_pixels ow oh ox oy radius bezelWidth
              maximumDisplacement precomputedMap Hw Hh)
    as (img & E & W & H & L & P).
  exists img. repeat (split; [assumption|]).
  intros cx cy Hcx Hcy.
  replace ((ow + 2 * ox - ow) / 2)%nat with ox
    by (replace (ow + 2 * ox - ow)%nat with (ox * 2)%nat by lia;
        now rewrite Nat.div_mul).
  replace ((oh + 2 * oy - oh) / 2)%nat with oy
    by (replace (oh + 2 * oy - oh)%nat with (oy * 2)%nat by lia;
        now rewrite Nat.div_mul).
  cbv zeta. intros Hout. apply P; try assumption.
  assert (Outside : forall x y,
            folded_offset ow oh radius (cx - ox) (cy - oy) = (x, y) ->
            ~ in_bezel_ring radius bezelWidth x y ->
            displacement_bytes ow oh radius bezelWidth maximumDisplacement
              precomputedMap ((cy - oy)%nat, (cx - ox)%nat) = None).
  { intros x y Exy Hring. unfold displacement_bytes. cbn [fst snd].
    rewrite corner_local_folded, Exy.
    destruct (in_ring radius _ (x, y)) eqn:Ring; [|reflexivity].
    exfalso. apply Hring. apply in_ring_spec in Ring. exact Ring. }
  destruct (folded_offset ow oh radius (cx - ox) (cy - oy)) as [x y] eqn:Exy.
  cbn [fst snd] in Hout.
  destruct Hout as [Hout|[Hout|[Hedge Hfar]]].
  - now left.
  - right. left. now apply (Outside x y).
  - destruct (off_edge_offset _ _ _ _ _ Hedge) as [Hnear|Hzero].
    + right. left. apply (Outside x y); [reflexivity|].
      destruct (near_corner_centre _ _ _ _ _ Hnear) as (c & Hc & Hx & Hy).
      rewrite Exy in Hx, Hy. cbn [fst snd] in Hx, Hy.
      specialize (Hfar c Hc). rewrite <- Hx, <- Hy in Hfar.
      unfold in_bezel_ring. lra.
    + rewrite Exy in Hzero. injection Hzero as -> ->.
      right. unfold displacement_bytes. cbn [fst snd].
      rewrite corner_local_folded, Exy.
      destruct (in_ring radius _ (0, 0)); [right|now left].
      now rewrite displacement_values_centre, ToUint8Clamp_128.
Qed.

(** A 10 by 10 canvas around an 8 by 8 object of radius 1: the corner
    pixel of the canvas is outside the object, and the pixel in the middle
    of the object is between the corner centres on both axes and more
    than 2 from each of them. *)
Lemma displacement_map_neutral_witness :
  exists img,
    _calculateDisplacementMap2D 10 10 8 8 1 1 (Finite 1) [1] = Ok img
    /\ ImageData.pixel img 0 0 = neutral
    /\ ImageData.pixel img 5 5 = neutral.
Proof.
  destruct (displacement_map_neutral 10 10 8 8 1 1 (Finite 1) [1])
    as (img & E & _ & _ & _ & P); try lia; try (exists 1%nat; reflexivity).
  exists img. split; [exact E|]. split.
  - apply P; [lia|lia|]. left.
    unfold in_object_region. cbv zeta. simpl INR. lra.
  - apply P; [lia|lia|]. right. right.
    change (5 - (10 - 8) / 2)%nat with 4%nat.
    assert (B : centre_beyond 8 1 4 = None).
    { unfold centre_beyond. simpl INR.
      destruct (Rlt_dec (1 + 1 + 1 + 1) 1); [lra|].
      destruct (Rle_dec (1 + 1 + 1 + 1 + 1 + 1 + 1 + 1 - 1) (1 + 1 + 1 + 1));
        [lra|reflexivity]. }
    split.
    + unfold on_flat_edge. rewrite B. intros [[_ H]|[H _]]; now apply H.
    + unfold corner_centres.
      intros c [<-|[<-|[<-|[<-|[]]]]]; cbn [fst snd]; simpl INR; lra.
Defined.

(** *** An object that is not centred on whole pixels *)

Lemma corner_local_3_1 : corner_local 3 1 1 2 0 = (0, -1).
Proof.
  unfold corner_local. cbv zeta. simpl INR.
  rewrite (proj2 (ltb_ge (1 + 1) 1)) by lra.
  rewrite (proj2 (geb_le (1 + 1) (1 + 1 + 1 - 1))) by lra.
  rewrite (proj2 (ltb_lt 0 1)) by lra.
  f_equal; lra.
Qed.

Lemma in_ring_3_1 (inner : R) :
  inner <= 1 -> in_ring 1 inner (0, -1) = true.
Proof. intros H. apply in_ring_spec. lra. Qed.

Lemma displacement_values_red_on_axis (radius b : R) (table : list R) (y : R) :
  fst (displacement_values radius b (Finite 1) table (0, y)) = 128.
Proof.
  unfold displacement_values. cbv zeta. cbn [fst ext_gtb ext_div].
  rewrite (proj2 (gtb_lt 1 0)) by lra.
  set (op := edge_opacity _ _).
  set (dist := bezel_distance _ _ _ _).
  assert (C : (if gtb (Math_sqrt (0 * 0 + y * y)) 0
               then 0 / Math_sqrt (0 * 0 + y * y) else 0) = 0).
  { destruct (gtb _ _); [unfold Rdiv; ring|reflexivity]. }
  rewrite C.
  replace (128 + - 0 * dist / 1 * 127 * op) with 128 by (unfold Rdiv; ring).
  unfold Math_max, Math_min. rewrite Rmin_right by lra. apply Rmax_right. lra.
Qed.

Lemma displacement_pixel_length (cw ch ow oh : nat) (radius b : R) (m : ExtR)
    (table : list R) (data : list Z) (y1 x1 : nat) :
  length (displacement_pixel cw ch ow oh radius b m table data y1 x1) = length data.
Proof.
  unfold displacement_pixel. cbv zeta.
  destruct (in_ring _ _ _); [|reflexivity].
  destruct (displacement_values _ _ _ _ _). now rewrite !array_set_length.
Qed.

(** C5: the claim fails on the code where the object is not centred on
    whole pixels, by a slip in the centring: [objectX] and [objectY] are
    half the margins, unrounded, and go into the byte index as they are.
    With a 5 x 2 canvas and a 3 x 1 object of radius 1, [objectY] is 0.5,
    the last pixel of the object is stored from byte 22 on, and the pixel
    in column 0 of row 1, which is outside the object (columns 1 to 3),
    gets 128 in its blue channel instead of the neutral 0. *)
Theorem off_centre_object_marks_outside_pixel :
  exists img,
    _calculateDisplacementMap2D 5 2 3 1 1 1 (Finite 1) [1] = Ok img
    /\ ImageData.width img = 5%nat /\ ImageData.height img = 2%nat
    /\ ~ in_object_region 5 2 3 1 0 1
    /\ ImageData.data img !! 22%nat = Some 128%Z
    /\ ImageData.pixel img 0 1 <> neutral.
Proof.
  unfold _calculateDisplacementMap2D.
  rewrite ImageData_new_ok by lia. cbn [bind]. cbv zeta.
  eexists. split; [reflexivity|].
  split; [reflexivity|]. split; [reflexivity|].
  assert (D : ImageData.data
                (ImageData.with_data
                   (ImageData.mk 5 2 (replicate (4 * 5 * 2) 0%Z))
                   (for_pixels 3 1
                      (displacement_pixel 5 2 3 1 1 1 (Finite 1) [1])
                      (fill_neutral
                         (ImageData.data
                            (ImageData.mk 5 2 (replicate (4 * 5 * 2) 0%Z))))))
                !! 22%nat = Some 128%Z).
  { cbn [ImageData.data ImageData.with_data].
    unfold for_pixels. cbn [seq fold_left].
    set (d := displacement_pixel 5 2 3 1 1 1 (Finite 1) [1]
                (displacement_pixel 5 2 3 1 1 1 (Finite 1) [1]
                   (fill_neutral (replicate (4 * 5 * 2) 0%Z)) 0 0) 0 1).
    assert (Hlen : length d = 40%nat).
    { unfold d. rewrite !displacement_pixel_length, fill_neutral_length.
      apply length_replicate. }
    unfold displacement_pixel. cbv zeta.
    rewrite corner_local_3_1.
    rewrite in_ring_3_1
      by (unfold Math_max; apply Rmax_lub; lra).
    pose proof (displacement_values_red_on_axis 1 1 [1] (-1)) as Hred.
    destruct (displacement_values 1 1 (Finite 1) [1] (0, -1)) as [red green].
    cbn [fst] in Hred. subst red.
    rewrite (array_set4_at d _ 22) by (simpl INR; lra).
    rewrite ToUint8Clamp_128.
    apply (store4_lookup d 22). lia. }
  split; [|split; [exact D|]].
  - unfold in_object_region. cbv zeta. simpl INR. lra.
  - unfold ImageData.pixel, neutral.
    cbn [ImageData.width ImageData.with_data].
    change (4 * (1 * 5 + 0) + 2)%nat with 22%nat.
    rewrite D. intros E. discriminate E.
Qed.

(** ** A loop that stops

    The instance the constructor builds is at rest: its first tick leaves
    every spring on its target and requests no further frame. *)

Lemma setTarget_keeps (sp : Springs) (key k : SpringKey) (v : R) :
  Spring.value (setTarget sp key v k) = Spring.value (sp k)
  /\ Spring.velocity (setTarget sp key v k) = Spring.velocity (sp k)
  /\ Spring.stiffness (setTarget sp key v k) = Spring.stiffness (sp k)
  /\ Spring.damping (setTarget sp key v k) = Spring.damping (sp k).
Proof. unfold setTarget. destruct (SpringKey_eqb key k); repeat split. Qed.

Lemma set_targets_keeps (s : State) (sp : Springs) (k : SpringKey) :
  Spring.value (set_targets s sp k) = Spring.value (sp k)
  /\ Spring.velocity (set_targets s sp k) = Spring.velocity (sp k).
Proof.
  unfold set_targets.
  destruct (isDragging s), (gtb _ 50);
    repeat match goal with
           | |- context [setTarget ?a ?b ?c k] =>
               destruct (setTarget_keeps a b k c) as (-> & -> & _ & _)
           end; split; reflexivity.
Qed.

Lemma update_at_target (s : Spring.t) (dt : R) :
  Spring.target s = Spring.value s -> Spring.velocity s = 0 ->
  Spring.isSettled (Spring.update s dt) = true.
Proof.
  intros Ht Hv. unfold Spring.isSettled, Spring.update.
  cbn [Spring.target Spring.value Spring.velocity].
  rewrite Ht, Hv. apply andb_true_intro. unfold Math_abs.
  split; apply ltb_lt.
  - replace (_ - _) with 0 by ring. rewrite Rabs_R0. lra.
  - replace (_ + _) with 0 by ring. rewrite Rabs_R0. lra.
Qed.

Lemma squish_target_at_rest : squish_target 0 0 = 1.
Proof.
  unfold squish_target. replace (0 * 0 + 0 * 0) with 0 by ring. rewrite sqrt_0.
  destruct (Rlt_dec 50 0); [lra|reflexivity].
Qed.

Lemma constructed_loop_stops_at_first_tick (d : Dimensions) (frame : positive) :
  at_rest (fst (_animationLoop frame (constructed d)))
  /\ animationFrameId (fst (_animationLoop frame (constructed d))) = None
  /\ run [frame; frame] (_startAnimationLoop frame (constructed d))
     = fst (_animationLoop frame (_startAnimationLoop frame (constructed d))).
Proof.
  assert (R0 : at_rest (fst (_animationLoop frame (constructed d)))).
  { unfold at_rest, _animationLoop.
    cbn [fst springs state with_animationFrameId with_springs with_state
         constructed isDragging negb velocityX velocityY with_velocity].
    split; [|split; rewrite Rmult_0_l, Rabs_R0; lra].
    intros key. unfold update_all. apply update_at_target.
    - destruct (set_targets_keeps (mkState false 0 0 0 0 0 (Finite 0))
                  (initial_springs 400 25) key) as [-> _].
      destruct key;
        first [ rewrite set_targets_scaleX; cbn [velocityX velocityY];
                rewrite squish_target_at_rest; reflexivity
              | rewrite set_targets_scaleY; cbn [velocityX velocityY];
                rewrite squish_target_at_rest; reflexivity
              | erewrite set_targets_mode by reflexivity; reflexivity ].
    - destruct (set_targets_keeps (mkState false 0 0 0 0 0 (Finite 0))
                  (initial_springs 400 25) key) as [_ ->].
      destruct key; reflexivity. }
  split; [exact R0|]. split; [now apply tick_stops_iff|].
  rewrite run_step by (cbn; discriminate).
  apply run_idle. apply tick_stops_iff.
  unfold at_rest, _animationLoop in *.
  cbn [fst springs state with_animationFrameId with_springs with_state
       _startAnimationLoop constructed animationFrameId options defaultOptions
       springAnimation] in *.
  exact R0.
Qed.

(** * Further properties of the code *)

(** ** The profiles on [0, 1] *)

Lemma sqrt_unit (a : R) : 0 <= a <= 1 -> 0 <= sqrt a <= 1.
Proof.
  intros [H0 H1]. split; [apply sqrt_pos|].
  rewrite <- sqrt_1. now apply sqrt_le_1_alt.
Qed.

Lemma pow4_unit (a : R) : 0 <= a <= 1 -> 0 <= a ^ 4 <= 1.
Proof.
  intros [H0 H1]. split; [now apply pow_le|].
  apply Rle_trans with (1 ^ 4); [now apply pow_incr|]. rewrite pow1. lra.
Qed.

Lemma Math_pow_quarter_mono (a b : R) :
  0 <= a <= b -> 0 <= Math_pow a (1 / 4) <= Math_pow b (1 / 4).
Proof.
  intros [Ha Hab]. unfold Math_pow.
  destruct (Req_dec_T (1 / 4) 0); [lra|].
  destruct (Rlt_dec 0 a) as [Pa|Na].
  - destruct (Rlt_dec 0 b); [|lra].
    split; [left; apply exp_pos|].
    apply Rle_Rpower_l; lra.
  - destruct (Rlt_dec 0 b); [|lra].
    split; [lra|]. left. apply exp_pos.
Qed.

Lemma Math_pow_quarter_of_fourth (c : R) : 0 <= c -> Math_pow (c ^ 4) (1 / 4) = c.
Proof.
  intros Hc. unfold Math_pow.
  destruct (Req_dec_T (1 / 4) 0); [lra|].
  destruct (Rlt_dec 0 (c ^ 4)) as [P|N].
  - assert (Hpos : 0 < c) by (destruct Hc as [Hc|<-]; [assumption|lra]).
    rewrite <- (Rpower_pow 4 c Hpos), Rpower_mult.
    replace (INR 4 * (1 / 4)) with 1 by (simpl; lra).
    now apply Rpower_1.
  - destruct Hc as [Hc|<-]; [|reflexivity].
    exfalso. apply N. now apply pow_lt.
Qed.

Lemma Math_pow_quarter_le (b c : R) :
  0 <= b <= c ^ 4 -> 0 <= c -> 0 <= Math_pow b (1 / 4) <= c.
Proof.
  intros Hb Hc. pose proof (Math_pow_quarter_mono b (c ^ 4) Hb) as H.
  now rewrite (Math_pow_quarter_of_fourth c Hc) in H.
Qed.

Lemma lip_smootherstep_unit (x : R) :
  0 <= x <= 1 ->
  0 <= SurfaceEquations.lip_smootherstep x <= 1
  /\ SurfaceEquations.lip_smootherstep x <= 10 * x ^ 3.
Proof.
  intros [H0 H1]. unfold SurfaceEquations.lip_smootherstep, Math_powi.
  assert (S : 6 * x ^ 5 - 15 * x ^ 4 + 10 * x ^ 3
              = x ^ 3 * (6 * x ^ 2 - 15 * x + 10)) by ring.
  assert (T : 1 - (6 * x ^ 5 - 15 * x ^ 4 + 10 * x ^ 3)
              = (1 - x) ^ 3 * (6 * x ^ 2 + 3 * x + 1)) by ring.
  assert (X3 : 0 <= x ^ 3) by (apply pow_le; lra).
  assert (Y3 : 0 <= (1 - x) ^ 3) by (apply pow_le; lra).
  assert (Q1 : 0 <= 6 * x ^ 2 - 15 * x + 10 <= 10) by nra.
  assert (Q2 : 0 <= 6 * x ^ 2 + 3 * x + 1) by nra.
  repeat split.
  - rewrite S. apply Rmult_le_pos; lra.
  - assert (0 <= (1 - x) ^ 3 * (6 * x ^ 2 + 3 * x + 1)) by (apply Rmult_le_pos; lra).
    lra.
  - rewrite S. nra.
Qed.

(** X1: on [0, 1] every profile stays in [0, 1]: the three plain profiles
    and [lip], whose concave term alone may reach 1.1. *)
Theorem profiles_stay_in_unit_range (x : R) :
  0 <= x <= 1 ->
  0 <= SurfaceEquations.convex_circle x <= 1
  /\ 0 <= SurfaceEquations.convex_squircle x <= 1
  /\ 0 <= SurfaceEquations.concave x <= 1
  /\ 0 <= SurfaceEquations.lip x <= 1.
Proof.
  intros [H0 H1].
  assert (A2 : 0 <= 1 - (1 - x) ^ 2 <= 1) by nra.
  assert (B2 : 0 <= 1 - x ^ 2 <= 1) by nra.
  assert (P4 : 0 <= (1 - x) ^ 4 <= 1) by (apply pow4_unit; lra).
  split; [|split; [|split]].
  - unfold SurfaceEquations.convex_circle, Math_sqrt, Math_powi. now apply sqrt_unit.
  - unfold SurfaceEquations.convex_squircle, Math_powi.
    apply Math_pow_quarter_le; [|lra]. lra.
  - unfold SurfaceEquations.concave, Math_sqrt, Math_powi.
    pose proof (sqrt_unit _ B2). lra.
  - destruct (lip_smootherstep_unit x (conj H0 H1)) as [[S0 S1] S3].
    unfold SurfaceEquations.lip. cbv zeta.
    set (s := SurfaceEquations.lip_smootherstep x) in *.
    assert (M : 0 <= Math_min (x * 2) 1 <= 1).
    { unfold Math_min. split; [apply Rmin_glb; lra|apply Rmin_r]. }
    assert (M4 : 0 <= (1 - Math_min (x * 2) 1) ^ 4 <= 1) by (apply pow4_unit; lra).
    assert (Cv : 0 <= SurfaceEquations.lip_convex x <= 1).
    { unfold SurfaceEquations.lip_convex, Math_powi.
      apply Math_pow_quarter_le; lra. }
    assert (Cc : 0.1 <= SurfaceEquations.lip_concave x <= 1.1).
    { unfold SurfaceEquations.lip_concave, Math_sqrt, Math_powi.
      pose proof (sqrt_unit _ A2). lra. }
    split; [nra|].
    destruct (Rle_dec 0.01 x) as [Hx|Hx].
    + assert (Cc1 : SurfaceEquations.lip_concave x <= 1).
      { unfold SurfaceEquations.lip_concave, Math_sqrt, Math_powi.
        assert (0.1 <= sqrt (1 - (1 - x) ^ 2)); [|lra].
        replace 0.1 with (sqrt (0.1 * 0.1)) by (rewrite sqrt_square; lra).
        apply sqrt_le_1_alt. nra. }
      nra.
    + assert (Hx' : x < 0.01) by lra.
      assert (Cv6 : SurfaceEquations.lip_convex x <= 0.6).
      { unfold SurfaceEquations.lip_convex, Math_powi, Math_min.
        rewrite Rmin_left by lra.
        apply Math_pow_quarter_le; [|lra].
        split; [|].
        - assert (0 <= (1 - x * 2) ^ 4 <= 1) by (apply pow4_unit; lra). lra.
        - assert (0.98 ^ 4 <= (1 - x * 2) ^ 4) by (apply pow_incr; lra).
          lra. }
      assert (S5 : s <= 0.00001).
      { assert (x ^ 3 <= 0.01 ^ 3) by (apply pow_incr; lra). lra. }
      nra.
Qed.

Lemma profiles_stay_in_unit_range_witness :
  0 <= SurfaceEquations.lip (1 / 2) <= 1.
Proof.
  apply (profiles_stay_in_unit_range (1 / 2)). lra.
Defined.

(** X2: the three plain profiles do not decrease on [0, 1], and they go
    from 0 at [x = 0] to 1 at [x = 1]. *)
Theorem plain_profiles_increase (x x' : R) :
  0 <= x <= x' -> x' <= 1 ->
  SurfaceEquations.convex_circle x <= SurfaceEquations.convex_circle x'
  /\ SurfaceEquations.convex_squircle x <= SurfaceEquations.convex_squircle x'
  /\ SurfaceEquations.concave x <= SurfaceEquations.concave x'
  /\ SurfaceEquations.convex_circle 0 = 0 /\ SurfaceEquations.convex_circle 1 = 1
  /\ SurfaceEquations.convex_squircle 0 = 0 /\ SurfaceEquations.convex_squircle 1 = 1
  /\ SurfaceEquations.concave 0 = 0 /\ SurfaceEquations.concave 1 = 1.
Proof.
  intros [H0 Hx] H1.
  split; [|split; [|split]].
  - unfold SurfaceEquations.convex_circle, Math_sqrt, Math_powi.
    apply sqrt_le_1_alt. nra.
  - unfold SurfaceEquations.convex_squircle, Math_powi.
    apply Math_pow_quarter_mono.
    assert ((1 - x') ^ 4 <= (1 - x) ^ 4) by (apply pow_incr; lra).
    assert (0 <= (1 - x) ^ 4 <= 1) by (apply pow4_unit; lra).
    lra.
  - unfold SurfaceEquations.concave, Math_sqrt, Math_powi.
    assert (sqrt (1 - x' ^ 2) <= sqrt (1 - x ^ 2)) by (apply sqrt_le_1_alt; nra).
    lra.
  - unfold SurfaceEquations.convex_circle, SurfaceEquations.concave,
      Math_sqrt, Math_powi.
    replace (1 - (1 - 0) ^ 2) with 0 by lra.
    replace (1 - (1 - 1) ^ 2) with 1 by lra.
    replace (1 - 0 ^ 2) with 1 by lra.
    replace (1 - 1 ^ 2) with 0 by lra.
    rewrite sqrt_0, sqrt_1, convex_squircle_at_0, convex_squircle_at_1.
    repeat split; lra.
Qed.

Lemma plain_profiles_increase_witness :
  SurfaceEquations.convex_circle (1 / 4) <= SurfaceEquations.convex_circle (1 / 2).
Proof.
  apply (plain_profiles_increase (1 / 4) (1 / 2)); lra.
Defined.

(** ** Refraction *)

(** X3: for a unit normal, [refract] gives up exactly when [eta^2 (1 -
    ny^2) > 1] (total internal reflection); otherwise the direction it
    returns is a unit vector, points away from the normal, and obeys
    Snell's law against the vertical incident ray [(0, 1)]: its component
    across the normal is [eta] times that of the incident ray. *)
Theorem refract_obeys_snell (eta nx ny : R) :
  nx * nx + ny * ny = 1 ->
  match refract eta nx ny with
  | None => 1 < eta * eta * (1 - ny * ny)
  | Some (rx, ry) =>
      eta * eta * (1 - ny * ny) <= 1
      /\ rx * rx + ry * ry = 1
      /\ rx * ny - ry * nx = eta * (0 * ny - 1 * nx)
      /\ rx * nx + ry * ny <= 0
  end.
Proof.
  intros Hunit. unfold refract. cbv zeta.
  set (k := 1 - eta * eta * (1 - ny * ny)).
  destruct (ltb k 0) eqn:K.
  - apply ltb_lt in K. unfold k in K. lra.
  - apply ltb_ge in K. unfold Math_sqrt.
    assert (S : sqrt k * sqrt k = k) by now apply sqrt_sqrt.
    pose proof (sqrt_pos k) as Spos.
    set (s := sqrt k) in *.
    split; [unfold k in K; lra|]. split; [|split].
    + replace (- (eta * ny + s) * nx * (- (eta * ny + s) * nx)
               + (eta - (eta * ny + s) * ny) * (eta - (eta * ny + s) * ny))
        with ((eta * ny + s) * (eta * ny + s) * (nx * nx + ny * ny)
              - 2 * eta * ny * (eta * ny + s) + eta * eta) by ring.
      rewrite Hunit.
      replace ((eta * ny + s) * (eta * ny + s) * 1
               - 2 * eta * ny * (eta * ny + s) + eta * eta)
        with (s * s + eta * eta * (1 - ny * ny)) by ring.
      rewrite S. unfold k. ring.
    + ring.
    + replace (- (eta * ny + s) * nx * nx + (eta - (eta * ny + s) * ny) * ny)
        with (eta * ny - (eta * ny + s) * (nx * nx + ny * ny)) by ring.
      rewrite Hunit. lra.
Qed.

Lemma refract_obeys_snell_witness :
  match refract (2 / 3) 0 (-1) with
  | None => 1 < 2 / 3 * (2 / 3) * (1 - -1 * -1)
  | Some (rx, ry) =>
      2 / 3 * (2 / 3) * (1 - -1 * -1) <= 1
      /\ rx * rx + ry * ry = 1
      /\ rx * -1 - ry * 0 = 2 / 3 * (0 * -1 - 1 * 0)
      /\ rx * 0 + ry * -1 <= 0
  end.
Proof.
  apply (refract_obeys_snell (2 / 3) 0 (-1)). lra.
Defined.

(** X4: with a refractive index of at least 1 no sample is totally
    reflected: at every sample of every profile [refract] returns a
    direction, its vertical component is positive, so the quotient of the
    table entry is defined, and its horizontal component, hence the entry
    for a positive remaining height, has the sign of the surface slope. *)
Theorem dense_glass_always_refracts (profile : R -> R)
    (refractiveIndex bezelWidth glassThickness : R) (N i : nat) :
  1 <= refractiveIndex ->
  let x := INR i / INR N in
  let d := tangent_slope profile x in
  exists rx ry,
    refract (1 / refractiveIndex) (fst (inward_normal d)) (snd (inward_normal d))
    = Some (rx, ry)
    /\ 0 < ry
    /\ sample glassThickness bezelWidth (JsFunction profile)
         (1 / refractiveIndex) N i
       = Ok (rx * ((profile x * bezelWidth + glassThickness) / ry))
    /\ (0 <= d -> 0 <= rx)
    /\ (d <= 0 -> rx <= 0)
    /\ (0 < profile x * bezelWidth + glassThickness -> 0 <= d ->
          0 <= rx * ((profile x * bezelWidth + glassThickness) / ry)).
Proof.
  intros Hn x d.
  destruct (inward_normal_unit d) as (Hunit & [Hny1 Hny0] & Hnx).
  set (nx := fst (inward_normal d)) in *. set (ny := snd (inward_normal d)) in *.
  assert (Heta : 0 < 1 / refractiveIndex <= 1).
  { unfold Rdiv. rewrite Rmult_1_l. split; [apply Rinv_0_lt_compat; lra|].
    rewrite <- Rinv_1. apply Rinv_le_contravar; lra. }
  set (eta := 1 / refractiveIndex) in *.
  assert (Hny2 : 0 < ny * ny <= 1) by nra.
  assert (K : 0 <= 1 - eta * eta * (1 - ny * ny)) by nra.
  assert (S : sqrt (1 - eta * eta * (1 - ny * ny))
              * sqrt (1 - eta * eta * (1 - ny * ny))
              = 1 - eta * eta * (1 - ny * ny)) by now apply sqrt_sqrt.
  assert (Sge : eta * - ny <= sqrt (1 - eta * eta * (1 - ny * ny))).
  { rewrite <- (sqrt_square (eta * - ny)) by nra.
    apply sqrt_le_1_alt. nra. }
  set (s := sqrt (1 - eta * eta * (1 - ny * ny))) in *.
  assert (Hc : 0 <= eta * ny + s) by lra.
  assert (Hry : 0 < eta - (eta * ny + s) * ny) by nra.
  exists (- (eta * ny + s) * nx), (eta - (eta * ny + s) * ny).
  assert (Href : refract eta nx ny
                 = Some (- (eta * ny + s) * nx, eta - (eta * ny + s) * ny)).
  { unfold refract. cbv zeta. now rewrite (proj2 (ltb_ge _ 0)) by exact K. }
  split; [exact Href|]. split; [exact Hry|].
  assert (Hsign : forall h, 0 <= h -> 0 <= d -> 0 <= - (eta * ny + s) * nx * h).
  { intros h Hh Hd. rewrite Hnx.
    replace (- (eta * ny + s) * (d * ny) * h)
      with ((eta * ny + s) * (d * (- ny) * h)) by ring.
    apply Rmult_le_pos; [exact Hc|].
    apply Rmult_le_pos; [|exact Hh]. apply Rmult_le_pos; lra. }
  split; [|split; [|split]].
  - unfold sample, call, bind. cbv zeta. cbn [fst snd].
    fold x. fold (tangent_slope profile x). fold d.
    unfold Math_sqrt.
    replace (d * d + 1) with (d ^ 2 + 1) by ring.
    change (- d / sqrt (d ^ 2 + 1)) with nx.
    change (-1 / sqrt (d ^ 2 + 1)) with ny.
    rewrite Href. cbn [fst snd].
    destruct (Req_dec_T _ 0) as [E|_]; [lra|reflexivity].
  - intros Hd. pose proof (Hsign 1 ltac:(lra) Hd). lra.
  - intros Hd. rewrite Hnx.
    replace (- (eta * ny + s) * (d * ny)) with (- ((eta * ny + s) * (- d * - ny)))
      by ring.
    assert (0 <= (eta * ny + s) * (- d * - ny));
      [apply Rmult_le_pos; [exact Hc|apply Rmult_le_pos; lra]|lra].
  - intros Hh Hd.
    assert (Hq : 0 <= (profile x * bezelWidth + glassThickness)
                      / (eta - (eta * ny + s) * ny)).
    { unfold Rdiv. apply Rmult_le_pos; [lra|].
      left. now apply Rinv_0_lt_compat. }
    now apply Hsign.
Qed.

Lemma dense_glass_always_refracts_witness :
  exists rx ry,
    refract (1 / 1.5)
      (fst (inward_normal (tangent_slope SurfaceEquations.convex_squircle (INR 5 / INR 128))))
      (snd (inward_normal (tangent_slope SurfaceEquations.convex_squircle (INR 5 / INR 128))))
    = Some (rx, ry) /\ 0 < ry.
Proof.
  destruct (dense_glass_always_refracts SurfaceEquations.convex_squircle
              1.5 30 150 128 5) as (rx & ry & H1 & H2 & _); [lra|].
  exists rx, ry. split; assumption.
Defined.

(** X5: a profile of constant height, and a glass without bezel width
    and thickness, refract nothing: for a positive refractive index other
    than 1 every entry of the table is 0, the maximum displacement is 0,
    and the rasterizer is handed the divisor 1 in its place. *)
Theorem no_refraction_gives_zero_table (profile : R -> R)
    (refractiveIndex bezelWidth glassThickness : R) (samples : option nat) :
  0 < refractiveIndex -> refractiveIndex <> 1 ->
  (forall x y, profile x = profile y)
  \/ (bezelWidth = 0 /\ glassThickness = 0) ->
  exists table,
    _calculateDisplacementMap1D glassThickness bezelWidth (JsFunction profile)
      refractiveIndex samples = Ok table
    /\ length table = samples_or_default samples
    /\ Forall (fun v => v = 0) table
    /\ Math_max_apply (map Math_abs table) = Finite 0
    /\ ext_or_default (Math_max_apply (map Math_abs table)) 1 = Finite 1.
Proof. apply zero_table. Qed.

Lemma no_refraction_gives_zero_table_witness :
  exists table,
    _calculateDisplacementMap1D 150 30 (JsFunction (fun _ => 0.5)) 1.5 None
    = Ok table
    /\ Forall (fun v => v = 0) table.
Proof.
  destruct (no_refraction_gives_zero_table (fun _ => 0.5) 1.5 30 150 None)
    as (table & H1 & _ & H2 & _); [lra|lra|now left|].
  exists table. split; assumption.
Defined.

(** ** Springs that come to rest *)

Lemma updates_keeps (dt : R) (n : nat) (s : Spring.t) :
  Spring.target (updates dt n s) = Spring.target s
  /\ Spring.stiffness (updates dt n s) = Spring.stiffness s
  /\ Spring.damping (updates dt n s) = Spring.damping s.
Proof.
  induction n as [|n IH]; [repeat split|].
  change (updates dt (S n) s) with (Spring.update (updates dt n s) dt).
  exact IH.
Qed.

Lemma energy_after_updates (dt : R) (s : Spring.t) (n : nat) :
  spring_energy dt (Spring.update s dt)
  = (1 - Spring.damping s * dt) * spring_energy dt s
  /\ spring_energy dt (updates dt n s)
     = (1 - Spring.damping s * dt) ^ n * spring_energy dt s.
Proof.
  assert (Step : forall s', spring_energy dt (Spring.update s' dt)
                            = (1 - Spring.damping s' * dt) * spring_energy dt s').
  { intros s'. unfold spring_energy, Spring.update. cbv zeta.
    cbn [Spring.target Spring.value Spring.velocity Spring.stiffness
         Spring.damping]. ring. }
  split; [apply Step|].
  induction n as [|n IH]; [cbn; ring|].
  change (updates dt (S n) s) with (Spring.update (updates dt n s) dt).
  rewrite Step, IH.
  destruct (updates_keeps dt n s) as (_ & _ & ->). cbn [pow]. ring.
Qed.

(** X6: one [update(dt)] multiplies the energy of a spring by exactly
    [1 - damping * dt], whatever its state; so do [n] updates by the
    [n]-th power. *)
Theorem spring_energy_decays (dt : R) (s : Spring.t) (n : nat) :
  spring_energy dt (Spring.update s dt)
  = (1 - Spring.damping s * dt) * spring_energy dt s
  /\ spring_energy dt (updates dt n s)
     = (1 - Spring.damping s * dt) ^ n * spring_energy dt s.
Proof. apply energy_after_updates. Qed.

Lemma spring_energy_definite (dt : R) (s : Spring.t) :
  let k := Spring.stiffness s in
  let beta := 1 - Spring.damping s * dt in
  let m := Spring.stiffness s * dt - Spring.damping s in
  (k * beta - m ^ 2 / 4)
  * ((Spring.target s - Spring.value s) ^ 2 + Spring.velocity s ^ 2)
  <= (k + beta) * spring_energy dt s.
Proof.
  cbv zeta. unfold spring_energy. cbv zeta.
  set (k := Spring.stiffness s). set (c := Spring.damping s).
  set (e := Spring.target s - Spring.value s). set (v := Spring.velocity s).
  assert (H : (k + (1 - c * dt)) * (k * e ^ 2 + (k * dt - c) * e * v + (1 - c * dt) * v ^ 2)
              - (k * (1 - c * dt) - (k * dt - c) ^ 2 / 4) * (e ^ 2 + v ^ 2)
              = (k * e + (k * dt - c) / 2 * v) ^ 2
                + ((1 - c * dt) * v + (k * dt - c) / 2 * e) ^ 2) by field.
  pose proof (pow2_ge_0 (k * e + (k * dt - c) / 2 * v)).
  pose proof (pow2_ge_0 ((1 - c * dt) * v + (k * dt - c) / 2 * e)).
  lra.
Qed.

Lemma small_square (a : R) : a ^ 2 < 0.001 ^ 2 -> Rabs a < 0.001.
Proof.
  intros H. unfold Rabs. destruct (Rcase_abs a); nra.
Qed.

Lemma underdamped_settles (dt : R) (s : Spring.t) :
  underdamped dt s ->
  let k := Spring.stiffness s in
  let beta := 1 - Spring.damping s * dt in
  let m := Spring.stiffness s * dt - Spring.damping s in
  (forall n,
     (k * beta - m ^ 2 / 4)
     * ((Spring.target s - Spring.value (updates dt n s)) ^ 2
        + Spring.velocity (updates dt n s) ^ 2)
     <= (k + beta) * beta ^ n * spring_energy dt s)
  /\ exists N, forall n, (N <= n)%nat ->
       Spring.isSettled (updates dt n s) = true.
Proof.
  intros (Hk & [Hc0 Hc1] & Hdisc). cbv zeta.
  set (k := Spring.stiffness s) in *. set (c := Spring.damping s) in *.
  set (beta := 1 - c * dt). set (m := k * dt - c) in *.
  assert (HD : 0 < k * beta - m ^ 2 / 4) by (unfold beta; lra).
  assert (Hbeta : 0 < beta < 1) by (unfold beta; lra).
  assert (Bound : forall n,
            (k * beta - m ^ 2 / 4)
            * ((Spring.target s - Spring.value (updates dt n s)) ^ 2
               + Spring.velocity (updates dt n s) ^ 2)
            <= (k + beta) * beta ^ n * spring_energy dt s).
  { intros n. pose proof (spring_energy_definite dt (updates dt n s)) as P.
    cbv zeta in P.
    destruct (updates_keeps dt n s) as (Ht & Hs & Hd).
    rewrite Ht, Hs, Hd in P. fold k c beta m in P.
    destruct (energy_after_updates dt s n) as [_ E]. fold c beta in E.
    rewrite E in P. lra. }
  split; [exact Bound|].
  assert (E0 : 0 <= spring_energy dt s).
  { pose proof (Bound 0%nat) as B. cbn [pow] in B.
    assert (0 <= (Spring.target s - Spring.value (updates dt 0 s)) ^ 2
                 + Spring.velocity (updates dt 0 s) ^ 2).
    { pose proof (pow2_ge_0 (Spring.target s - Spring.value (updates dt 0 s))).
      pose proof (pow2_ge_0 (Spring.velocity (updates dt 0 s))). lra. }
    assert (0 <= (k + beta) * spring_energy dt s) by nra.
    assert (0 < k + beta) by lra. nra. }
  set (C := (k + beta) * spring_energy dt s).
  assert (HC : 0 <= C) by (unfold C; apply Rmult_le_pos; lra).
  assert (Hy : 0 < (k * beta - m ^ 2 / 4) * 0.001 ^ 2 / (C + 1)).
  { apply Rdiv_lt_0_compat; [|lra]. apply Rmult_lt_0_compat; lra. }
  destruct (pow_lt_1_zero beta) with (y := (k * beta - m ^ 2 / 4) * 0.001 ^ 2 / (C + 1))
    as [N HN].
  { rewrite Rabs_pos_eq; lra. }
  { exact Hy. }
  exists N. intros n Hn.
  pose proof (HN n ltac:(lia)) as Hsmall.
  rewrite Rabs_pos_eq in Hsmall by (apply pow_le; lra).
  assert (Hpow : 0 <= beta ^ n) by (apply pow_le; lra).
  assert (Hlt : C * beta ^ n < (k * beta - m ^ 2 / 4) * 0.001 ^ 2).
  { assert (beta ^ n * (C + 1) < (k * beta - m ^ 2 / 4) * 0.001 ^ 2).
    { apply (Rmult_lt_compat_r (C + 1)) in Hsmall; [|lra].
      unfold Rdiv in Hsmall. rewrite Rmult_assoc, Rinv_l, Rmult_1_r in Hsmall by lra.
      exact Hsmall. }
    nra. }
  pose proof (Bound n) as B. fold C in B.
  replace ((k + beta) * beta ^ n * spring_energy dt s) with (C * beta ^ n) in B
    by (unfold C; ring).
  set (e := Spring.target s - Spring.value (updates dt n s)) in *.
  set (v := Spring.velocity (updates dt n s)) in *.
  assert (Hsum : e ^ 2 + v ^ 2 < 0.001 ^ 2).
  { apply (Rmult_lt_reg_l (k * beta - m ^ 2 / 4)); [exact HD|]. lra. }
  pose proof (pow2_ge_0 e). pose proof (pow2_ge_0 v).
  unfold Spring.isSettled. destruct (updates_keeps dt n s) as (-> & _ & _).
  fold e v. unfold Math_abs.
  rewrite (proj2 (ltb_lt (Rabs e) 0.001)) by (apply small_square; lra).
  rewrite (proj2 (ltb_lt (Rabs v) 0.001)) by (apply small_square; lra).
  reflexivity.
Qed.


(** X7: an underdamped spring whose target is left alone comes to rest
    geometrically: after [n] updates the squared distance to the target
    plus the squared velocity is at most a constant times [(1 - damping *
    dt)^n], and from some update on [isSettled] holds for good. *)
Theorem underdamped_spring_settles (dt : R) (s : Spring.t) :
  underdamped dt s ->
  let k := Spring.stiffness s in
  let beta := 1 - Spring.damping s * dt in
  let m := Spring.stiffness s * dt - Spring.damping s in
  (forall n,
     (k * beta - m ^ 2 / 4)
     * ((Spring.target s - Spring.value (updates dt n s)) ^ 2
        + Spring.velocity (updates dt n s) ^ 2)
     <= (k + beta) * beta ^ n * spring_energy dt s)
  /\ exists N, forall n, (N <= n)%nat ->
       Spring.isSettled (updates dt n s) = true.
Proof. apply underdamped_settles. Qed.

Lemma default_scale_spring_underdamped (value : R) :
  underdamped (1 / 60) (Spring.new value (Some 400) (Some 25)).
Proof.
  unfold underdamped, Spring.new, or_default.
  cbn [Spring.stiffness Spring.damping].
  destruct (Req_dec_T 400 0); [lra|]. destruct (Req_dec_T 25 0); [lra|].
  lra.
Qed.

Lemma underdamped_spring_settles_witness :
  exists N, forall n, (N <= n)%nat ->
    Spring.isSettled
      (updates (1 / 60) n (Spring.setTarget (Spring.new 0.85 (Some 400) (Some 25)) 1))
    = true.
Proof.
  apply (underdamped_spring_settles (1 / 60)
           (Spring.setTarget (Spring.new 0.85 (Some 400) (Some 25)) 1)).
  apply (default_scale_spring_underdamped 0.85).
Defined.

(** ** The loop after a release *)

Lemma tick_step_is_sixtieth : Math_min 0.032 (1 / 60) = 1 / 60.
Proof. unfold Math_min. apply Rmin_right. lra. Qed.

Lemma tick_springs (frame : positive) (this : LiquidGlass) (key : SpringKey) :
  springs (fst (_animationLoop frame this)) key
  = Spring.update (set_targets (state this) (springs this) key) (1 / 60).
Proof.
  unfold _animationLoop. cbn [fst springs with_animationFrameId with_springs].
  unfold update_all. now rewrite tick_step_is_sixtieth.
Qed.

Lemma setTarget_at (sp : Springs) (key : SpringKey) (v : R) :
  setTarget sp key v key = Spring.setTarget (sp key) v.
Proof. unfold setTarget. destruct key; reflexivity. Qed.

Lemma set_targets_coasting (s : State) (sp : Springs) (key : SpringKey) :
  coasting s ->
  set_targets s sp key = Spring.setTarget (sp key) (idle_target key).
Proof.
  intros [Hidle Hslow]. unfold set_targets. rewrite Hidle.
  assert (G : gtb (Math_sqrt (velocityX s * velocityX s + velocityY s * velocityY s)) 50
              = false).
  { apply ltb_ge. unfold Math_sqrt.
    replace 50 with (sqrt (50 * 50)) by (apply sqrt_square; lra).
    apply sqrt_le_1_alt. lra. }
  rewrite G.
  destruct key; unfold idle_target; cbn [mode_target];
    repeat first [ rewrite setTarget_at
                 | rewrite setTarget_other by reflexivity ];
    reflexivity.
Qed.

Lemma tick_coasting (frame : positive) (this : LiquidGlass) :
  coasting (state this) ->
  coasting (state (fst (_animationLoop frame this)))
  /\ velocityX (state (fst (_animationLoop frame this))) = velocityX (state this) * 0.95
  /\ velocityY (state (fst (_animationLoop frame this))) = velocityY (state this) * 0.95.
Proof.
  intros [Hidle Hslow].
  destruct (tick_velocity frame this) as (VX & VY & D).
  rewrite Hidle in VX, VY, D. unfold coasting. rewrite VX, VY, D.
  repeat split. nra.
Qed.

Lemma ticks_cons (frame : positive) (frames : list positive) (this : LiquidGlass) :
  ticks (frame :: frames) this = ticks frames (fst (_animationLoop frame this)).
Proof. reflexivity. Qed.

Lemma ticks_released (frames : list positive) (this : LiquidGlass) :
  isDragging (state this) = false ->
  isDragging (state (ticks frames this)) = false
  /\ velocityX (state (ticks frames this))
     = velocityX (state this) * 0.95 ^ length frames
  /\ velocityY (state (ticks frames this))
     = velocityY (state this) * 0.95 ^ length frames.
Proof.
  revert this. induction frames as [|frame frames IH]; intros this Hidle.
  - cbn. repeat split; [exact Hidle|ring|ring].
  - rewrite ticks_cons.
    destruct (tick_velocity frame this) as (VX & VY & D).
    rewrite Hidle in VX, VY, D.
    destruct (IH _ D) as (I1 & I2 & I3).
    rewrite I1, I2, I3, VX, VY. cbn [length pow]. repeat split; ring.
Qed.

Lemma ticks_coasting (frames : list positive) (this : LiquidGlass) :
  coasting (state this) -> coasting (state (ticks frames this)).
Proof.
  revert this. induction frames as [|frame frames IH]; intros this H; [exact H|].
  rewrite ticks_cons. apply IH. now apply tick_coasting.
Qed.

Lemma Spring_setTarget_same (s : Spring.t) :
  Spring.setTarget s (Spring.target s) = s.
Proof. destruct s. reflexivity. Qed.

Lemma ticks_coasting_springs (frames : list positive) (frame : positive)
    (this : LiquidGlass) (key : SpringKey) :
  coasting (state this) ->
  springs (ticks (frames ++ [frame]) this) key
  = updates (1 / 60) (S (length frames))
      (Spring.setTarget (springs this key) (idle_target key)).
Proof.
  intros Hcoast. revert frame.
  induction frames as [|frame' frames IH] using rev_ind; intros frame.
  - cbn [app ticks fold_left length]. rewrite tick_springs.
    now rewrite set_targets_coasting.
  - rewrite ticks_snoc, tick_springs.
    rewrite set_targets_coasting by now apply ticks_coasting.
    rewrite IH.
    set (s0 := Spring.setTarget (springs this key) (idle_target key)).
    destruct (updates_keeps (1 / 60) (S (length frames)) s0) as (Ht & _ & _).
    replace (idle_target key)
      with (Spring.target (updates (1 / 60) (S (length frames)) s0))
      by (rewrite Ht; reflexivity).
    rewrite Spring_setTarget_same.
    rewrite length_app. cbn [length].
    replace (length frames + 1)%nat with (S (length frames)) by lia.
    reflexivity.
Qed.

Lemma bound_for_all_keys (P : SpringKey -> nat -> Prop) :
  (forall key, exists N, forall n, (N <= n)%nat -> P key n) ->
  exists N, forall key n, (N <= n)%nat -> P key n.
Proof.
  intros H.
  destruct (H scale) as [N1 H1]. destruct (H scaleX) as [N2 H2].
  destruct (H scaleY) as [N3 H3]. destruct (H shadowOffsetX) as [N4 H4].
  destruct (H shadowOffsetY) as [N5 H5]. destruct (H shadowBlur) as [N6 H6].
  destruct (H shadowAlpha) as [N7 H7]. destruct (H refractionBoost) as [N8 H8].
  exists (N1 + N2 + N3 + N4 + N5 + N6 + N7 + N8)%nat.
  intros key n Hn.
  destruct key; [apply H1|apply H2|apply H3|apply H4|apply H5|apply H6|apply H7|apply H8];
    lia.
Qed.

Lemma released_pointer_slows_down (this : LiquidGlass) :
  isDragging (state this) = false ->
  exists K, forall frames, (K <= length frames)%nat ->
    coasting (state (ticks frames this))
    /\ Rabs (velocityX (state (ticks frames this))) < 1
    /\ Rabs (velocityY (state (ticks frames this))) < 1.
Proof.
  intros Hidle.
  set (a := Rabs (velocityX (state this))). set (b := Rabs (velocityY (state this))).
  assert (Ha : 0 <= a) by apply Rabs_pos. assert (Hb : 0 <= b) by apply Rabs_pos.
  destruct (pow_lt_1_zero 0.95) with (y := / (a + b + 1)) as [K HK].
  { rewrite Rabs_pos_eq; lra. }
  { apply Rinv_0_lt_compat. lra. }
  exists K. intros frames Hlen.
  destruct (ticks_released frames this Hidle) as (D & VX & VY).
  pose proof (HK (length frames) ltac:(lia)) as Hp.
  rewrite Rabs_pos_eq in Hp by (apply pow_le; lra).
  assert (Hp0 : 0 <= 0.95 ^ length frames) by (apply pow_le; lra).
  set (p := 0.95 ^ length frames) in *.
  assert (Hy : / (a + b + 1) * (a + b + 1) = 1) by (apply Rinv_l; lra).
  assert (Hy0 : 0 < / (a + b + 1)) by (apply Rinv_0_lt_compat; lra).
  set (y := / (a + b + 1)) in *.
  assert (Hap : a * p < 1) by nra.
  assert (Hbp : b * p < 1) by nra.
  assert (AX : Rabs (velocityX (state (ticks frames this))) = a * p).
  { rewrite VX, Rabs_mult. fold a. f_equal. now apply Rabs_pos_eq. }
  assert (AY : Rabs (velocityY (state (ticks frames this))) = b * p).
  { rewrite VY, Rabs_mult. fold b. f_equal. now apply Rabs_pos_eq. }
  split; [|rewrite AX, AY; split; assumption].
  split; [exact D|].
  assert (SX : velocityX (state (ticks frames this)) ^ 2 = (a * p) ^ 2).
  { rewrite <- AX. rewrite <- !Rsqr_pow2. apply Rsqr_abs. }
  assert (SY : velocityY (state (ticks frames this)) ^ 2 = (b * p) ^ 2).
  { rewrite <- AY. rewrite <- !Rsqr_pow2. apply Rsqr_abs. }
  rewrite SX, SY.
  assert (0 <= a * p) by (apply Rmult_le_pos; lra).
  assert (0 <= b * p) by (apply Rmult_le_pos; lra).
  nra.
Qed.

Lemma run_stops_at_rest (frames : list positive) (this : LiquidGlass) :
  animationFrameId this <> None ->
  (exists k, (1 <= k <= length frames)%nat /\ at_rest (ticks (take k frames) this)) ->
  animationFrameId (run frames this) = None /\ at_rest (run frames this).
Proof.
  revert this. induction frames as [|frame frames IH]; intros this Hrun (k & Hk & Hrest).
  - cbn in Hk. lia.
  - rewrite run_step by assumption.
    destruct (tick_stops_iff frame this) as [S1 S2].
    destruct (animationFrameId (fst (_animationLoop frame this))) as [id|] eqn:A.
    + apply IH; [rewrite A; discriminate|].
      destruct k as [|[|k]]; [lia| |].
      * exfalso. cbn in Hrest. apply S1 in Hrest. discriminate.
      * exists (S k). split; [cbn in Hk; lia|]. exact Hrest.
    + rewrite run_idle by exact A. split; [exact A|now apply S1].
Qed.

Lemma setTarget_underdamped (dt : R) (s : Spring.t) (target : R) :
  underdamped dt s -> underdamped dt (Spring.setTarget s target).
Proof. intros H. exact H. Qed.

Lemma set_targets_parameters (s : State) (sp : Springs) (key : SpringKey) :
  Spring.stiffness (set_targets s sp key) = Spring.stiffness (sp key)
  /\ Spring.damping (set_targets s sp key) = Spring.damping (sp key).
Proof.
  unfold set_targets.
  destruct (isDragging s), (gtb _ 50);
    repeat match goal with
           | |- context [setTarget ?a ?b ?c key] =>
               destruct (setTarget_keeps a b key c) as (_ & _ & -> & ->)
           end; split; reflexivity.
Qed.

Lemma ticks_underdamped (frames : list positive) (this : LiquidGlass) :
  (forall key, underdamped (1 / 60) (springs this key)) ->
  forall key, underdamped (1 / 60) (springs (ticks frames this) key).
Proof.
  revert this. induction frames as [|f fs IH]; intros this Hunder; [exact Hunder|].
  rewrite ticks_cons. apply IH. intros key. rewrite tick_springs.
  pose proof (Hunder key) as U. unfold underdamped in *.
  unfold Spring.update. cbn [Spring.stiffness Spring.damping].
  destruct (set_targets_parameters (state this) (springs this) key) as [-> ->].
  exact U.
Qed.

Lemma released_glass_rests (this : LiquidGlass) :
  isDragging (state this) = false ->
  (forall key, underdamped (1 / 60) (springs this key)) ->
  exists N, (1 <= N)%nat /\ forall frames, (N <= length frames)%nat ->
    at_rest (ticks frames this).
Proof.
  intros Hidle Hunder.
  destruct (released_pointer_slows_down this Hidle) as [K HK].
  set (mid := ticks (repeat xH K) this).
  assert (Hmid : coasting (state mid)).
  { apply HK. now rewrite repeat_length. }
  assert (Umid : forall key, underdamped (1 / 60) (springs mid key))
    by now apply ticks_underdamped.
  destruct (bound_for_all_keys
              (fun key n =>
                 Spring.isSettled
                   (updates (1 / 60) n
                      (Spring.setTarget (springs mid key) (idle_target key)))
                 = true)) as [N HN].
  { intros key. apply underdamped_settles. apply setTarget_underdamped. apply Umid. }
  exists (K + S N)%nat. split; [lia|]. intros frames Hlen.
  destruct (HK frames ltac:(lia)) as (_ & VX & VY).
  split; [|split; assumption].
  intros key.
  rewrite <- (firstn_skipn K frames).
  unfold ticks at 1. rewrite fold_left_app.
  fold (ticks (firstn K frames) this).
  fold (ticks (skipn K frames) (ticks (firstn K frames) this)).
  assert (L1 : length (firstn K frames) = K) by (rewrite length_firstn; lia).
  assert (L2 : (S N <= length (skipn K frames))%nat) by (rewrite length_skipn; lia).
  destruct (exists_last (l := skipn K frames)) as (rest & last & E).
  { intros E. rewrite E in L2. cbn in L2. lia. }
  rewrite E in *. rewrite length_app in L2. cbn [length] in L2.
  rewrite ticks_coasting_springs by (apply HK; lia).
  assert (Same : forall fs fs' (t : LiquidGlass),
            length fs = length fs' ->
            springs (ticks fs t) = springs (ticks fs' t)
            /\ state (ticks fs t) = state (ticks fs' t)).
  { clear. intros fs fs' t Hl.
    assert (G : forall fs fs' (t t' : LiquidGlass),
              length fs = length fs' -> springs t = springs t' ->
              state t = state t' ->
              springs (ticks fs t) = springs (ticks fs' t')
              /\ state (ticks fs t) = state (ticks fs' t')).
    { clear. induction fs as [|f fs IH]; intros [|f' fs'] t t' Hl Hs Hst;
        try discriminate; [split; assumption|].
      rewrite !ticks_cons. apply IH; [now injection Hl| |].
      - unfold _animationLoop.
        cbn [fst springs with_animationFrameId with_springs]. now rewrite Hs, Hst.
      - unfold _animationLoop.
        cbn [fst state with_animationFrameId with_springs with_state].
        now rewrite Hst. }
    now apply G. }
  destruct (Same (firstn K frames) (repeat xH K) this) as [Es _].
  { now rewrite L1, repeat_length. }
  fold mid in Es. rewrite Es.
  apply HN. lia.
Qed.

(** X8: once the pointer is released, a glass whose eight springs are
    underdamped for the tick of 1/60 s comes to rest: after some number of
    ticks every spring is settled and both residual velocities are below
    1, for good, so a running loop stops requesting frames and ends at
    rest. *)
Theorem released_glass_comes_to_rest (this : LiquidGlass) :
  isDragging (state this) = false ->
  (forall key, underdamped (1 / 60) (springs this key)) ->
  exists N, forall frames, (N <= length frames)%nat ->
    at_rest (ticks frames this)
    /\ (animationFrameId this <> None ->
          animationFrameId (run frames this) = None /\ at_rest (run frames this)).
Proof.
  intros Hidle Hunder.
  destruct (released_glass_rests this Hidle Hunder) as (N & HN1 & HN).
  exists N. intros frames Hlen. split; [now apply HN|].
  intros Hrun. apply run_stops_at_rest; [exact Hrun|].
  exists (length frames). split; [lia|].
  rewrite firstn_all. now apply HN.
Qed.

Lemma default_springs_underdamped (key : SpringKey) :
  underdamped (1 / 60) (initial_springs 400 25 key).
Proof.
  unfold underdamped. destruct key; cbn [initial_springs Spring.new Spring.stiffness Spring.damping];
    unfold or_default;
    repeat match goal with
           | |- context [Req_dec_T ?a 0] => destruct (Req_dec_T a 0); [lra|]
           end; lra.
Qed.

Lemma released_glass_comes_to_rest_witness :
  exists N, forall frames, (N <= length frames)%nat ->
    at_rest (ticks frames (flicked (constructed (mkDimensions 4 4 1))))
    /\ (animationFrameId (flicked (constructed (mkDimensions 4 4 1))) <> None ->
          animationFrameId (run frames (flicked (constructed (mkDimensions 4 4 1)))) = None
          /\ at_rest (run frames (flicked (constructed (mkDimensions 4 4 1))))).
Proof.
  apply (released_glass_comes_to_rest (flicked (constructed (mkDimensions 4 4 1)))).
  - reflexivity.
  - intros key. apply default_springs_underdamped.
Defined.

Lemma squish_target_bounds (a b : R) :
  0.925 <= squish_target a b <= 1.15
  /\ 2 <= squish_target a b + squish_target b a.
Proof.
  unfold squish_target. cbv zeta.
  replace (b * b + a * a) with (a * a + b * b) by ring.
  set (m := sqrt (a * a + b * b)).
  destruct (Rlt_dec 50 m) as [Hm|Hm]; [|lra].
  assert (Q : 0 <= a * a + b * b) by nra.
  assert (M2 : m * m = a * a + b * b) by now apply sqrt_sqrt.
  assert (Hs : 0 <= Rmin 0.15 (m / 3000) <= 0.15).
  { split; [apply Rmin_glb; lra|apply Rmin_l]. }
  set (s := Rmin 0.15 (m / 3000)) in *.
  assert (N : forall c, c * c <= m * m -> 0 <= Rabs (c / m) <= 1).
  { intros c Hc. split; [apply Rabs_pos|].
    unfold Rdiv. rewrite Rabs_mult, (Rabs_pos_eq (/ m))
      by (left; apply Rinv_0_lt_compat; lra).
    apply (Rmult_le_reg_r m); [lra|].
    rewrite Rmult_assoc, Rinv_l, Rmult_1_r, Rmult_1_l by lra.
    unfold Rabs. destruct (Rcase_abs c); nra. }
  destruct (N a ltac:(nra)) as [A0 A1]. destruct (N b ltac:(nra)) as [B0 B1].
  set (A := Rabs (a / m)) in *. set (B := Rabs (b / m)) in *.
  repeat split; nra.
Qed.

(** X9: the squish never deforms the glass by more than 15 %: after a tick
    the targets of [scaleX] and [scaleY] lie between 0.925 and 1.15
    whatever the pointer velocity, and their sum is at least 2. *)
Theorem squish_is_bounded (frame : positive) (this : LiquidGlass) :
  let next := fst (_animationLoop frame this) in
  0.925 <= Spring.target (springs next scaleX) <= 1.15
  /\ 0.925 <= Spring.target (springs next scaleY) <= 1.15
  /\ 2 <= Spring.target (springs next scaleX) + Spring.target (springs next scaleY).
Proof.
  cbv zeta. unfold _animationLoop. cbn [fst springs with_animationFrameId with_springs].
  rewrite !update_all_target, set_targets_scaleX, set_targets_scaleY.
  destruct (squish_target_bounds (velocityX (state this)) (velocityY (state this)))
    as [X S].
  destruct (squish_target_bounds (velocityY (state this)) (velocityX (state this)))
    as [Y _].
  repeat split; lra.
Qed.

(** X10: for an element without a parent [_drag] returns at once and
    changes nothing.  For an element with a parent it never divides by a
    vanishing time step: the elapsed time counts as at least 1 ms, so each
    velocity component is at most 1000 times the distance moved, it is the
    distance over the elapsed seconds when at least 1 ms has passed, and
    the pointer sample is stored. *)
Theorem drag_velocity_is_bounded (parentRect : option DOMRect)
    (now clientX clientY : R) (this : LiquidGlass) :
  let s := state this in
  let next := state (_drag parentRect now clientX clientY this) in
  match parentRect with
  | None => _drag parentRect now clientX clientY this = this
  | Some _ =>
      Rabs (velocityX next) <= 1000 * Rabs (clientX - lastX s)
      /\ Rabs (velocityY next) <= 1000 * Rabs (clientY - lastY s)
      /\ (1 <= now - lastTime s ->
            velocityX next = (clientX - lastX s) / ((now - lastTime s) / 1000)
            /\ velocityY next = (clientY - lastY s) / ((now - lastTime s) / 1000))
      /\ (now - lastTime s <= 1 ->
            velocityX next = 1000 * (clientX - lastX s)
            /\ velocityY next = 1000 * (clientY - lastY s))
      /\ lastX next = clientX /\ lastY next = clientY /\ lastTime next = now
      /\ isDragging next = isDragging s
      /\ maximumDisplacement next = maximumDisplacement s
      /\ options (_drag parentRect now clientX clientY this) = options this
      /\ springs (_drag parentRect now clientX clientY this) = springs this
      /\ animationFrameId (_drag parentRect now clientX clientY this)
         = animationFrameId this
  end.
Proof.
  cbv zeta. destruct parentRect as [rect|]; [|reflexivity].
  unfold _drag. cbv zeta.
  cbn [state with_state velocityX velocityY lastX lastY lastTime isDragging
       maximumDisplacement options springs animationFrameId].
  unfold Math_max.
  set (e := Rmax 1 (now - lastTime (state this))).
  assert (He : 1 <= e) by apply Rmax_l.
  assert (Hinv : 0 < / (e / 1000) <= 1000).
  { assert (0 < e / 1000) by lra.
    split; [now apply Rinv_0_lt_compat|].
    replace 1000 with (/ (1 / 1000)) at 2 by field.
    apply Rinv_le_contravar; lra. }
  assert (B : forall d, Rabs (d / (e / 1000)) <= 1000 * Rabs d).
  { intros d. unfold Rdiv at 1. rewrite Rabs_mult.
    rewrite (Rabs_pos_eq (/ _)) by lra.
    pose proof (Rabs_pos d). nra. }
  split; [apply B|]. split; [apply B|]. split; [|split].
  - intros H. unfold e. rewrite Rmax_right by lra. split; reflexivity.
  - intros H. unfold e. rewrite Rmax_left by lra. split; field.
  - repeat split.
Qed.

(** X11: frame requests never pile up: [_startAnimationLoop] leaves an
    instance with a pending frame alone, so starting twice is starting
    once; afterwards a frame is pending exactly when one was pending
    before or [springAnimation] is on; nothing but the handle changes. *)
Theorem startAnimationLoop_is_idempotent (frame frame' : positive)
    (this : LiquidGlass) :
  _startAnimationLoop frame' (_startAnimationLoop frame this)
  = _startAnimationLoop frame this
  /\ (animationFrameId this <> None -> _startAnimationLoop frame this = this)
  /\ (animationFrameId (_startAnimationLoop frame this) <> None
      <-> animationFrameId this <> None \/ springAnimation (options this) = true)
  /\ state (_startAnimationLoop frame this) = state this
  /\ springs (_startAnimationLoop frame this) = springs this
  /\ options (_startAnimationLoop frame this) = options this.
Proof.
  unfold _startAnimationLoop.
  destruct (animationFrameId this) as [id|] eqn:A.
  - rewrite A. repeat split; auto; try discriminate.
  - destruct (springAnimation (options this)) eqn:S.
    + cbn [animationFrameId with_animationFrameId options state springs].
      rewrite ?S. repeat split; auto; try discriminate; try congruence.
    + rewrite A, S. repeat split; auto; try congruence.
      intros [H|H]; congruence.
Qed.

(** X12: releasing is idempotent and harmless without a drag: [_endDrag]
    on an instance that is not being dragged changes nothing, ending a
    drag twice is ending it once, and ending a drag keeps the velocity the
    decay starts from, clears [isDragging] and, with [springAnimation] on,
    leaves a frame pending. *)
Theorem endDrag_is_idempotent (frame frame' : positive) (this : LiquidGlass) :
  (isDragging (state this) = false -> _endDrag frame this = this)
  /\ _endDrag frame' (_endDrag frame this) = _endDrag frame this
  /\ isDragging (state (_endDrag frame this)) = false
  /\ velocityX (state (_endDrag frame this)) = velocityX (state this)
  /\ velocityY (state (_endDrag frame this)) = velocityY (state this)
  /\ (isDragging (state this) = true -> springAnimation (options this) = true ->
        animationFrameId (_endDrag frame this) <> None).
Proof.
  unfold _endDrag. cbv zeta.
  destruct (isDragging (state this)) eqn:D; cbn [negb].
  - unfold _startAnimationLoop.
    cbn [animationFrameId with_state options state].
    destruct (animationFrameId this) as [id|] eqn:A;
      [|destruct (springAnimation (options this)) eqn:S];
      cbn [state with_state with_animationFrameId isDragging negb velocityX
           velocityY animationFrameId];
      repeat split; auto; try discriminate; try congruence.
  - rewrite D. cbn [negb]. repeat split; auto; discriminate.
Qed.

(** ** What the displacement map holds *)

(** X13: in a canvas that leaves whole-pixel margins [ox], [oy] around the
    object, the object pixel [(x1, y1)] lands on the canvas pixel [(ox +
    x1, oy + y1)]: if its squared corner-local distance is in the bezel
    ring, that canvas pixel holds the two encoded displacements in red
    and green, 0 in blue and 255 in alpha, and no other pixel of the
    object overwrites it. *)
Theorem displacement_map_bezel_pixel (ow oh ox oy : nat) (radius bezelWidth : R)
    (maximumDisplacement : ExtR) (precomputedMap : list R) (x1 y1 : nat) :
  (x1 < ow)%nat -> (y1 < oh)%nat ->
  let xy := corner_local ow oh radius x1 y1 in
  in_bezel_ring radius bezelWidth (fst xy) (snd xy) ->
  exists img,
    _calculateDisplacementMap2D (ow + 2 * ox) (oh + 2 * oy) ow oh radius
      bezelWidth maximumDisplacement precomputedMap = Ok img
    /\ ImageData.pixel img (ox + x1) (oy + y1)
       = [Some (ToUint8Clamp
                  (fst (displacement_values radius bezelWidth maximumDisplacement
                          precomputedMap xy)));
          Some (ToUint8Clamp
                  (snd (displacement_values radius bezelWidth maximumDisplacement
                          precomputedMap xy)));
          Some 0%Z; Some 255%Z].
Proof.
  intros Hx Hy xy Hring.
  destruct (displacement_map_stored ow oh ox oy radius bezelWidth
              maximumDisplacement precomputedMap) as (img & E & P); [lia|lia|].
  exists img. split; [exact E|].
  apply P; [exact Hx|exact Hy|].
  unfold displacement_bytes. cbn [fst snd]. fold xy.
  destruct xy as [x y] eqn:Exy. cbn [fst snd] in Hring.
  rewrite (proj2 (in_ring_spec radius _ x y)) by exact Hring.
  destruct (displacement_values _ _ _ _ _). reflexivity.
Qed.

Lemma displacement_map_bezel_pixel_witness :
  exists img,
    _calculateDisplacementMap2D (3 + 2 * 1) (1 + 2 * 0) 3 1 1 1 (Finite 1) [1] = Ok img
    /\ ImageData.pixel img (1 + 2) (0 + 0)
       = [Some (ToUint8Clamp (fst (displacement_values 1 1 (Finite 1) [1]
                                     (corner_local 3 1 1 2 0))));
          Some (ToUint8Clamp (snd (displacement_values 1 1 (Finite 1) [1]
                                     (corner_local 3 1 1 2 0))));
          Some 0%Z; Some 255%Z].
Proof.
  apply (displacement_map_bezel_pixel 3 1 1 0 1 1 (Finite 1) [1] 2 0); try lia.
  rewrite corner_local_3_1. unfold in_bezel_ring. cbn [fst snd].
  split; [apply Rmax_lub; lra|lra].
Defined.

Lemma edge_opacity_unit (radius d2 : R) :
  0 <= radius -> 0 <= d2 <= (radius + 1) * (radius + 1) ->
  0 <= edge_opacity radius d2 <= 1.
Proof.
  intros Hr [H0 H1]. unfold edge_opacity. cbv zeta.
  destruct (ltb d2 (radius * radius)) eqn:L; [lra|].
  apply ltb_ge in L. unfold Math_sqrt.
  rewrite !sqrt_square by lra.
  assert (D : radius <= sqrt d2 <= radius + 1).
  { split.
    - rewrite <- (sqrt_square radius) at 1 by lra. now apply sqrt_le_1_alt.
    - rewrite <- (sqrt_square (radius + 1)) by lra. now apply sqrt_le_1_alt. }
  replace (radius + 1 - radius) with 1 by ring. lra.
Qed.

Lemma direction_in_unit_disc (x y : R) :
  let d := Math_sqrt (x * x + y * y) in
  let c := if gtb d 0 then x / d else 0 in
  let s := if gtb d 0 then y / d else 0 in
  c * c + s * s <= 1.
Proof.
  cbv zeta. unfold Math_sqrt.
  assert (Q : 0 <= x * x + y * y) by nra.
  assert (M : sqrt (x * x + y * y) * sqrt (x * x + y * y) = x * x + y * y)
    by now apply sqrt_sqrt.
  set (d := sqrt (x * x + y * y)) in *.
  destruct (gtb d 0) eqn:G; [|lra].
  apply gtb_lt in G.
  assert (I : / d * d = 1) by (apply Rinv_l; lra).
  unfold Rdiv.
  replace (x * / d * (x * / d) + y * / d * (y * / d))
    with ((x * x + y * y) * (/ d * / d)) by ring.
  rewrite <- M.
  replace (d * d * (/ d * / d)) with ((/ d * d) * (/ d * d)) by ring.
  rewrite I. lra.
Qed.

(** X14: when the divisor bounds every entry of the table, as the maximum
    [_updateFilter] passes does, and the radius is not negative, the
    encoding of a bezel pixel needs no clamping: the displacement [(red -
    128, green - 128)] has length at most 127, so both channels lie
    between 1 and 255. *)
Theorem displacement_needs_no_clamp (radius bezelWidth r : R) (table : list R)
    (x y : R) :
  0 <= radius ->
  in_bezel_ring radius bezelWidth x y ->
  Forall (fun v => Rabs v <= r) table ->
  let red := fst (displacement_values radius bezelWidth (Finite r) table (x, y)) in
  let green := snd (displacement_values radius bezelWidth (Finite r) table (x, y)) in
  (red - 128) ^ 2 + (green - 128) ^ 2 <= 127 ^ 2
  /\ 1 <= red <= 255 /\ 1 <= green <= 255.
Proof.
  intros Hr [Hin Hout] Hall. cbv zeta.
  unfold displacement_values. cbv zeta. cbn [ext_gtb ext_div].
  assert (Q : 0 <= x * x + y * y) by nra.
  pose proof (edge_opacity_unit radius (x * x + y * y) Hr (conj Q Hout)) as Hop.
  pose proof (direction_in_unit_disc x y) as Hdir. cbv zeta in Hdir.
  set (op := edge_opacity radius (x * x + y * y)) in *.
  set (c := if gtb (Math_sqrt (x * x + y * y)) 0
            then x / Math_sqrt (x * x + y * y) else 0) in *.
  set (s := if gtb (Math_sqrt (x * x + y * y)) 0
            then y / Math_sqrt (x * x + y * y) else 0) in *.
  set (dist := bezel_distance _ _ _ _).
  assert (Hdist : 0 < r -> Rabs dist <= r).
  { intros Hpos. unfold dist.
    destruct (bezel_distance_cases radius bezelWidth table
                (Math_sqrt (x * x + y * y))) as [->|Hin'].
    - rewrite Rabs_R0. lra.
    - rewrite List.Forall_forall in Hall. now apply Hall. }
  assert (Main : forall dX dY,
            dX * dX + dY * dY <= 1 ->
            (Math_max 0 (Math_min 255 (128 + dX * 127 * op)) - 128) ^ 2
            + (Math_max 0 (Math_min 255 (128 + dY * 127 * op)) - 128) ^ 2 <= 127 ^ 2
            /\ 1 <= Math_max 0 (Math_min 255 (128 + dX * 127 * op)) <= 255
            /\ 1 <= Math_max 0 (Math_min 255 (128 + dY * 127 * op)) <= 255).
  { intros dX dY Hd.
    assert (HX : -1 <= dX * op <= 1) by nra.
    assert (HY : -1 <= dY * op <= 1) by nra.
    unfold Math_max, Math_min.
    rewrite (Rmin_right 255 (128 + dX * 127 * op)) by lra.
    rewrite (Rmin_right 255 (128 + dY * 127 * op)) by lra.
    rewrite !Rmax_right by lra.
    split; [|split; lra].
    replace ((128 + dX * 127 * op - 128) ^ 2 + (128 + dY * 127 * op - 128) ^ 2)
      with (127 ^ 2 * (op * op * (dX * dX + dY * dY))) by ring.
    assert (op * op * (dX * dX + dY * dY) <= 1) by nra.
    nra. }
  destruct (gtb r 0) eqn:G; cbn [fst snd].
  - apply gtb_lt in G. apply Main.
    specialize (Hdist G).
    assert (I : / r * r = 1) by (apply Rinv_l; lra).
    assert (Hu : (dist * / r) * (dist * / r) <= 1).
    { assert (Rabs (dist * / r) <= 1).
      { rewrite Rabs_mult, (Rabs_pos_eq (/ r)) by (left; apply Rinv_0_lt_compat; lra).
        apply (Rmult_le_reg_r r); [lra|].
        rewrite Rmult_assoc, I. lra. }
      unfold Rabs in H. destruct (Rcase_abs (dist * / r)); nra. }
    unfold Rdiv.
    replace (- c * dist * / r * (- c * dist * / r) + - s * dist * / r * (- s * dist * / r))
      with ((c * c + s * s) * ((dist * / r) * (dist * / r))) by ring.
    assert (0 <= c * c + s * s) by nra.
    assert (0 <= dist * / r * (dist * / r)) by nra.
    nra.
  - apply Main. lra.
Qed.

Lemma displacement_needs_no_clamp_witness :
  1 <= fst (displacement_values 1 1 (Finite 1) [1] (0, -1)) <= 255.
Proof.
  apply (displacement_needs_no_clamp 1 1 1 [1] 0 (-1)).
  - lra.
  - unfold in_bezel_ring. split; [apply Rmax_lub; lra|lra].
  - constructor; [|constructor]. rewrite Rabs_pos_eq; lra.
Defined.

Lemma displacement_values_zero_table (radius b : R) (m : ExtR) (table : list R)
    (xy : R * R) :
  Forall (fun v => v = 0) table ->
  displacement_values radius b m table xy = (128, 128).
Proof.
  intros Hall. unfold displacement_values. destruct xy as [x y]. cbv zeta.
  set (dist := bezel_distance _ _ _ _).
  assert (D : dist = 0).
  { unfold dist.
    destruct (bezel_distance_cases radius b table (Math_sqrt (x * x + y * y)))
      as [E|Hin]; [exact E|].
    rewrite List.Forall_forall in Hall. now apply Hall. }
  rewrite D.
  assert (Z : forall c, (if ext_gtb m 0 then ext_div (- c * 0) m else 0) = 0).
  { intros c. destruct (ext_gtb m 0); [|reflexivity].
    destruct m; cbn [ext_div]; [reflexivity|unfold Rdiv; ring]. }
  rewrite !Z. unfold Math_max, Math_min.
  replace (128 + 0 * 127 * _) with 128 by ring.
  rewrite Rmin_right by lra. rewrite Rmax_right by lra. reflexivity.
Qed.

Lemma displacement_map_every_pixel (ow oh ox oy : nat) (radius b : R) (m : ExtR)
    (table : list R) :
  (0 < ow + 2 * ox)%nat -> (0 < oh + 2 * oy)%nat ->
  (forall x1 y1, (x1 < ow)%nat -> (y1 < oh)%nat ->
     displacement_bytes ow oh radius b m table (y1, x1) = None
     \/ displacement_bytes ow oh radius b m table (y1, x1)
        = Some (128, 128, 0, 255)%Z) ->
  exists img,
    _calculateDisplacementMap2D (ow + 2 * ox) (oh + 2 * oy) ow oh radius b m table
    = Ok img
    /\ ImageData.width img = (ow + 2 * ox)%nat
    /\ ImageData.height img = (oh + 2 * oy)%nat
    /\ forall cx cy, (cx < ow + 2 * ox)%nat -> (cy < oh + 2 * oy)%nat ->
         ImageData.pixel img cx cy = neutral.
Proof.
  intros Hw Hh Hbytes.
  destruct (displacement_map_centred ow oh ox oy radius b m table Hw Hh)
    as (img & E & W & H & _ & Pout).
  destruct (displacement_map_stored ow oh ox oy radius b m table Hw Hh)
    as (img' & E' & Pin).
  rewrite E in E'. injection E' as <-.
  exists img. repeat (split; [assumption|]).
  intros cx cy Hcx Hcy.
  destruct (le_lt_dec ox cx) as [X1|X1]; [destruct (le_lt_dec (ox + ow) cx) as [X2|X2]|];
    try (apply Pout; try assumption; left; rewrite in_object_region_centred; lia).
  destruct (le_lt_dec oy cy) as [Y1|Y1]; [destruct (le_lt_dec (oy + oh) cy) as [Y2|Y2]|];
    try (apply Pout; try assumption; left; rewrite in_object_region_centred; lia).
  destruct (Hbytes (cx - ox)%nat (cy - oy)%nat) as [N|S]; [lia|lia| |].
  - apply Pout; try assumption. right. intros Hring.
    unfold displacement_bytes in N. cbn [fst snd] in N.
    destruct (corner_local ow oh radius (cx - ox) (cy - oy)) as [x y].
    cbn [fst snd] in Hring.
    rewrite (proj2 (in_ring_spec radius _ x y)) in N by exact Hring.
    destruct (displacement_values _ _ _ _ _). discriminate.
  - replace cx with (ox + (cx - ox))%nat at 1 by lia.
    replace cy with (oy + (cy - oy))%nat at 1 by lia.
    apply Pin; [lia|lia|exact S].
Qed.

Lemma neutral_map_for_zero_table (ow oh ox oy : nat) (radius b : R) (m : ExtR)
    (table : list R) :
  (0 < ow + 2 * ox)%nat -> (0 < oh + 2 * oy)%nat ->
  Forall (fun v => v = 0) table ->
  exists img,
    _calculateDisplacementMap2D (ow + 2 * ox) (oh + 2 * oy) ow oh radius b m table
    = Ok img
    /\ ImageData.width img = (ow + 2 * ox)%nat
    /\ ImageData.height img = (oh + 2 * oy)%nat
    /\ forall cx cy, (cx < ow + 2 * ox)%nat -> (cy < oh + 2 * oy)%nat ->
         ImageData.pixel img cx cy = neutral.
Proof.
  intros Hw Hh Hall. apply displacement_map_every_pixel; try assumption.
  intros x1 y1 _ _. unfold displacement_bytes. cbn [fst snd].
  destruct (in_ring _ _ _); [|now left]. right.
  rewrite displacement_values_zero_table by exact Hall.
  now rewrite ToUint8Clamp_128.
Qed.

(** X15: a table of zeros displaces nothing: in a canvas with whole-pixel
    margins every pixel of the displacement map, bezel included, is the
    neutral [(128, 128, 0, 255)], whatever the divisor. *)
Theorem zero_table_gives_neutral_map (ow oh ox oy : nat) (radius bezelWidth : R)
    (maximumDisplacement : ExtR) (precomputedMap : list R) :
  (0 < ow + 2 * ox)%nat -> (0 < oh + 2 * oy)%nat ->
  Forall (fun v => v = 0) precomputedMap ->
  exists img,
    _calculateDisplacementMap2D (ow + 2 * ox) (oh + 2 * oy) ow oh radius
      bezelWidth maximumDisplacement precomputedMap = Ok img
    /\ ImageData.width img = (ow + 2 * ox)%nat
    /\ ImageData.height img = (oh + 2 * oy)%nat
    /\ forall cx cy, (cx < ow + 2 * ox)%nat -> (cy < oh + 2 * oy)%nat ->
         ImageData.pixel img cx cy = neutral.
Proof. apply neutral_map_for_zero_table. Qed.

Lemma zero_table_gives_neutral_map_witness :
  exists img,
    _calculateDisplacementMap2D (3 + 2 * 1) (1 + 2 * 0) 3 1 1 1 (Finite 1) [0; 0]
    = Ok img
    /\ ImageData.width img = (3 + 2 * 1)%nat.
Proof.
  destruct (zero_table_gives_neutral_map 3 1 1 0 1 1 (Finite 1) [0; 0])
    as (img & E & W & _); try lia.
  - repeat constructor.
  - exists img. split; assumption.
Defined.

Lemma empty_ring_bytes (ow oh : nat) (radius b : R) (m : ExtR) (table : list R)
    (x1 y1 : nat) :
  (x1 < ow)%nat -> (y1 < oh)%nat ->
  (radius + 1) * (radius + 1) < (radius - b) * (radius - b)
  \/ (radius = 0 /\ b <> 0) ->
  displacement_bytes ow oh radius b m table (y1, x1) = None.
Proof.
  intros Hx Hy Hcase. unfold displacement_bytes. cbn [fst snd].
  destruct (in_ring radius _ (corner_local ow oh radius x1 y1)) eqn:Ring;
    [|reflexivity].
  exfalso. destruct Hcase as [Hwide|[-> Hb]].
  - destruct (corner_local ow oh radius x1 y1) as [x y].
    apply in_ring_spec in Ring. unfold Math_max in Ring.
    pose proof (Rmax_r 0 ((radius - b) * (radius - b))). lra.
  - assert (C : corner_local ow oh 0 x1 y1 = (0, 0)).
    { unfold corner_local. cbv zeta.
      assert (0 <= INR x1 < INR ow) by (split; [apply pos_INR|now apply lt_INR]).
      assert (0 <= INR y1 < INR oh) by (split; [apply pos_INR|now apply lt_INR]).
      rewrite (proj2 (ltb_ge (INR x1) 0)) by lra.
      rewrite (proj2 (ltb_ge (INR y1) 0)) by lra.
      unfold geb. rewrite (proj2 (leb_gt (INR ow - 0) (INR x1))) by lra.
      rewrite (proj2 (leb_gt (INR oh - 0) (INR y1))) by lra. reflexivity. }
    rewrite C in Ring. apply in_ring_spec in Ring. unfold Math_max in Ring.
    pose proof (Rmax_r 0 ((0 - b) * (0 - b))).
    assert (0 < b * b) by nra. nra.
Qed.

(** X16: a bezel that is too wide for the corner radius displaces nothing:
    when [(radius + 1)^2 < (radius - bezelWidth)^2] (for a radius of at
    least 0, when the bezel is wider than twice the radius plus 1), and
    also for a radius of 0 with any bezel width but 0, no pixel passes the
    ring test and the whole map is neutral. *)
Theorem wide_bezel_displaces_nothing (ow oh ox oy : nat) (radius bezelWidth : R)
    (maximumDisplacement : ExtR) (precomputedMap : list R) :
  (0 < ow + 2 * ox)%nat -> (0 < oh + 2 * oy)%nat ->
  (radius + 1) * (radius + 1) < (radius - bezelWidth) * (radius - bezelWidth)
  \/ (radius = 0 /\ bezelWidth <> 0) ->
  exists img,
    _calculateDisplacementMap2D (ow + 2 * ox) (oh + 2 * oy) ow oh radius
      bezelWidth maximumDisplacement precomputedMap = Ok img
    /\ ImageData.width img = (ow + 2 * ox)%nat
    /\ ImageData.height img = (oh + 2 * oy)%nat
    /\ forall cx cy, (cx < ow + 2 * ox)%nat -> (cy < oh + 2 * oy)%nat ->
         ImageData.pixel img cx cy = neutral.
Proof.
  intros Hw Hh Hcase. apply displacement_map_every_pixel; try assumption.
  intros x1 y1 Hx Hy. left. now apply empty_ring_bytes.
Qed.

Lemma wide_bezel_displaces_nothing_witness :
  exists img,
    _calculateDisplacementMap2D (40 + 2 * 0) (20 + 2 * 0) 40 20 10 30 (Finite 1) [1]
    = Ok img
    /\ ImageData.width img = (40 + 2 * 0)%nat.
Proof.
  destruct (wide_bezel_displaces_nothing 40 20 0 0 10 30 (Finite 1) [1])
    as (img & E & W & _); try lia.
  - left. lra.
  - exists img. split; assumption.
Defined.

(** ** What the specular map holds *)

Lemma specular_map_untouched (ow oh : nat) (radius b : R) (angle : option R) :
  (0 < ow)%nat -> (0 < oh)%nat ->
  exists img,
    _calculateSpecularHighlight ow oh radius b angle = Ok img
    /\ ImageData.width img = ow /\ ImageData.height img = oh
    /\ length (ImageData.data img) = (4 * ow * oh)%nat
    /\ forall x1 y1, (x1 < ow)%nat -> (y1 < oh)%nat ->
         specular_bytes ow oh radius (light_vector angle) (y1, x1) = None ->
         ImageData.pixel img x1 y1 = transparent.
Proof.
  intros Hw Hh. eexists. split; [now apply calculateSpecularHighlight_fold|].
  split; [reflexivity|]. split; [reflexivity|]. split.
  - cbn [ImageData.data]. rewrite fold_stamp_length. apply length_replicate.
  - intros x1 y1 Hx Hy Hnone.
    unfold ImageData.pixel. cbn [ImageData.width ImageData.data].
    set (pos := fun p : nat * nat => (fst p * ow + snd p)%nat).
    set (val := specular_bytes ow oh radius (light_vector angle)).
    set (q := (y1 * ow + x1)%nat).
    assert (U : forall c, (c < 4)%nat ->
              fold_left (stamp pos val) (pixels ow oh) (replicate (4 * ow * oh) 0%Z)
                !! (4 * q + c)%nat = Some 0%Z).
    { intros c Hc. rewrite fold_stamp_untouched; [|exact Hc|].
      - apply lookup_replicate_2. unfold q. nia.
      - intros [y2 x2] Hin Hpos. apply in_pixels in Hin.
        unfold pos, q in Hpos. cbn [fst snd] in Hpos.
        destruct (row_column_unique ow y2 x2 y1 x1) as [-> ->]; [lia|lia|lia|].
        exact Hnone. }
    pose proof (U 0%nat ltac:(lia)) as U0. rewrite Nat.add_0_r in U0.
    rewrite U0, !U by lia. reflexivity.
Qed.

(** X17: the specular map has the size of the object, and every pixel
    whose squared corner-local distance is outside the specular band
    keeps the transparent black [(0, 0, 0, 0)] of a fresh image. *)
Theorem specular_map_transparent_outside_band (ow oh : nat)
    (radius bezelWidth : R) (specularAngle : option R) (x1 y1 : nat) :
  (x1 < ow)%nat -> (y1 < oh)%nat ->
  ~ in_specular_band radius (fst (corner_local ow oh radius x1 y1))
      (snd (corner_local ow oh radius x1 y1)) ->
  exists img,
    _calculateSpecularHighlight ow oh radius bezelWidth specularAngle = Ok img
    /\ ImageData.width img = ow /\ ImageData.height img = oh
    /\ length (ImageData.data img) = (4 * ow * oh)%nat
    /\ ImageData.pixel img x1 y1 = transparent.
Proof.
  intros Hx Hy Hout.
  destruct (specular_map_untouched ow oh radius bezelWidth specularAngle)
    as (img & E & W & H & L & P); [lia|lia|].
  exists img. repeat (split; [assumption|]).
  apply P; [exact Hx|exact Hy|].
  unfold specular_bytes. cbn [fst snd].
  destruct (in_ring radius _ (corner_local ow oh radius x1 y1)) eqn:Ring;
    [|reflexivity].
  exfalso. apply Hout.
  destruct (corner_local ow oh radius x1 y1) as [x y]. cbn [fst snd].
  apply in_ring_spec in Ring. exact Ring.
Qed.

Lemma specular_map_transparent_outside_band_witness :
  exists img,
    _calculateSpecularHighlight 3 1 0 30 None = Ok img
    /\ ImageData.pixel img 1 0 = transparent.
Proof.
  destruct (specular_map_transparent_outside_band 3 1 0 30 None 1 0)
    as (img & E & _ & _ & _ & P); try lia.
  - unfold corner_local, in_specular_band. cbv zeta. simpl INR.
    rewrite (proj2 (ltb_ge (1) 0)) by lra.
    rewrite (proj2 (ltb_ge (0) 0)) by lra.
    unfold geb. rewrite (proj2 (leb_gt (1 + 1 + 1 - 0) 1)) by lra.
    rewrite (proj2 (leb_gt (1 - 0) 0)) by lra.
    cbn [fst snd]. intros [H _].
    pose proof (Rmax_r 0 ((0 - 1.5) * (0 - 1.5))). lra.
  - exists img. split; assumption.
Defined.

(** X18: a corner radius below a quarter pixel, 0 in particular, leaves no
    room for the highlight: the specular band is empty and every pixel of
    the specular map stays transparent. *)
Theorem small_radius_has_no_highlight (ow oh : nat) (radius bezelWidth : R)
    (specularAngle : option R) :
  (0 < ow)%nat -> (0 < oh)%nat -> radius < 0.25 ->
  exists img,
    _calculateSpecularHighlight ow oh radius bezelWidth specularAngle = Ok img
    /\ ImageData.width img = ow /\ ImageData.height img = oh
    /\ forall x1 y1, (x1 < ow)%nat -> (y1 < oh)%nat ->
         ImageData.pixel img x1 y1 = transparent.
Proof.
  intros Hw Hh Hr.
  destruct (specular_map_untouched ow oh radius bezelWidth specularAngle Hw Hh)
    as (img & E & W & H & _ & P).
  exists img. repeat (split; [assumption|]).
  intros x1 y1 Hx Hy. apply P; [exact Hx|exact Hy|].
  unfold specular_bytes. cbn [fst snd].
  destruct (in_ring radius _ (corner_local ow oh radius x1 y1)) eqn:Ring;
    [|reflexivity].
  exfalso. destruct (corner_local ow oh radius x1 y1) as [x y].
  apply in_ring_spec in Ring. unfold Math_max in Ring.
  pose proof (Rmax_r 0 ((radius - 1.5) * (radius - 1.5))). nra.
Qed.

Lemma small_radius_has_no_highlight_witness :
  exists img,
    _calculateSpecularHighlight 3 1 0 30 None = Ok img
    /\ ImageData.width img = 3%nat.
Proof.
  destruct (small_radius_has_no_highlight 3 1 0 30 None)
    as (img & E & W & _); try lia; try lra.
  exists img. split; assumption.
Defined.

(** ** How [_updateFilter] ends *)

Lemma recognized_is_profile (name : string) :
  In name recognized_surfaceTypes ->
  exists f, SurfaceEquations_get name = JsFunction f.
Proof.
  intros [<-|[<-|[<-|[<-|[]]]]]; eexists; reflexivity.
Qed.

(** X19: for a recognized surface type and a positive refractive index
    other than 1, [_updateFilter] always gets its table and stores a
    maximum displacement that is not negative; it changes nothing else of
    the instance: options, dimensions, springs, pending frame, drag flag,
    velocity and last pointer sample stay as they are.  For an element of
    zero width or height it then throws an [IndexSizeError] out of the 2D
    rasterizer, before the specular rasterizer is called or any attribute
    written; for positive sides it returns after calling the solver, the
    2D and the specular rasterizer in this order and writing the two
    images, the scale if asked, the specular slope and the blur. *)
Theorem updateFilter_outcomes (this : LiquidGlass) (updateScale : bool) :
  In (surfaceType (options this)) recognized_surfaceTypes ->
  0 < refractiveIndex (options this) -> refractiveIndex (options this) <> 1 ->
  let out := _updateFilter this updateScale in
  let d := dimensions this in
  options (final out) = options this
  /\ dimensions (final out) = d
  /\ springs (final out) = springs this
  /\ animationFrameId (final out) = animationFrameId this
  /\ isDragging (state (final out)) = isDragging (state this)
  /\ velocityX (state (final out)) = velocityX (state this)
  /\ velocityY (state (final out)) = velocityY (state this)
  /\ lastX (state (final out)) = lastX (state this)
  /\ lastY (state (final out)) = lastY (state this)
  /\ lastTime (state (final out)) = lastTime (state this)
  /\ exists m,
       maximumDisplacement (state (final out)) = Finite m /\ 0 <= m
       /\ (width d = 0%nat \/ height d = 0%nat ->
             completion out = Throw IndexSizeError
             /\ effects out
                = [CallDisplacementMap1D;
                   CallDisplacementMap2D (Finite (or_default m 1))])
       /\ ((0 < width d)%nat -> (0 < height d)%nat ->
             completion out = Ok tt
             /\ exists displacement specular,
                  effects out
                  = [CallDisplacementMap1D;
                     CallDisplacementMap2D (Finite (or_default m 1));
                     CallSpecularHighlight;
                     SetImages displacement specular]
                    ++ (if updateScale
                        then [SetScale (Finite m) (refractionScale (options this))]
                        else [])
                    ++ [SetSpecularSlope (specularOpacity (options this));
                        SetBlur (blur (options this))]
                  /\ ImageData.width displacement = width d
                  /\ ImageData.height displacement = height d
                  /\ ImageData.width specular = width d
                  /\ ImageData.height specular = height d).
Proof.
  intros Hrec Hn H1. cbv zeta.
  destruct (recognized_is_profile _ Hrec) as [f Hf].
  pose proof (calculateDisplacementMap1D_function
                (glassThickness (options this)) (bezelWidth (options this))
                (refractiveIndex (options this)) f None Hn H1) as Htable.
  rewrite <- Hf in Htable.
  set (table := map _ _) in Htable.
  assert (Hm : exists m, Math_max_apply (map Math_abs table) = Finite m /\ 0 <= m).
  { pose proof (default_table_nonempty _ _ _ _ _ Htable) as Hlen.
    destruct table as [|e es]; [discriminate Hlen|].
    destruct (Math_max_apply_abs e es) as (m & Hm & Hpos & _). eauto. }
  destruct Hm as (m & Hm & Hpos).
  destruct (Nat.eq_dec (width (dimensions this)) 0%nat) as [W0|W0];
    [|destruct (Nat.eq_dec (height (dimensions this)) 0%nat) as [H0|H0]].
  - rewrite (updateFilter_empty this updateScale table Htable) by now left.
    rewrite Hm. cbn. repeat (split; [reflexivity|]).
    exists m. repeat split; try assumption; lia.
  - rewrite (updateFilter_empty this updateScale table Htable) by now right.
    rewrite Hm. cbn. repeat (split; [reflexivity|]).
    exists m. repeat split; try assumption; lia.
  - destruct (updateFilter_run this updateScale table Htable)
      as (img & spec & E2 & E3 & ->); [lia|lia|].
    rewrite Hm in E2 |- *. cbn [ext_or_default] in E2 |- *.
    cbn [final effects completion options dimensions springs animationFrameId
         with_state state maximumDisplacement with_maximumDisplacement
         isDragging velocityX velocityY lastX lastY lastTime].
    repeat (split; [reflexivity|]).
    exists m. split; [reflexivity|]. split; [exact Hpos|]. split; [lia|].
    intros Hw Hh. split; [reflexivity|].
    exists img, spec. split; [reflexivity|].
    destruct (calculateDisplacementMap2D_ok
                (width (dimensions this)) (height (dimensions this))
                (width (dimensions this)) (height (dimensions this))
                (IZR (borderRadius (dimensions this))) (bezelWidth (options this))
                (Finite (or_default m 1)) table Hw Hh) as (img' & E2' & W2 & H2).
    destruct (calculateSpecularHighlight_ok
                (width (dimensions this)) (height (dimensions this))
                (IZR (borderRadius (dimensions this))) (bezelWidth (options this))
                None Hw Hh) as (spec' & E3' & W3 & H3).
    rewrite E2 in E2'. injection E2' as <-.
    rewrite E3 in E3'. injection E3' as <-.
    repeat split; assumption.
Qed.

Lemma updateFilter_outcomes_witness :
  completion (_updateFilter (constructed (mkDimensions 0 4 1)) true)
  = Throw IndexSizeError
  /\ isDragging
       (state (final (_updateFilter (constructed (mkDimensions 0 4 1)) true)))
     = false.
Proof.
  destruct (updateFilter_outcomes (constructed (mkDimensions 0 4 1)) true)
    as (_ & _ & _ & _ & Hdrag & _ & _ & _ & _ & _ & m & _ & _ & Hempty & _).
  - cbn. tauto.
  - cbn. lra.
  - cbn. lra.
  - split; [|exact Hdrag]. apply Hempty. now left.
Defined.

(** ** A pointer that is held down *)

Lemma ticks_dragging (frames : list positive) (this : LiquidGlass) :
  isDragging (state this) = true ->
  isDragging (state (ticks frames this)) = true
  /\ velocityX (state (ticks frames this)) = velocityX (state this)
  /\ velocityY (state (ticks frames this)) = velocityY (state this).
Proof.
  revert this. induction frames as [|frame frames IH]; intros this Hdrag.
  - cbn. auto.
  - rewrite ticks_cons.
    destruct (tick_velocity frame this) as (VX & VY & D).
    rewrite Hdrag in VX, VY, D.
    destruct (IH _ D) as (I1 & I2 & I3).
    rewrite I1, I2, I3, VX, VY. auto.
Qed.

(** X21: the velocity measured by the last pointer move is only decayed
    after the release.  So while the pointer stays down with a last
    measured speed of at least 1 px/s along one axis, no tick changes the
    velocity, no tick ends at rest, and a running loop requests a frame
    after every tick, however long the pointer is held still. *)
Theorem held_pointer_keeps_loop_running (frames : list positive)
    (this : LiquidGlass) :
  isDragging (state this) = true ->
  1 <= Rabs (velocityX (state this)) \/ 1 <= Rabs (velocityY (state this)) ->
  animationFrameId this <> None ->
  run frames this = ticks frames this
  /\ animationFrameId (run frames this) <> None
  /\ velocityX (state (run frames this)) = velocityX (state this)
  /\ velocityY (state (run frames this)) = velocityY (state this)
  /\ forall k, ~ at_rest (ticks (take k frames) this).
Proof.
  intros Hdrag Hfast Hrun.
  assert (Hnot : forall fs, ~ at_rest (ticks fs this)).
  { intros fs (_ & HX & HY).
    destruct (ticks_dragging fs this Hdrag) as (_ & VX & VY).
    rewrite VX in HX. rewrite VY in HY. lra. }
  destruct (run_while_not_at_rest frames this Hrun) as [E N].
  { intros k _. apply Hnot. }
  destruct (ticks_dragging frames this Hdrag) as (_ & VX & VY).
  rewrite E in *. repeat split; try assumption.
  intros k. apply Hnot.
Qed.

Lemma held_pointer_keeps_loop_running_witness :
  run [2%positive; 3%positive] (held (constructed (mkDimensions 4 4 1)))
  = ticks [2%positive; 3%positive] (held (constructed (mkDimensions 4 4 1))).
Proof.
  apply (held_pointer_keeps_loop_running [2%positive; 3%positive]
           (held (constructed (mkDimensions 4 4 1)))).
  - reflexivity.
  - left. cbn. unfold Math_max.
    replace (Rmax 1 (200 - 0)) with 200 by (rewrite Rmax_right; lra).
    replace ((100 - 0) / (200 / 1000)) with 500 by lra.
    rewrite Rabs_right; lra.
  - cbn. discriminate.
Defined.
